(** * drm-hwcomposer: display pipes, plane matching, frame planning, vsync

    A shallow embedding of the parts of drm-hwcomposer that allocate
    scanout resources:

    - [VSyncWorker]            src/drm/VSyncWorker.cpp
    - [DrmPlane]               src/drm/DrmPlane.cpp
    - [DrmDisplayComposition]  src/compositor/DrmDisplayComposition.cpp
    - [DrmConnector], [DrmDevice]  src/drm/DrmConnector.cpp, src/drm/DrmDevice.cpp

    C++ objects that are shared through raw pointers live in arenas (the
    vectors of [unique_ptr] the device owns); a pointer is the index of
    its pointee, a nullable pointer an [option], and a function that
    dereferences returns [None] where the C++ would dereference a null or
    dangling pointer.  Signed integers are [Z], unsigned ones [N]; the
    64-bit timestamps carry their wrap-around.  Calls into the kernel and
    into the planner strategy are parameters of the functions that make
    them.

    The file has three parts: the embedding, the vocabulary and example
    data of the statements, and the proofs. *)

From Stdlib Require Import ZArith Lia Sorting.Sorted Permutation.
From stdpp Require Import base option list sorting strings pretty gmap.

Local Open Scope Z_scope.

(** ** Machine integers and errno values *)

Definition INT64_MIN : Z := - 2 ^ 63.
Definition INT64_MAX : Z := 2 ^ 63 - 1.

(** Two's-complement wrap-around of a 64-bit signed result. *)
Definition wrap64 (z : Z) : Z := (z + 2 ^ 63) `mod` 2 ^ 64 - 2 ^ 63.

Definition in_int64 (z : Z) : Prop := INT64_MIN ≤ z ≤ INT64_MAX.

Definition EAGAIN : Z := 11.
Definition ENODEV : Z := 19.
Definition EINVAL : Z := 22.
Definition ENOENT : Z := 2.

(** ** VSyncWorker *)

Module VSyncWorker.

(** The two fields of the worker the timing code reads and writes. *)
Record t := mk {
  enabled_ : bool;
  last_timestamp_ : Z   (* int64_t, -1 when unknown *)
}.

(** The constructor: disabled, no timestamp. *)
Definition init : t := mk false (-1).

Definition VSyncControl (enabled : bool) (w : t) : t := mk enabled (-1).

Definition kOneSecondNs : Z := 1 * 1000 * 1000 * 1000.

(** [int64_t] arithmetic, operator by operator; [/] of C++ truncates
    towards zero ([Z.quot]). *)
Definition GetPhasedVSync (w : t) (frame_ns current : Z) : Z :=
  if last_timestamp_ w <? 0 then wrap64 (current + frame_ns)
  else
    wrap64
      (wrap64
         (frame_ns *
          wrap64 (wrap64 (wrap64 (current - last_timestamp_ w) ÷ frame_ns) + 1))
       + last_timestamp_ w).

(** [struct timespec], as [clock_gettime(CLOCK_MONOTONIC)] fills it. *)
Record timespec := mkTimespec { tv_sec : Z; tv_nsec : Z }.

(** The instant a [timespec] denotes, in nanoseconds. *)
Definition timespec_ns (vsync : timespec) : Z :=
  tv_sec vsync * kOneSecondNs + tv_nsec vsync.

(** [SyntheticWaitVBlank] from the point where the monotonic clock has
    been read into [vsync]; [refresh] is [static_cast<int>(refresh)], 60
    when the connector or its mode gives no rate.  The sleep itself is not
    modelled; on success the function stores the wake time it computed. *)
Definition SyntheticWaitVBlank (w : t) (refresh : Z) (vsync : timespec) : Z :=
  let phased_timestamp :=
    GetPhasedVSync w (kOneSecondNs ÷ refresh)
                   (wrap64 (wrap64 (tv_sec vsync * kOneSecondNs) + tv_nsec vsync)) in
  let sec := phased_timestamp ÷ kOneSecondNs in
  let nsec := wrap64 (phased_timestamp - wrap64 (sec * kOneSecondNs)) in
  wrap64 (wrap64 (sec * kOneSecondNs) + nsec).

(** One pass of [Routine] in which the kernel wait has failed and the
    synthetic wait has succeeded: if the worker is still enabled the
    callback receives [timestamp], which becomes the new
    [last_timestamp_]; otherwise nothing is emitted and the state stays. *)
Definition Routine_synthetic (refresh : Z) (vsync : timespec) (w : t)
    : option Z * t :=
  let timestamp := SyntheticWaitVBlank w refresh vsync in
  if enabled_ w then (Some timestamp, mk (enabled_ w) timestamp)
  else (None, w).

(** Successive synthetic passes, one per clock reading; the emitted
    timestamps in order. *)
Fixpoint run_synthetic (refresh : Z) (clock : list timespec) (w : t) : list Z :=
  match clock with
  | [] => []
  | vsync :: rest =>
      match Routine_synthetic refresh vsync w with
      | (Some ts, w') => ts :: run_synthetic refresh rest w'
      | (None, w') => run_synthetic refresh rest w'
      end
  end.

(** The clock readings a run can meet: a normalised, non-negative
    [timespec], taken no earlier than the wake time of the pass before it,
    with room for one more period below [INT64_MAX]. *)
Fixpoint clock_ok (refresh : Z) (clock : list timespec) (w : t) : Prop :=
  match clock with
  | [] => True
  | vsync :: rest =>
      0 ≤ tv_sec vsync ∧ 0 ≤ tv_nsec vsync < kOneSecondNs
      ∧ last_timestamp_ w ≤ timespec_ns vsync
      ∧ timespec_ns vsync + kOneSecondNs ÷ refresh ≤ INT64_MAX
      ∧ clock_ok refresh rest (Routine_synthetic refresh vsync w).2
  end.

End VSyncWorker.

(** ** Layers and planes *)

(** Modelled from the spec: drmhwcomposer.h, which declares the layer and
    its enumerations, is not part of the sources.  A transform is the
    identity or a combination of reflections and rotations, kept as the
    bit mask over [uint32_t] that [ToDrmRotation] tests bit by bit. *)
Abbreviation DrmHwcTransform := N (only parsing).

Module Transform.
Definition kIdentity : DrmHwcTransform := 0%N.
Definition kFlipH : DrmHwcTransform := 1%N.
Definition kFlipV : DrmHwcTransform := 2%N.
Definition kRotate90 : DrmHwcTransform := 4%N.
Definition kRotate180 : DrmHwcTransform := 8%N.
Definition kRotate270 : DrmHwcTransform := 16%N.
End Transform.

(** Modelled from the spec: the blend modes of a layer (same header). *)
Inductive DrmHwcBlending := kNone | kPreMult | kCoverage.

#[global] Instance DrmHwcBlending_eq_dec : EqDecision DrmHwcBlending.
Proof. solve_decision. Defined.

#[global] Instance DrmHwcBlending_countable : Countable DrmHwcBlending.
Proof.
  refine (inj_countable'
            (λ b, match b with kNone => 0 | kPreMult => 1 | kCoverage => 2 end)%nat
            (λ n, match n with 0 => kNone | 1 => kPreMult | _ => kCoverage end)%nat
            _).
  by intros [].
Defined.

(** Modelled from the spec: the layer (same header), reduced to the
    fields that plane matching reads: transform, plane alpha, blend mode
    and pixel format. *)
Record DrmHwcLayer := mkLayer {
  transform : DrmHwcTransform;
  alpha : N;                      (* uint16_t plane alpha *)
  blending : DrmHwcBlending;
  buffer_format : N               (* buffer_info.format, a fourcc *)
}.

(** Modelled from the spec: DrmProperty.h is not part of the sources.
    The plane code asks a property only for its id and for its presence;
    an optional property the hardware does not report keeps id 0, which is
    the record of the unsupported capability. *)
Record DrmProperty := mkProperty { prop_id : N }.

(** Modelled from the spec: [operator bool] of a property, its presence. *)
Definition prop_present (p : DrmProperty) : bool := negb (prop_id p =? 0)%N.

Definition DRM_PLANE_TYPE_OVERLAY : N := 0.
Definition DRM_PLANE_TYPE_PRIMARY : N := 1.
Definition DRM_PLANE_TYPE_CURSOR : N := 2.

(** Rotation and reflection bits of the kernel interface, the values of
    the plane property "rotation". *)
Definition DRM_MODE_ROTATE_0 : N := 1.
Definition DRM_MODE_ROTATE_90 : N := 2.
Definition DRM_MODE_ROTATE_180 : N := 4.
Definition DRM_MODE_ROTATE_270 : N := 8.
Definition DRM_MODE_REFLECT_X : N := 16.
Definition DRM_MODE_REFLECT_Y : N := 32.

Module DrmPlane.

Record t := mk {
  id_ : N;
  possible_crtc_mask_ : N;
  type_ : N;
  formats_ : list N;
  rotation_property_ : DrmProperty;
  alpha_property_ : DrmProperty;
  transform_enum_map_ : gmap N N;                (* DrmHwcTransform -> hw value *)
  blending_enum_map_ : gmap DrmHwcBlending N
}.

Definition id (p : t) : N := id_ p.
Definition type (p : t) : N := type_ p.

(** [(1 << crtc.pipe()) & possible_crtc_mask_] *)
Definition GetCrtcSupported (p : t) (pipe : N) : bool :=
  negb (N.land (N.shiftl 1 pipe) (possible_crtc_mask_ p) =? 0)%N.

(** [std::find] over [formats_]. *)
Definition IsFormatSupported (p : t) (format : N) : bool :=
  bool_decide (format ∈ formats_ p).

(** [std::map::count]: 1 when the key is there, else 0. *)
Definition count `{Countable K} {V} (m : gmap K V) (k : K) : nat :=
  match m !! k with Some _ => 1%nat | None => 0%nat end.

Definition IsValidForLayer (p : t) (layer : DrmHwcLayer) : bool :=
  if (if negb (prop_present (rotation_property_ p))
      then negb (transform layer =? Transform.kIdentity)%N
      else (count (transform_enum_map_ p) (transform layer) =? 0)%nat)
  then false
  else if (prop_id (alpha_property_ p) =? 0)%N && negb (alpha layer =? 0xffff)%N
  then false
  else if (count (blending_enum_map_ p) (blending layer) =? 0)%nat
          && negb (bool_decide (blending layer = kNone))
          && negb (bool_decide (blending layer = kPreMult))
  then false
  else if negb (IsFormatSupported p (buffer_format layer))
  then false
  else true.

(** The value [AtomicSetState] writes to the rotation property. *)
Definition ToDrmRotation (transform : DrmHwcTransform) : N :=
  let rotation := 0%N in
  let rotation :=
    if negb (N.land transform Transform.kFlipH =? 0)%N
    then N.lor rotation DRM_MODE_REFLECT_X else rotation in
  let rotation :=
    if negb (N.land transform Transform.kFlipV =? 0)%N
    then N.lor rotation DRM_MODE_REFLECT_Y else rotation in
  if negb (N.land transform Transform.kRotate90 =? 0)%N
  then N.lor rotation DRM_MODE_ROTATE_90
  else if negb (N.land transform Transform.kRotate180 =? 0)%N
  then N.lor rotation DRM_MODE_ROTATE_180
  else if negb (N.land transform Transform.kRotate270 =? 0)%N
  then N.lor rotation DRM_MODE_ROTATE_270
  else N.lor rotation DRM_MODE_ROTATE_0.

End DrmPlane.

(** ** DrmDisplayComposition *)

Inductive DrmCompositionType :=
| DRM_COMPOSITION_TYPE_EMPTY
| DRM_COMPOSITION_TYPE_FRAME
| DRM_COMPOSITION_TYPE_DPMS
| DRM_COMPOSITION_TYPE_MODESET.

#[global] Instance DrmCompositionType_eq_dec : EqDecision DrmCompositionType.
Proof. solve_decision. Defined.

Definition DRM_MODE_DPMS_ON : N := 0.

(** A mode as the kernel reports it ([drmModeModeInfo]): geometry, refresh
    rate, flags and type bits. *)
Record drmModeModeInfo := mkModeInfo {
  hdisplay : N;
  vdisplay : N;
  vrefresh : N;
  info_flags : N;
  info_type : N
}.

#[global] Instance drmModeModeInfo_eq_dec : EqDecision drmModeModeInfo.
Proof. solve_decision. Defined.

Definition DRM_MODE_TYPE_PREFERRED : N := 8.

(** Modelled from the spec: DrmMode.h is not part of the sources; a mode is
    what the kernel reported (geometry, refresh rate, type flags, among
    them "preferred") together with the id the connector gave it on first
    discovery; it equals a kernel mode when its timings do. *)
Module DrmMode.
Record t := mk { id_ : N; info_ : drmModeModeInfo }.

(** The constructor from a kernel mode: no id yet. *)
Definition of_info (m : drmModeModeInfo) : t := mk 0 m.
Definition id (m : t) : N := id_ m.
Definition set_id (id : N) (m : t) : t := mk id (info_ m).
Definition type (m : t) : N := info_type (info_ m).
(** [operator==(const drmModeModeInfo &)] *)
Definition eq_info (m : t) (info : drmModeModeInfo) : Prop := info_ m = info.

#[global] Instance eq_info_dec m info : Decision (eq_info m info).
Proof. unfold eq_info. apply _. Defined.
End DrmMode.

(** A [DrmPlane *] is the index of the plane in the device's [planes_]. *)
Abbreviation DrmPlanePtr := nat (only parsing).
(** A [DrmCrtc *] is the index of the CRTC in the device's [crtcs_]. *)
Abbreviation DrmCrtcPtr := nat (only parsing).

(** Modelled from the spec: DrmDisplayCompositor.h, which declares
    [DrmCompositionPlane], is not part of the sources; a composition plane
    is its kind, the plane it claims or none, and the indices of its source
    layers. *)
Module DrmCompositionPlane.
Inductive Type_ := kDisable | kLayer | kSquash.

Record t := mk {
  type_ : Type_;
  plane_ : option DrmPlanePtr;
  source_layers_ : list nat          (* std::vector<size_t> *)
}.

Definition plane (i : t) := plane_ i.
Definition source_layers (i : t) := source_layers_ i.
Definition set_source_layers (l : list nat) (i : t) : t :=
  mk (type_ i) (plane_ i) l.
End DrmCompositionPlane.

Module DrmDisplayComposition.

Record t := mk {
  crtc_ : option DrmCrtcPtr;
  type_ : DrmCompositionType;
  dpms_mode_ : N;
  display_mode_ : option DrmMode.t;    (* default-constructed until set *)
  geometry_changed_ : bool;
  layers_ : list DrmHwcLayer;
  composition_planes_ : list DrmCompositionPlane.t
}.

(** The constructor, with the members' in-class initialisers. *)
Definition new (crtc : option DrmCrtcPtr) : t :=
  mk crtc DRM_COMPOSITION_TYPE_EMPTY DRM_MODE_DPMS_ON None false [] [].

Definition validate_composition_type (c : t) (des : DrmCompositionType) : bool :=
  bool_decide (type_ c = DRM_COMPOSITION_TYPE_EMPTY) || bool_decide (type_ c = des).

Definition SetLayers (layers : list DrmHwcLayer) (geometry_changed : bool)
    (c : t) : Z * t :=
  if negb (validate_composition_type c DRM_COMPOSITION_TYPE_FRAME)
  then (- EINVAL, c)
  else (0, mk (crtc_ c) DRM_COMPOSITION_TYPE_FRAME (dpms_mode_ c)
              (display_mode_ c) geometry_changed (layers_ c ++ layers)
              (composition_planes_ c)).

Definition SetDpmsMode (dpms_mode : N) (c : t) : Z * t :=
  if negb (validate_composition_type c DRM_COMPOSITION_TYPE_DPMS)
  then (- EINVAL, c)
  else (0, mk (crtc_ c) DRM_COMPOSITION_TYPE_DPMS dpms_mode
              (display_mode_ c) (geometry_changed_ c) (layers_ c)
              (composition_planes_ c)).

Definition SetDisplayMode (display_mode : DrmMode.t) (c : t) : Z * t :=
  if negb (validate_composition_type c DRM_COMPOSITION_TYPE_MODESET)
  then (- EINVAL, c)
  else (0, mk (crtc_ c) DRM_COMPOSITION_TYPE_MODESET DRM_MODE_DPMS_ON
              (Some display_mode) (geometry_changed_ c) (layers_ c)
              (composition_planes_ c)).

Definition set_composition_planes (l : list DrmCompositionPlane.t) (c : t) : t :=
  mk (crtc_ c) (type_ c) (dpms_mode_ c) (display_mode_ c)
     (geometry_changed_ c) (layers_ c) l.

Definition AddPlaneDisable (plane : DrmPlanePtr) (c : t) : Z * t :=
  (0, set_composition_planes
        (composition_planes_ c ++
         [DrmCompositionPlane.mk DrmCompositionPlane.kDisable (Some plane) []]) c).

Definition AddPlaneComposition (plane : DrmCompositionPlane.t) (c : t) : Z * t :=
  (0, set_composition_planes (composition_planes_ c ++ [plane]) c).

(** What one call of [Planner::ProvisionPlanes] receives ... *)
Record PlannerCall := mkCall {
  call_layers : gmap nat DrmHwcLayer;      (* std::map<size_t, DrmHwcLayer *> *)
  call_crtc : option DrmCrtcPtr;
  call_primary : list DrmPlanePtr;
  call_overlay : list DrmPlanePtr
}.

(** ... and what it hands back: the status, the composition planes, and
    the two pools, which it holds by non-const pointer. *)
Record PlannerResult := mkResult {
  res_ret : Z;
  res_planes : list DrmCompositionPlane.t;
  res_primary : list DrmPlanePtr;
  res_overlay : list DrmPlanePtr
}.

(** What [Plan] leaves behind: its return value, the composition, the two
    pools, and the calls it made to the planner. *)
Record PlanOutcome := mkOutcome {
  out_ret : Z;
  out_comp : t;
  out_primary : list DrmPlanePtr;
  out_overlay : list DrmPlanePtr;
  out_calls : list PlannerCall
}.

(** The inner loop of [Plan]: erase the first element equal to [p]. *)
Fixpoint erase_first (p : DrmPlanePtr) (container : list DrmPlanePtr)
    : list DrmPlanePtr :=
  match container with
  | [] => []
  | j :: rest => if decide (j = p) then rest else j :: erase_first p rest
  end.

Section Plan.
(** The planner strategy ([planner_]; Planner.h is not part of the
    sources, any strategy is admitted) and the plane objects the pointers
    lead to, of which [Plan] reads only the type. *)
Variable ProvisionPlanes : PlannerCall → PlannerResult.
Variable planes_ : DrmPlanePtr → DrmPlane.t.

(** [std::sort] of a [std::vector<size_t>]. *)
Definition std_sort (l : list nat) : list nat := merge_sort Nat.le l.

(** The loop over [composition_planes_] that takes the used planes out
    of the pools. *)
Fixpoint remove_used (cps : list DrmCompositionPlane.t)
    (primary_planes overlay_planes : list DrmPlanePtr)
    : list DrmCompositionPlane.t * list DrmPlanePtr * list DrmPlanePtr :=
  match cps with
  | [] => ([], primary_planes, overlay_planes)
  | i :: rest =>
      match DrmCompositionPlane.plane i with
      | None =>
          let '(r, p, o) := remove_used rest primary_planes overlay_planes in
          (i :: r, p, o)
      | Some pl =>
          let i' := DrmCompositionPlane.set_source_layers
                      (std_sort (DrmCompositionPlane.source_layers i)) i in
          let '(r, p, o) :=
            if (DrmPlane.type (planes_ pl) =? DRM_PLANE_TYPE_PRIMARY)%N
            then remove_used rest (erase_first pl primary_planes) overlay_planes
            else remove_used rest primary_planes (erase_first pl overlay_planes) in
          (i' :: r, p, o)
      end
  end.

Definition Plan (c : t) (primary_planes overlay_planes : list DrmPlanePtr)
    : PlanOutcome :=
  if negb (bool_decide (type_ c = DRM_COMPOSITION_TYPE_FRAME))
  then mkOutcome 0 c primary_planes overlay_planes []
  else
    let to_composite : gmap nat DrmHwcLayer := map_seq 0 (layers_ c) in
    let call := mkCall to_composite (crtc_ c) primary_planes overlay_planes in
    let r := ProvisionPlanes call in
    if negb (res_ret r =? 0)
    then mkOutcome (res_ret r) (set_composition_planes (res_planes r) c)
                   (res_primary r) (res_overlay r) [call]
    else
      let '(cps, p, o) :=
        remove_used (res_planes r) (res_primary r) (res_overlay r) in
      mkOutcome 0 (set_composition_planes cps c) p o [call].
End Plan.

End DrmDisplayComposition.

(** ** Connectors, encoders, CRTCs *)

Inductive drmModeConnection :=
| DRM_MODE_CONNECTED
| DRM_MODE_DISCONNECTED
| DRM_MODE_UNKNOWNCONNECTION.

#[global] Instance drmModeConnection_eq_dec : EqDecision drmModeConnection.
Proof. solve_decision. Defined.

(** What [drmModeGetConnector] reports for a connector, as far as
    [UpdateModes] reads it. *)
Record drmModeConnector := mkKernelConnector {
  connection : drmModeConnection;
  modes : list drmModeModeInfo
}.

(** Connector types of the kernel interface. *)
Definition DRM_MODE_CONNECTOR_VGA : N := 1.
Definition DRM_MODE_CONNECTOR_DVII : N := 2.
Definition DRM_MODE_CONNECTOR_DVID : N := 3.
Definition DRM_MODE_CONNECTOR_Composite : N := 5.
Definition DRM_MODE_CONNECTOR_LVDS : N := 7.
Definition DRM_MODE_CONNECTOR_DisplayPort : N := 10.
Definition DRM_MODE_CONNECTOR_HDMIA : N := 11.
Definition DRM_MODE_CONNECTOR_eDP : N := 14.
Definition DRM_MODE_CONNECTOR_VIRTUAL : N := 15.
Definition DRM_MODE_CONNECTOR_DSI : N := 16.
Definition DRM_MODE_CONNECTOR_DPI : N := 17.
Definition DRM_MODE_CONNECTOR_WRITEBACK : N := 18.

Abbreviation DrmEncoderPtr := nat (only parsing).

(** Modelled from the spec: DrmCrtc.h is not part of the sources; a CRTC is
    its id, its pipe index and the display it is bound to (-1: unbound),
    and it can bind a display when it is unbound or already bound to that
    same display. *)
Module DrmCrtc.
Record t := mk { id_ : N; pipe_ : N; display_ : Z }.

Definition display (c : t) : Z := display_ c.
Definition set_display (display : Z) (c : t) : t := mk (id_ c) (pipe_ c) display.
Definition can_bind (c : t) (display : Z) : bool :=
  (display_ c =? -1) || (display_ c =? display).
End DrmCrtc.

(** Modelled from the spec: DrmEncoder.h is not part of the sources; an
    encoder is its id, the CRTC it drives or none, the CRTCs it could
    drive, and the display it serves (-1: not bound yet).  Binding a CRTC
    records the CRTC and takes over its display; an encoder can bind a
    display when it has not been bound already or serves that display. *)
Module DrmEncoder.
Record t := mk {
  id_ : N;
  crtc_ : option DrmCrtcPtr;
  display_ : Z;
  possible_crtcs_ : list DrmCrtcPtr;
  possible_clones_ : list DrmEncoderPtr
}.

Definition crtc (e : t) := crtc_ e.
Definition possible_crtcs (e : t) := possible_crtcs_ e.
(** [set_crtc(crtc)], given the pointer and [crtc->display()]. *)
Definition set_crtc (crtc : DrmCrtcPtr) (crtc_display : Z) (e : t) : t :=
  mk (id_ e) (Some crtc) crtc_display (possible_crtcs_ e) (possible_clones_ e).
Definition can_bind (e : t) (display : Z) : bool :=
  (display_ e =? -1) || (display_ e =? display).
End DrmEncoder.

Module DrmConnector.

Record t := mk {
  id_ : N;
  encoder_ : option DrmEncoderPtr;
  display_ : Z;
  type_ : N;
  type_id_ : N;
  state_ : drmModeConnection;
  mm_width_ : N;
  mm_height_ : N;
  possible_encoders_ : list DrmEncoderPtr;
  modes_ : list DrmMode.t;
  preferred_mode_id_ : N
}.

Definition display (c : t) : Z := display_ c.
Definition encoder (c : t) := encoder_ c.
Definition state (c : t) := state_ c.
Definition possible_encoders (c : t) := possible_encoders_ c.

Definition set_display (display : Z) (c : t) : t :=
  mk (id_ c) (encoder_ c) display (type_ c) (type_id_ c) (state_ c)
     (mm_width_ c) (mm_height_ c) (possible_encoders_ c)
     (modes_ c) (preferred_mode_id_ c).

Definition set_encoder (encoder : DrmEncoderPtr) (c : t) : t :=
  mk (id_ c) (Some encoder) (display_ c) (type_ c) (type_id_ c) (state_ c)
     (mm_width_ c) (mm_height_ c) (possible_encoders_ c)
     (modes_ c) (preferred_mode_id_ c).

Definition internal (c : t) : bool :=
  (type_ c =? DRM_MODE_CONNECTOR_LVDS)%N || (type_ c =? DRM_MODE_CONNECTOR_eDP)%N
  || (type_ c =? DRM_MODE_CONNECTOR_DSI)%N
  || (type_ c =? DRM_MODE_CONNECTOR_VIRTUAL)%N
  || (type_ c =? DRM_MODE_CONNECTOR_DPI)%N.

Definition external (c : t) : bool :=
  (type_ c =? DRM_MODE_CONNECTOR_HDMIA)%N
  || (type_ c =? DRM_MODE_CONNECTOR_DisplayPort)%N
  || (type_ c =? DRM_MODE_CONNECTOR_DVID)%N || (type_ c =? DRM_MODE_CONNECTOR_DVII)%N
  || (type_ c =? DRM_MODE_CONNECTOR_VGA)%N.

Definition writeback (c : t) : bool :=
  (type_ c =? DRM_MODE_CONNECTOR_WRITEBACK)%N.

Definition valid_type (c : t) : bool := internal c || external c || writeback c.

Definition kTypesCount : N := 17.

Definition kNames : list string :=
  ["None"; "VGA"; "DVI-I"; "DVI-D"; "DVI-A"; "Composite";
   "SVIDEO"; "LVDS"; "Component"; "DIN"; "DP"; "HDMI-A";
   "HDMI-B"; "TV"; "eDP"; "Virtual"; "DSI"]%string.

Definition name (c : t) : string :=
  if (type_ c <? kTypesCount)%N
  then (default "None" (kNames !! N.to_nat (type_ c)) +:+ "-" +:+ pretty (type_id_ c))%string
  else "None"%string.

(** [++mode_id_] of the device, a [uint32_t]. *)
Definition next_mode_id (mode_id_ : N) : N := ((mode_id_ + 1) mod 2 ^ 32)%N.

(** The loop of [UpdateModes] over the modes the kernel reports: a mode
    the connector already has keeps its id, a new one draws the next id
    of the device; the first mode of preferred type is remembered. *)
Fixpoint update_modes_loop (old_modes : list DrmMode.t)
    (kernel_modes : list drmModeModeInfo) (new_modes : list DrmMode.t)
    (mode_id_ : N) (preferred : option N) : list DrmMode.t * N * option N :=
  match kernel_modes with
  | [] => (new_modes, mode_id_, preferred)
  | info :: rest =>
      let '(mode, mode_id_) :=
        match list_find (λ mode, DrmMode.eq_info mode info) old_modes with
        | Some (_, mode) => (mode, mode_id_)
        | None =>
            let id := next_mode_id mode_id_ in
            (DrmMode.set_id id (DrmMode.of_info info), id)
        end in
      let preferred :=
        match preferred with
        | Some _ => preferred
        | None =>
            if negb (N.land (DrmMode.type mode) DRM_MODE_TYPE_PREFERRED =? 0)%N
            then Some (DrmMode.id mode) else None
        end in
      update_modes_loop old_modes rest (new_modes ++ [mode]) mode_id_ preferred
  end.

(** [UpdateModes], given the kernel's answer to [drmModeGetConnector] for
    this connector and the device's [mode_id_]: the status, the connector
    and the new [mode_id_]. *)
Definition UpdateModes (reply : option drmModeConnector) (mode_id_ : N) (c : t)
    : Z * t * N :=
  match reply with
  | None => (- ENODEV, c, mode_id_)
  | Some k =>
      let '(new_modes, mode_id_, preferred) :=
        update_modes_loop (modes_ c) (modes k) [] mode_id_ None in
      let preferred_mode_id :=
        match preferred, new_modes with
        | Some id, _ => id
        | None, mode :: _ => DrmMode.id mode
        | None, [] => preferred_mode_id_ c
        end in
      (0,
       mk (id_ c) (encoder_ c) (display_ c) (type_ c) (type_id_ c) (connection k)
          (mm_width_ c) (mm_height_ c) (possible_encoders_ c)
          new_modes preferred_mode_id,
       mode_id_)
  end.

End DrmConnector.

(** ** DrmDevice *)

Module DrmDevice.

Record t := mk {
  connectors_ : list DrmConnector.t;
  writeback_connectors_ : list DrmConnector.t;
  encoders_ : list DrmEncoder.t;
  crtcs_ : list DrmCrtc.t;
  planes_ : list DrmPlane.t;
  displays_ : gmap Z Z;                 (* std::map<int, int> *)
  mode_id_ : N
}.

Definition with_connectors (l : list DrmConnector.t) (d : t) : t :=
  mk l (writeback_connectors_ d) (encoders_ d) (crtcs_ d) (planes_ d) (displays_ d)
     (mode_id_ d).
Definition with_writeback_connectors (l : list DrmConnector.t) (d : t) : t :=
  mk (connectors_ d) l (encoders_ d) (crtcs_ d) (planes_ d) (displays_ d)
     (mode_id_ d).
Definition with_encoders (l : list DrmEncoder.t) (d : t) : t :=
  mk (connectors_ d) (writeback_connectors_ d) l (crtcs_ d) (planes_ d) (displays_ d)
     (mode_id_ d).
Definition with_crtcs (l : list DrmCrtc.t) (d : t) : t :=
  mk (connectors_ d) (writeback_connectors_ d) (encoders_ d) l (planes_ d) (displays_ d)
     (mode_id_ d).
Definition with_planes (l : list DrmPlane.t) (d : t) : t :=
  mk (connectors_ d) (writeback_connectors_ d) (encoders_ d) (crtcs_ d) l (displays_ d)
     (mode_id_ d).
Definition with_displays (m : gmap Z Z) (d : t) : t :=
  mk (connectors_ d) (writeback_connectors_ d) (encoders_ d) (crtcs_ d) (planes_ d) m
     (mode_id_ d).
Definition with_mode_id (n : N) (d : t) : t :=
  mk (connectors_ d) (writeback_connectors_ d) (encoders_ d) (crtcs_ d) (planes_ d)
     (displays_ d) n.

(** *** Accessors by display *)

Definition HandlesDisplay (d : t) (display : Z) : bool :=
  bool_decide (is_Some (displays_ d !! display)).

Definition GetConnectorForDisplay (d : t) (display : Z) : option nat :=
  fst <$> list_find (λ conn, DrmConnector.display conn = display) (connectors_ d).

Definition GetWritebackConnectorForDisplay (d : t) (display : Z) : option nat :=
  fst <$> list_find (λ conn, DrmConnector.display conn = display)
                    (writeback_connectors_ d).

Definition GetCrtcForDisplay (d : t) (display : Z) : option DrmCrtcPtr :=
  fst <$> list_find (λ crtc, DrmCrtc.display crtc = display) (crtcs_ d).

(** *** Primary display candidates *)

(** A [DrmConnector *] of the candidate vector, kept with the connector
    it points to: nothing is written through these pointers before the
    vector is returned. *)
Abbreviation Candidate := (nat * DrmConnector.t)%type (only parsing).

(** [std::iter_swap]; either iterator at [end()] cannot be dereferenced. *)
Definition iter_swap {A} (it curr : nat) (l : list A) : option (list A) :=
  x ← l !! it; y ← l !! curr; Some (<[it:=y]> (<[curr:=x]> l)).

(** The loop that moves the connectors named in the preference list to
    the front, in the order of the list. *)
Fixpoint place_ordered (display_order : list string)
    (primary_candidates : list Candidate) (curr_connector : nat)
    : option (list Candidate * nat) :=
  match display_order with
  | [] => Some (primary_candidates, curr_connector)
  | display_name :: rest =>
      match list_find (λ conn : Candidate, DrmConnector.name conn.2 = display_name)
                      primary_candidates with
      | Some (it, _) =>
          swapped ← iter_swap it curr_connector primary_candidates;
          place_ordered rest swapped (S curr_connector)
      | None => place_ordered rest primary_candidates curr_connector
      end
  end.

Section Candidates.
(** [std::partition] fixes no order inside the two groups; any
    implementation the library provides is taken here. *)
Variable std_partition : (Candidate → bool) → list Candidate → list Candidate.

(** [display_order] is what [read_primary_display_order_prop] returns:
    the comma-separated, trimmed entries of the property, "..." by
    default.  [back()] of an empty vector is not defined. *)
Definition make_primary_display_candidates
    (connectors : list DrmConnector.t) (display_order : list string)
    : option (list Candidate) :=
  let primary_candidates :=
    filter (λ conn : Candidate, DrmConnector.state conn.2 = DRM_MODE_CONNECTED)
           (imap pair connectors) in
  back ← last display_order;
  let use_other := bool_decide (back = "..."%string) in
  '(primary_candidates, curr_connector) ←
    place_ordered display_order primary_candidates 0%nat;
  if use_other
  then Some (take curr_connector primary_candidates ++
             std_partition (λ conn, DrmConnector.internal conn.2)
                           (drop curr_connector primary_candidates))
  else Some (take curr_connector primary_candidates).
End Candidates.

(** *** Binding encoders and CRTCs *)

(** [crtc->set_display(display); enc->set_crtc(crtc)] *)
Definition bind_crtc (display : Z) (enc : DrmEncoderPtr) (crtc : DrmCrtcPtr)
    (d : t) : t :=
  let d1 := with_crtcs (alter (DrmCrtc.set_display display) crtc (crtcs_ d)) d in
  with_encoders (alter (DrmEncoder.set_crtc crtc display) enc (encoders_ d1)) d1.

(** The loop over [enc->possible_crtcs()]: the first CRTC, other than
    the current one, that can bind the display.  The outer [option] is
    the validity of the pointers met on the way. *)
Fixpoint first_possible_crtc (crtcs : list DrmCrtc.t) (display : Z)
    (current : option DrmCrtcPtr) (possible_crtcs : list DrmCrtcPtr)
    : option (option DrmCrtcPtr) :=
  match possible_crtcs with
  | [] => Some None
  | crtc :: rest =>
      if decide (Some crtc = current)
      then first_possible_crtc crtcs display current rest
      else
        c ← crtcs !! crtc;
        if DrmCrtc.can_bind c display then Some (Some crtc)
        else first_possible_crtc crtcs display current rest
  end.

Definition TryEncoderForDisplay (display : Z) (enc : DrmEncoderPtr) (d : t)
    : option (Z * t) :=
  e ← encoders_ d !! enc;
  current_ok ←
    match DrmEncoder.crtc e with
    | None => Some None
    | Some crtc =>
        c ← crtcs_ d !! crtc;
        Some (if DrmCrtc.can_bind c display then Some crtc else None)
    end;
  match current_ok with
  | Some crtc => Some (0, bind_crtc display enc crtc d)
  | None =>
      found ← first_possible_crtc (crtcs_ d) display (DrmEncoder.crtc e)
                                  (DrmEncoder.possible_crtcs e);
      match found with
      | Some crtc => Some (0, bind_crtc display enc crtc d)
      | None => Some (- EAGAIN, d)
      end
  end.

(** The loop of [CreateDisplayPipe] over the possible encoders. *)
Fixpoint try_possible_encoders (display : Z) (connector : nat)
    (possible_encoders : list DrmEncoderPtr) (d : t) : option (Z * t) :=
  match possible_encoders with
  | [] => Some (- ENODEV, d)
  | enc :: rest =>
      '(ret, d') ← TryEncoderForDisplay display enc d;
      if ret =? 0
      then Some (0, with_connectors
                      (alter (DrmConnector.set_encoder enc) connector
                             (connectors_ d')) d')
      else if negb (ret =? - EAGAIN) then Some (ret, d')
      else try_possible_encoders display connector rest d'
  end.

Definition CreateDisplayPipe (connector : nat) (d : t) : option (Z * t) :=
  conn ← connectors_ d !! connector;
  let display := DrmConnector.display conn in
  match DrmConnector.encoder conn with
  | Some enc =>
      '(ret, d') ← TryEncoderForDisplay display enc d;
      if ret =? 0 then Some (0, d')
      else if negb (ret =? - EAGAIN) then Some (ret, d')
      else try_possible_encoders display connector
                                 (DrmConnector.possible_encoders conn) d'
  | None =>
      try_possible_encoders display connector
                            (DrmConnector.possible_encoders conn) d
  end.

(** *** Writeback *)

(** The innermost loop of [AttachWriteback] over
    [writeback_enc->possible_crtcs()]: true when the bind is made. *)
Fixpoint writeback_crtc_loop (display_crtc : DrmCrtcPtr) (display : Z)
    (writeback_enc : DrmEncoder.t) (possible_crtcs : list DrmCrtcPtr) : bool :=
  match possible_crtcs with
  | [] => false
  | possible_crtc :: rest =>
      if negb (bool_decide (possible_crtc = display_crtc))
      then writeback_crtc_loop display_crtc display writeback_enc rest
      else if DrmEncoder.can_bind writeback_enc display then true
      else writeback_crtc_loop display_crtc display writeback_enc rest
  end.

(** The loop over one writeback connector's possible encoders: the
    encoder that gets bound, if any. *)
Fixpoint writeback_enc_loop (encoders : list DrmEncoder.t)
    (display_crtc : DrmCrtcPtr) (display : Z)
    (possible_encoders : list DrmEncoderPtr) : option (option DrmEncoderPtr) :=
  match possible_encoders with
  | [] => Some None
  | writeback_enc :: rest =>
      e ← encoders !! writeback_enc;
      if writeback_crtc_loop display_crtc display e (DrmEncoder.possible_crtcs e)
      then Some (Some writeback_enc)
      else writeback_enc_loop encoders display_crtc display rest
  end.

(** The outer loop over [writeback_connectors_], from index [i] on: the
    connector and the encoder that get bound, if any. *)
Fixpoint writeback_conn_loop (encoders : list DrmEncoder.t)
    (display_crtc : DrmCrtcPtr) (display : Z)
    (i : nat) (writeback_connectors : list DrmConnector.t)
    : option (option (nat * DrmEncoderPtr)) :=
  match writeback_connectors with
  | [] => Some None
  | writeback_conn :: rest =>
      if 0 <=? DrmConnector.display writeback_conn
      then writeback_conn_loop encoders display_crtc display (S i) rest
      else
        found ← writeback_enc_loop encoders display_crtc display
                  (DrmConnector.possible_encoders writeback_conn);
        match found with
        | Some writeback_enc => Some (Some (i, writeback_enc))
        | None => writeback_conn_loop encoders display_crtc display (S i) rest
        end
  end.

Section Kernel.
(** What the kernel reports for a connector, by id; nothing when the call
    fails. *)
Variable drmModeGetConnector : N → option drmModeConnector.

(** The four statements of the successful bind; the status of
    [UpdateModes] is dropped.  [writeback_conn] is the index the loop over
    [writeback_connectors_] has reached. *)
Definition bind_writeback (display_crtc : DrmCrtcPtr) (display : Z)
    (writeback_conn : nat) (writeback_enc : DrmEncoderPtr) (d : t) : t :=
  let d1 :=
    with_encoders (alter (DrmEncoder.set_crtc display_crtc display)
                         writeback_enc (encoders_ d)) d in
  match writeback_connectors_ d1 !! writeback_conn with
  | None => d1
  | Some conn =>
      let '(_, conn', mode_id) :=
        DrmConnector.UpdateModes
          (drmModeGetConnector (DrmConnector.id_ conn)) (mode_id_ d1)
          (DrmConnector.set_display display
             (DrmConnector.set_encoder writeback_enc conn)) in
      with_mode_id mode_id
        (with_writeback_connectors
           (<[writeback_conn := conn']> (writeback_connectors_ d1)) d1)
  end.

(** [display_conn] is an index into [connectors_].  A connector without
    encoder, or an encoder without CRTC, is a null dereference. *)
Definition AttachWriteback (display_conn : nat) (d : t) : option (Z * t) :=
  conn ← connectors_ d !! display_conn;
  enc ← DrmConnector.encoder conn;
  e ← encoders_ d !! enc;
  display_crtc ← DrmEncoder.crtc e;
  c ← crtcs_ d !! display_crtc;
  let display := DrmCrtc.display c in
  match GetWritebackConnectorForDisplay d display with
  | Some _ => Some (- EINVAL, d)
  | None =>
      found ← writeback_conn_loop (encoders_ d) display_crtc display 0%nat
                (writeback_connectors_ d);
      match found with
      | Some (writeback_conn, writeback_enc) =>
          Some (0, bind_writeback display_crtc display writeback_conn
                                  writeback_enc d)
      | None => Some (- EINVAL, d)
      end
  end.

(** *** Init, from the primary display selection on *)

(** What the kernel calls of the second half of [Init] answer. *)
Record KernelReplies := mkReplies {
  k_ret : Z;         (* [ret] as the CRTC, encoder and connector loops left it *)
  k_planes : option (Z * list DrmPlane.t);
                     (* no plane resources, or the status of the plane
                        loop and the planes it collected *)
  k_event_listener : Z   (* event_listener_.Init() *)
}.

(** Lines 267-279: the first candidate becomes display [num_displays]. *)
Definition assign_primary (primary_candidates : list Candidate)
    (num_displays : Z) (found_primary : bool) (d : t) : t * Z * bool :=
  match primary_candidates with
  | (conn, _) :: _ =>
      if negb found_primary
      then (with_displays (<[num_displays := num_displays]> (displays_ d))
              (with_connectors
                 (alter (DrmConnector.set_display num_displays) conn
                        (connectors_ d)) d),
            num_displays + 1, true)
      else (d, num_displays, found_primary)
  | [] => (d, num_displays, found_primary)
  end.

(** Lines 283-296: the loop over [connectors_]. *)
Fixpoint assign_displays (connectors : list DrmConnector.t)
    (num_displays : Z) (found_primary : bool) (displays : gmap Z Z)
    : list DrmConnector.t * Z * bool * gmap Z Z :=
  match connectors with
  | [] => ([], num_displays, found_primary, displays)
  | conn :: rest =>
      if DrmConnector.external conn || DrmConnector.internal conn
      then
        if negb found_primary
        then
          let '(r, n, f, m) :=
            assign_displays rest (num_displays + 1) true
                            (<[num_displays := num_displays]> displays) in
          (DrmConnector.set_display num_displays conn :: r, n, f, m)
        else if DrmConnector.display conn <? 0
        then
          let '(r, n, f, m) :=
            assign_displays rest (num_displays + 1) found_primary
                            (<[num_displays := num_displays]> displays) in
          (DrmConnector.set_display num_displays conn :: r, n, f, m)
        else
          let '(r, n, f, m) :=
            assign_displays rest num_displays found_primary displays in
          (conn :: r, n, f, m)
      else
        let '(r, n, f, m) :=
          assign_displays rest num_displays found_primary displays in
        (conn :: r, n, f, m)
  end.

(** Lines 335-344: a pipe, then a writeback attachment, per connector;
    the result of the attachment is only logged. *)
Fixpoint create_pipes (conns : list nat) (d : t) : option (Z * t) :=
  match conns with
  | [] => Some (0, d)
  | conn :: rest =>
      '(ret, d1) ← CreateDisplayPipe conn d;
      if negb (ret =? 0) then Some (ret, d1)
      else
        '(_, d2) ← AttachWriteback conn d1;
        create_pipes rest d2
  end.

Variable std_partition : (Candidate → bool) → list Candidate → list Candidate.

(** Lines 263-296 of [Init]: [d] is the device as the enumeration of
    CRTCs, encoders and connectors left it. *)
Definition Init_assign (display_order : list string) (num_displays : Z)
    (d : t) : option t :=
  primary_candidates ←
    make_primary_display_candidates std_partition (connectors_ d) display_order;
  let found_primary := negb (num_displays =? 0) in
  let '(d1, num_displays, found_primary) :=
    assign_primary primary_candidates num_displays found_primary d in
  let '(conns, _, _, displays) :=
    assign_displays (connectors_ d1) num_displays found_primary (displays_ d1) in
  Some (with_displays displays (with_connectors conns d1)).

(** [Init] from line 263 to its end: the status, the number of
    displays reported, and the device. *)
Definition Init (k : KernelReplies) (display_order : list string)
    (num_displays : Z) (d : t) : option (Z * Z * t) :=
  d1 ← Init_assign display_order num_displays d;
  if negb (k_ret k =? 0) then Some (k_ret k, 0, d1)
  else
    match k_planes k with
    | None => Some (- ENOENT, 0, d1)
    | Some (ret, planes) =>
        let d2 := with_planes planes d1 in
        if negb (ret =? 0) then Some (ret, 0, d2)
        else if negb (k_event_listener k =? 0)
        then Some (k_event_listener k, 0, d2)
        else
          '(ret, d3) ← create_pipes (seq 0 (length (connectors_ d2))) d2;
          if negb (ret =? 0) then Some (ret, 0, d3)
          else Some (ret, Z.of_nat (size (displays_ d3)), d3)
    end.
End Kernel.

End DrmDevice.

(** * Vocabulary of the statements *)

Module PlanSpec.
Import DrmDisplayComposition.

(** The planes a list of composition planes refers to, in order, and the
    same without repetition. *)
Definition used_planes (cps : list DrmCompositionPlane.t) : list DrmPlanePtr :=
  omap DrmCompositionPlane.plane cps.

Definition distinct_planes (cps : list DrmCompositionPlane.t) : list DrmPlanePtr :=
  remove_dups (used_planes cps).

(** The pool [Plan] looks into for a plane: primary for a primary plane,
    overlay for any other type. *)
Definition is_primary (planes_ : DrmPlanePtr → DrmPlane.t) (pl : DrmPlanePtr) : Prop :=
  DrmPlane.type (planes_ pl) = DRM_PLANE_TYPE_PRIMARY.

#[global] Instance is_primary_dec planes_ pl : Decision (is_primary planes_ pl).
Proof. unfold is_primary. apply _. Defined.

(** What [Plan] does to one composition plane of the planner: the source
    layers of a plane-backed entry come back sorted, nothing else
    changes. *)
Definition sorted_version (i i' : DrmCompositionPlane.t) : Prop :=
  DrmCompositionPlane.type_ i' = DrmCompositionPlane.type_ i
  ∧ DrmCompositionPlane.plane i' = DrmCompositionPlane.plane i
  ∧ match DrmCompositionPlane.plane i with
    | None => DrmCompositionPlane.source_layers i' = DrmCompositionPlane.source_layers i
    | Some _ =>
        Sorted Nat.le (DrmCompositionPlane.source_layers i')
        ∧ DrmCompositionPlane.source_layers i' ≡ₚ DrmCompositionPlane.source_layers i
    end.

(** Modelled from the spec: Planner.h is not part of the sources.  The
    planner assigns planes of the pools it is given to layers: every plane
    it hands out comes from the pool of its type, and it leaves the pools
    themselves alone (removing the used planes is the work of [Plan]); the
    pools, built from the device's plane list, hold every plane once. *)
Record planner_contract (planes_ : DrmPlanePtr → DrmPlane.t)
    (call : PlannerCall) (r : PlannerResult) : Prop := {
  pools_kept : res_primary r = call_primary call ∧ res_overlay r = call_overlay call;
  pools_nodup : NoDup (call_primary call) ∧ NoDup (call_overlay call);
  planes_from_pools :
    ∀ pl, pl ∈ used_planes (res_planes r) →
      if decide (is_primary planes_ pl) then pl ∈ call_primary call
      else pl ∈ call_overlay call
}.

(** The removal said of every successful call, with no word on the
    planner: each plane the composition planes refer to is gone from the
    pool of its type, and the two pools together are smaller than the
    pools passed in by the number of distinct planes referred to. *)
Definition pools_minus_used (planes_ : DrmPlanePtr → DrmPlane.t)
    (primary_planes overlay_planes : list DrmPlanePtr) (out : PlanOutcome) : Prop :=
  let cps := composition_planes_ (out_comp out) in
  (∀ pl, pl ∈ used_planes cps →
     if decide (is_primary planes_ pl) then pl ∉ out_primary out
     else pl ∉ out_overlay out)
  ∧ (length (out_primary out) + length (out_overlay out)
     + length (distinct_planes cps)
     = length primary_planes + length overlay_planes)%nat.
End PlanSpec.

Module CompositionSpec.
Import DrmDisplayComposition.

(** A setter that validates against [des]: zero exactly when the kind is
    empty or [des], and then the kind is [des]; otherwise [-EINVAL] and
    the same composition. *)
Definition guarded_by (des : DrmCompositionType) (c : t) (res : Z * t) : Prop :=
  (res.1 = 0 ↔ type_ c = DRM_COMPOSITION_TYPE_EMPTY ∨ type_ c = des)
  ∧ (res.1 = 0 → type_ res.2 = des)
  ∧ (res.1 ≠ 0 → res.1 = - EINVAL ∧ res.2 = c).
End CompositionSpec.

Module DeviceSpec.
Import DrmDevice.

(** A CRTC pointer that leads to a CRTC which can bind [display]. *)
Definition crtc_can_bind (d : t) (display : Z) (crtc : DrmCrtcPtr) : Prop :=
  ∃ c, crtcs_ d !! crtc = Some c ∧ DrmCrtc.can_bind c display = true.

(** The pointers an encoder holds lead to CRTCs of the device. *)
Definition encoder_ok (d : t) (enc : DrmEncoderPtr) : Prop :=
  ∃ e, encoders_ d !! enc = Some e
       ∧ (∀ crtc, DrmEncoder.crtc e = Some crtc → is_Some (crtcs_ d !! crtc))
       ∧ Forall (λ crtc, is_Some (crtcs_ d !! crtc)) (DrmEncoder.possible_crtcs e).

(** The pointers a connector holds lead to encoders of the device. *)
Definition connector_ok (d : t) (conn : DrmConnector.t) : Prop :=
  (∀ enc, DrmConnector.encoder conn = Some enc → encoder_ok d enc)
  ∧ Forall (encoder_ok d) (DrmConnector.possible_encoders conn).

(** Validity of the encoders carries over from [d] to [d']. *)
Definition extends (d d' : t) : Prop :=
  ∀ enc, encoder_ok d enc → encoder_ok d' enc.

(** Every pointer reachable from a connector of the device is valid. *)
Definition valid_pointers (d : t) : Prop :=
  Forall (connector_ok d) (connectors_ d)
  ∧ Forall (connector_ok d) (writeback_connectors_ d).

(** The connector has a pipe: an encoder that drives a CRTC. *)
Definition has_pipe (d : t) (display_conn : nat) (display_crtc : DrmCrtcPtr)
    (c : DrmCrtc.t) : Prop :=
  ∃ conn enc e,
    connectors_ d !! display_conn = Some conn
    ∧ DrmConnector.encoder conn = Some enc
    ∧ encoders_ d !! enc = Some e
    ∧ DrmEncoder.crtc e = Some display_crtc
    ∧ crtcs_ d !! display_crtc = Some c.

(** The writeback connectors attached to a display. *)
Definition writebacks_of (d : t) (display : Z) : list DrmConnector.t :=
  filter (λ conn, DrmConnector.display conn = display) (writeback_connectors_ d).

(** No display has two writeback connectors. *)
Definition one_writeback_per_display (d : t) : Prop :=
  ∀ display, 0 ≤ display → (length (writebacks_of d display) ≤ 1)%nat.

(** A connector class that receives a display id in the loop of [Init]. *)
Definition display_class (conn : DrmConnector.t) : bool :=
  DrmConnector.external conn || DrmConnector.internal conn.

(** Consecutive display ids from [next] on for the connectors of
    internal or external class, in order; the others keep theirs. *)
Fixpoint number_displays (connectors : list DrmConnector.t) (next : Z)
    : list DrmConnector.t :=
  match connectors with
  | [] => []
  | conn :: rest =>
      if display_class conn
      then DrmConnector.set_display next conn :: number_displays rest (next + 1)
      else conn :: number_displays rest next
  end.

Definition count_display_class (connectors : list DrmConnector.t) : nat :=
  length (filter (λ conn, Is_true (display_class conn)) connectors).

(** The contract of [std::partition] that the selection relies on: the
    elements are rearranged, none added or lost. *)
Definition partition_contract
    (std_partition : (Candidate → bool) → list Candidate → list Candidate) : Prop :=
  ∀ P l, std_partition P l ≡ₚ l.

(** One admissible [std::partition]: the stable one. *)
Definition stable_partition (P : Candidate → bool) (l : list Candidate)
    : list Candidate :=
  filter (λ x, Is_true (P x)) l ++ filter (λ x, ¬ Is_true (P x)) l.

(** The statement that a preference list without wildcard and without a
    connected match leaves the device without displays. *)
Definition no_display_without_match
    (std_partition : (Candidate → bool) → list Candidate → list Candidate)
    (drmModeGetConnector : N → option drmModeConnector)
    (k : KernelReplies) (display_order : list string) (num_displays : Z)
    (d : t) : Prop :=
  "..."%string ∉ display_order →
  (∀ conn, conn ∈ connectors_ d →
     DrmConnector.state conn = DRM_MODE_CONNECTED →
     DrmConnector.name conn ∉ display_order) →
  ∃ ret d', Init drmModeGetConnector std_partition k display_order num_displays d
            = Some (ret, 0, d')
            ∧ Forall (λ conn, DrmConnector.display conn < 0) (connectors_ d').

(** A candidate points to a connected connector of the device. *)
Definition connected_candidate (connectors : list DrmConnector.t)
    (cand : Candidate) : Prop :=
  connectors !! cand.1 = Some cand.2
  ∧ DrmConnector.state cand.2 = DRM_MODE_CONNECTED.

(** The statement that only connected connectors hold a display id when
    [Init] returns. *)
Definition only_connected_numbered
    (std_partition : (Candidate → bool) → list Candidate → list Candidate)
    (drmModeGetConnector : N → option drmModeConnector)
    (k : KernelReplies) (display_order : list string) (num_displays : Z)
    (d : t) : Prop :=
  ∀ ret n d',
    Init drmModeGetConnector std_partition k display_order num_displays d
    = Some (ret, n, d') →
    Forall (λ conn, 0 ≤ DrmConnector.display conn →
                    DrmConnector.state conn = DRM_MODE_CONNECTED)
           (connectors_ d').

(** Who holds a display id after [Init]: a connector with an id is
    connected or of internal or external class, and every connector of
    internal or external class has one. *)
Definition numbered_by_class (conn : DrmConnector.t) : Prop :=
  (0 ≤ DrmConnector.display conn →
     DrmConnector.state conn = DRM_MODE_CONNECTED ∨ display_class conn = true)
  ∧ (display_class conn = true → 0 ≤ DrmConnector.display conn).

(** The entries [next, next + 1, ...] added to the display table, [n]
    of them. *)
Fixpoint add_displays (n : nat) (next : Z) (displays : gmap Z Z) : gmap Z Z :=
  match n with
  | O => displays
  | S n' => add_displays n' (next + 1) (<[next := next]> displays)
  end.

(** What the pipe set-up never writes in a connector. *)
Definition identity_of (conn : DrmConnector.t) : Z * drmModeConnection * N * N :=
  (DrmConnector.display conn, DrmConnector.state conn,
   DrmConnector.type_ conn, DrmConnector.type_id_ conn).

(** Same display table, and connectors that differ at most in their
    encoder. *)
Definition keeps (d d' : t) : Prop :=
  displays_ d' = displays_ d
  ∧ identity_of <$> connectors_ d' = identity_of <$> connectors_ d.
End DeviceSpec.

(** * Example data *)

Module Examples.
Import DrmDisplayComposition.

Definition layer_rgb : DrmHwcLayer := mkLayer Transform.kIdentity 0xffff kNone 875713112.

Definition plane_of_type (id type : N) : DrmPlane.t :=
  DrmPlane.mk id 1 type [875713112%N] (mkProperty 0) (mkProperty 0) ∅ ∅.

(** Plane 0 is primary, plane 1 overlay, plane 2 a cursor plane. *)
Definition three_planes (pl : DrmPlanePtr) : DrmPlane.t :=
  match pl with
  | 0%nat => plane_of_type 31 DRM_PLANE_TYPE_PRIMARY
  | 1%nat => plane_of_type 32 DRM_PLANE_TYPE_OVERLAY
  | _ => plane_of_type 33 DRM_PLANE_TYPE_CURSOR
  end.

(** Layers 2 and 0 merged on the primary plane, layer 1 on the overlay. *)
Definition planner_two (call : PlannerCall) : PlannerResult :=
  mkResult 0
    [DrmCompositionPlane.mk DrmCompositionPlane.kLayer (Some 0%nat) [2%nat; 0%nat];
     DrmCompositionPlane.mk DrmCompositionPlane.kLayer (Some 1%nat) [1%nat]]
    (call_primary call) (call_overlay call).

(** A planner without usable planes. *)
Definition planner_fail (call : PlannerCall) : PlannerResult :=
  mkResult (- ENODEV) [] (call_primary call) (call_overlay call).

(** A planner that succeeds with a plane of its own: plane 2 on the
    first layer, whatever the pools hold, and the pools left alone. *)
Definition planner_own_plane (call : PlannerCall) : PlannerResult :=
  mkResult 0
    [DrmCompositionPlane.mk DrmCompositionPlane.kLayer (Some 2%nat) [0%nat]]
    (call_primary call) (call_overlay call).

(** A planner that succeeds with plane 0 and empties both pools
    itself. *)
Definition planner_empties_pools (call : PlannerCall) : PlannerResult :=
  mkResult 0
    [DrmCompositionPlane.mk DrmCompositionPlane.kLayer (Some 0%nat) [0%nat]]
    [] [].

Definition frame3 : DrmDisplayComposition.t :=
  (SetLayers [layer_rgb; layer_rgb; layer_rgb] true (new (Some 0%nat))).2.

Definition dpms_off : DrmDisplayComposition.t :=
  (SetDpmsMode 3 (new (Some 0%nat))).2.
End Examples.

Module DeviceExamples.
Import DrmDevice.

Definition connector (id type type_id : N) (state : drmModeConnection)
    (possible_encoders : list DrmEncoderPtr) : DrmConnector.t :=
  DrmConnector.mk id None (-1) type type_id state 0 0 possible_encoders [] 0.

Definition hdmi_unplugged : DrmConnector.t :=
  connector 61 DRM_MODE_CONNECTOR_HDMIA 1 DRM_MODE_DISCONNECTED [0%nat].
Definition edp_panel : DrmConnector.t :=
  connector 62 DRM_MODE_CONNECTOR_eDP 1 DRM_MODE_CONNECTED [1%nat].
Definition writeback_sink : DrmConnector.t :=
  connector 63 DRM_MODE_CONNECTOR_WRITEBACK 1 DRM_MODE_UNKNOWNCONNECTION [2%nat].

Definition encoder (id : N) : DrmEncoder.t :=
  DrmEncoder.mk id None (-1) [0%nat; 1%nat] [].

(** Two CRTCs, three encoders that reach both, an unplugged HDMI port
    enumerated before a connected panel, and one writeback sink; nothing
    bound yet. *)
Definition enumerated (connectors : list DrmConnector.t) : t :=
  mk connectors [writeback_sink]
     [encoder 51; encoder 52; encoder 53]
     [DrmCrtc.mk 41 0 (-1); DrmCrtc.mk 42 1 (-1)]
     [] ∅ 0.

Definition hdmi_then_edp : t := enumerated [hdmi_unplugged; edp_panel].
Definition edp_then_hdmi : t := enumerated [edp_panel; hdmi_unplugged].

(** The kernel answers every later call and reports no planes. *)
Definition kernel_ok : KernelReplies := mkReplies 0 (Some (0, [])) 0.
Definition connection_unknown (id : N) : option drmModeConnector :=
  Some (mkKernelConnector DRM_MODE_UNKNOWNCONNECTION
          [mkModeInfo 1280 720 60 0 0;
           mkModeInfo 1920 1080 60 0 DRM_MODE_TYPE_PREFERRED]).

(** The panel bound by hand to encoder 1 and CRTC 1 as display 0. *)
Definition panel_piped : t :=
  mk [DrmConnector.set_display 0 (DrmConnector.set_encoder 1%nat edp_panel)]
     [writeback_sink]
     [encoder 51; DrmEncoder.set_crtc 1%nat 0 (encoder 52); encoder 53]
     [DrmCrtc.mk 41 0 (-1); DrmCrtc.mk 42 1 0]
     [] {[ 0 := 0 ]} 0.
End DeviceExamples.

(** * Vocabulary of the further properties *)

Module CompositionCalls.
Import DrmDisplayComposition.

(** A call of one of the five mutators of a composition. *)
Inductive Call :=
| CallSetLayers (layers : list DrmHwcLayer) (geometry_changed : bool)
| CallSetDpmsMode (dpms_mode : N)
| CallSetDisplayMode (display_mode : DrmMode.t)
| CallAddPlaneDisable (plane : DrmPlanePtr)
| CallAddPlaneComposition (plane : DrmCompositionPlane.t).

Definition call (op : Call) (c : t) : Z * t :=
  match op with
  | CallSetLayers layers geometry_changed => SetLayers layers geometry_changed c
  | CallSetDpmsMode dpms_mode => SetDpmsMode dpms_mode c
  | CallSetDisplayMode display_mode => SetDisplayMode display_mode c
  | CallAddPlaneDisable plane => AddPlaneDisable plane c
  | CallAddPlaneComposition plane => AddPlaneComposition plane c
  end.

(** The composition after a sequence of calls, whatever they returned. *)
Definition calls (ops : list Call) (c : t) : t :=
  foldl (λ c op, (call op c).2) c ops.

(** Only a frame carries layers, only a modeset a display mode. *)
Definition payload_matches_kind (c : t) : Prop :=
  (type_ c ≠ DRM_COMPOSITION_TYPE_FRAME → layers_ c = [])
  ∧ (type_ c ≠ DRM_COMPOSITION_TYPE_MODESET → display_mode_ c = None).
End CompositionCalls.

Module ModesSpec.

(** A mode whose type has the "preferred" bit. *)
Definition preferred_type (mode : DrmMode.t) : Prop :=
  N.land (DrmMode.type mode) DRM_MODE_TYPE_PREFERRED ≠ 0%N.

#[global] Instance preferred_type_dec mode : Decision (preferred_type mode).
Proof. unfold preferred_type. apply _. Defined.

(** The id of the first mode of preferred type. *)
Definition first_preferred (modes : list DrmMode.t) : option N :=
  (λ r : nat * DrmMode.t, DrmMode.id r.2) <$> list_find preferred_type modes.

(** The connector already has a mode with these timings. *)
Definition known (old_modes : list DrmMode.t) (info : drmModeModeInfo) : Prop :=
  Exists (λ mode, DrmMode.eq_info mode info) old_modes.

#[global] Instance known_dec old_modes info : Decision (known old_modes info).
Proof. unfold known. apply _. Defined.

(** The ids [mode_id + 1, ..., mode_id + n]. *)
Definition fresh_ids (mode_id : N) (n : nat) : list N :=
  (λ i, (mode_id + 1 + N.of_nat i)%N) <$> seq 0 n.
End ModesSpec.

Module PoolExamples.
Import DrmDisplayComposition.

(** A planner that puts its one layer on plane 2. *)
Definition planner_cursor (call : PlannerCall) : PlannerResult :=
  mkResult 0
    [DrmCompositionPlane.mk DrmCompositionPlane.kLayer (Some 2%nat) [0%nat]]
    (call_primary call) (call_overlay call).

Definition frame1 : DrmDisplayComposition.t :=
  (SetLayers [Examples.layer_rgb] true (new (Some 1%nat))).2.
End PoolExamples.

Module PipeSpec.
Import DrmDevice.

(** What may happen to a CRTC: nothing, or, if it was unbound, a
    display. *)
Definition crtc_step (c c' : DrmCrtc.t) : Prop :=
  c' = c ∨ (DrmCrtc.display c = -1 ∧ c' = DrmCrtc.set_display (DrmCrtc.display c') c).

(** The CRTCs of [d'] are those of [d], each as it was or newly bound. *)
Definition crtcs_kept (d d' : t) : Prop :=
  Forall2 crtc_step (crtcs_ d) (crtcs_ d').
End PipeSpec.

Module DisplayIds.
Import DrmDevice.

(** The display ids held by connectors, in enumeration order. *)
Definition ids (connectors : list DrmConnector.t) : list Z :=
  filter (λ display, 0 ≤ display) (DrmConnector.display <$> connectors).

(** The display table lists exactly [first, ..., first + n - 1], each
    mapped to itself. *)
Definition table_is_range (displays : gmap Z Z) (first n : Z) : Prop :=
  ∀ k, displays !! k = if decide (first ≤ k < first + n) then Some k else None.
End DisplayIds.

Module CandidateSpec.
Import DrmDevice.

(** The names of the connected connectors, in enumeration order. *)
Definition connected_names (connectors : list DrmConnector.t) : list string :=
  DrmConnector.name
    <$> filter (λ conn, DrmConnector.state conn = DRM_MODE_CONNECTED) connectors.

(** The entries of the preference list that name a connected connector,
    in the order of the list. *)
Definition named (display_order : list string) (connectors : list DrmConnector.t)
    : list string :=
  filter (λ name, name ∈ connected_names connectors) display_order.

(** The names of a candidate vector. *)
Definition names (cands : list Candidate) : list string :=
  (λ cand : Candidate, DrmConnector.name cand.2) <$> cands.

(** What [std::partition] guarantees: the elements that satisfy the
    predicate come first, the others after them, none added or lost. *)
Definition partitions
    (std_partition : (Candidate → bool) → list Candidate → list Candidate) : Prop :=
  ∀ P l, ∃ inner outer,
    std_partition P l = inner ++ outer
    ∧ Forall (λ x, P x = true) inner ∧ Forall (λ x, P x = false) outer
    ∧ inner ++ outer ≡ₚ l.
End CandidateSpec.

(** * The primary display order property *)

(** The property is read at the head of [make_primary_display_candidates];
    a [std::string] is the list of its characters here. *)
Module DisplayOrderProp.
Import Stdlib.Strings.Ascii.

(** [std::isspace] in the "C" locale: space, tab, line feed, vertical
    tab, form feed and carriage return. *)
Definition isspace (ch : ascii) : bool := Ascii.is_space ch.

(** [trim_left]: erase up to the first character that is not a space. *)
Fixpoint trim_left (str : list ascii) : list ascii :=
  match str with
  | [] => []
  | ch :: rest => if isspace ch then trim_left rest else str
  end.

(** [trim_right]: the same search over the reverse iterators; what lies
    behind the last character that is not a space is erased. *)
Definition trim_right (str : list ascii) : list ascii :=
  reverse (trim_left (reverse str)).

Definition trim (str : list ascii) : list ascii := trim_right (trim_left str).

(** The loop over [std::getline(str, conn_name, ',')].  [conn_name] is
    what the current call has extracted, [extracted] whether it has
    extracted a character at all: a call that meets the end of the stream
    before it extracts one fails, which ends the loop. *)
Fixpoint getline_loop (conn_name : list ascii) (extracted : bool)
    (str : list ascii) : list string :=
  match str with
  | [] => if extracted then [String.string_of_list_ascii (trim conn_name)] else []
  | ch :: rest =>
      if decide (ch = ","%char)
      then String.string_of_list_ascii (trim conn_name) :: getline_loop [] false rest
      else getline_loop (conn_name ++ [ch]) true rest
  end.

(** Modelled from the spec: utils/properties.h is not part of the
    sources; [property_get] gives the value of the property, and the
    default when the property is unset or empty. *)
Definition property_get (value : option string) (default_value : string) : string :=
  match value with
  | Some v => if decide (v = ""%string) then default_value else v
  | None => default_value
  end.

(** [value] is what the system holds for
    vendor.hwc.drm.primary_display_order. *)
Definition read_primary_display_order_prop (value : option string) : list string :=
  let display_order_buf := property_get value "..." in
  getline_loop [] false (String.list_ascii_of_string display_order_buf).

(** An entry as the loop stores it: nothing to trim, no comma. *)
Definition entry (name : string) : Prop :=
  trim (String.list_ascii_of_string name) = String.list_ascii_of_string name
  ∧ ","%char ∉ String.list_ascii_of_string name.
End DisplayOrderProp.

(** * DrmDevice::Init: the enumeration of the kernel's resources *)

(** What the kernel reports: the ids of the objects of the device
    ([drmModeRes], the counts being the lengths), and for each object the
    members that [Init] and the constructors read. *)
Record drmModeRes := mkRes {
  res_crtcs : list N;
  res_encoders : list N;
  res_connectors : list N
}.

Record drmModeCrtc := mkKernelCrtc { crtc_id : N }.

Record drmModeEncoder := mkKernelEncoder {
  encoder_id : N;
  encoder_crtc_id : N;
  encoder_possible_crtcs : N;     (* bit mask over the CRTC pipes *)
  encoder_possible_clones : N     (* bit mask over the encoder indices *)
}.

(** The connector as [MakeDrmModeConnectorUnique] returns it; the same
    kernel record as [drmModeConnector] above, with the members the
    constructor reads. *)
Record drmModeConnectorObject := mkKernelConnectorObject {
  connector_id : N;
  connector_encoder_id : N;
  connector_type : N;
  connector_type_id : N;
  connector_connection : drmModeConnection;
  mmWidth : N;
  mmHeight : N;
  connector_encoders : list N
}.

Module DrmResources.
Import DrmDevice.

(** The constructor of [DrmConnector]: no display, no mode yet. *)
Definition DrmConnector_new (c : drmModeConnectorObject)
    (current_encoder : option DrmEncoderPtr) (possible_encoders : list DrmEncoderPtr)
    : DrmConnector.t :=
  DrmConnector.mk (connector_id c) current_encoder (-1) (connector_type c)
    (connector_type_id c) (connector_connection c) (mmWidth c) (mmHeight c)
    possible_encoders [] 0.

(** Modelled from the spec: DrmCrtc.cpp and DrmEncoder.cpp are not part
    of the sources.  A new CRTC has the kernel's id and the pipe index it
    is given, and no display; a new encoder has the kernel's id, the
    current CRTC and the possible CRTCs it is given, no display and no
    clone; [AddPossibleClone] records one more encoder. *)
Definition DrmCrtc_new (c : drmModeCrtc) (pipe : N) : DrmCrtc.t :=
  DrmCrtc.mk (crtc_id c) pipe (-1).

Definition DrmEncoder_new (e : drmModeEncoder) (current_crtc : option DrmCrtcPtr)
    (possible_crtcs : list DrmCrtcPtr) : DrmEncoder.t :=
  DrmEncoder.mk (encoder_id e) current_crtc (-1) possible_crtcs [].

Definition AddPossibleClone (possible_clone : DrmEncoderPtr) (e : DrmEncoder.t)
    : DrmEncoder.t :=
  DrmEncoder.mk (DrmEncoder.id_ e) (DrmEncoder.crtc_ e) (DrmEncoder.display_ e)
    (DrmEncoder.possible_crtcs_ e) (DrmEncoder.possible_clones_ e ++ [possible_clone]).

Section Kernel.
(** The calls into the kernel, by object id; [None] is a null result.
    [DrmCrtc_Init] is the status of [crtc->Init()], [GetConnectorProperty]
    the status of the property lookup of that name.  Both stand for calls
    that return: [DrmDevice::GetProperty] reads the name of every property
    the kernel lists for the object without checking that
    [drmModeGetProperty] gave one, and a lookup that ends there has no
    status. *)
Variable MakeDrmModeCrtcUnique : N → option drmModeCrtc.
Variable DrmCrtc_Init : N → Z.
Variable MakeDrmModeEncoderUnique : N → option drmModeEncoder.
Variable MakeDrmModeConnectorUnique : N → option drmModeConnectorObject.
Variable GetConnectorProperty : N → string → Z.

(** [DrmConnector::Init]; the result of [UpdateEdidProperty] is
    dropped. *)
Definition DrmConnector_Init (conn : DrmConnector.t) : Z :=
  let ret := GetConnectorProperty (DrmConnector.id_ conn) "DPMS" in
  if negb (ret =? 0) then ret
  else
    let ret := GetConnectorProperty (DrmConnector.id_ conn) "CRTC_ID" in
    if negb (ret =? 0) then ret
    else if DrmConnector.writeback conn
    then
      let ret := GetConnectorProperty (DrmConnector.id_ conn)
                                      "WRITEBACK_PIXEL_FORMATS" in
      if negb (ret =? 0) then ret
      else
        let ret := GetConnectorProperty (DrmConnector.id_ conn) "WRITEBACK_FB_ID" in
        if negb (ret =? 0) then ret
        else
          let ret := GetConnectorProperty (DrmConnector.id_ conn)
                                          "WRITEBACK_OUT_FENCE_PTR" in
          if negb (ret =? 0) then ret else 0
    else 0.

(** Lines 179-195: the loop over [res->crtcs], [i] being the index. *)
Fixpoint crtc_loop (crtc_ids : list N) (i : N) (crtcs_ : list DrmCrtc.t)
    : Z * list DrmCrtc.t :=
  match crtc_ids with
  | [] => (0, crtcs_)
  | id :: rest =>
      match MakeDrmModeCrtcUnique id with
      | None => (- ENODEV, crtcs_)
      | Some c =>
          let crtc := DrmCrtc_new c i in
          let ret := DrmCrtc_Init (DrmCrtc.id_ crtc) in
          if negb (ret =? 0) then (ret, crtcs_)
          else crtc_loop rest (i + 1) (crtcs_ ++ [crtc])
      end
  end.

(** Lines 208-214: the loop over [crtcs_] for one encoder, [crtc] being
    the pointer to the CRTC at the head of the rest of the list. *)
Fixpoint crtcs_for_encoder (e : drmModeEncoder) (crtcs : list DrmCrtc.t)
    (crtc : DrmCrtcPtr) (possible_crtcs : list DrmCrtcPtr)
    (current_crtc : option DrmCrtcPtr) : list DrmCrtcPtr * option DrmCrtcPtr :=
  match crtcs with
  | [] => (possible_crtcs, current_crtc)
  | c :: rest =>
      let possible_crtcs :=
        if negb (N.land (N.shiftl 1 (DrmCrtc.pipe_ c)) (encoder_possible_crtcs e) =? 0)%N
        then possible_crtcs ++ [crtc] else possible_crtcs in
      let current_crtc :=
        if (DrmCrtc.id_ c =? encoder_crtc_id e)%N then Some crtc else current_crtc in
      crtcs_for_encoder e rest (S crtc) possible_crtcs current_crtc
  end.

(** Lines 198-221: the loop over [res->encoders]. *)
Fixpoint encoder_loop (encoder_ids : list N) (crtcs_ : list DrmCrtc.t)
    (encoders_ : list DrmEncoder.t) (possible_clones : list N)
    : Z * list DrmEncoder.t * list N :=
  match encoder_ids with
  | [] => (0, encoders_, possible_clones)
  | id :: rest =>
      match MakeDrmModeEncoderUnique id with
      | None => (- ENODEV, encoders_, possible_clones)
      | Some e =>
          let '(possible_crtcs, current_crtc) :=
            crtcs_for_encoder e crtcs_ 0%nat [] None in
          let enc := DrmEncoder_new e current_crtc possible_crtcs in
          encoder_loop rest crtcs_ (encoders_ ++ [enc])
                       (possible_clones ++ [encoder_possible_clones e])
      end
  end.

(** Lines 223-227: encoder [i] can clone encoder [j] when bit [j] of its
    mask is set. *)
Definition clone_loop (encoders_ : list DrmEncoder.t) (possible_clones : list N)
    : list DrmEncoder.t :=
  imap (λ i enc,
          foldl (λ enc j,
                   if negb (N.land (default 0%N (possible_clones !! i))
                                   (N.shiftl 1 (N.of_nat j)) =? 0)%N
                   then AddPossibleClone j enc else enc)
                enc (seq 0 (length encoders_)))
       encoders_.

(** Lines 240-245: the loop over [encoders_] for one entry of
    [c->encoders]. *)
Fixpoint encoders_for_entry (c : drmModeConnectorObject) (entry : N)
    (encoders : list DrmEncoder.t) (encoder : DrmEncoderPtr)
    (possible_encoders : list DrmEncoderPtr) (current_encoder : option DrmEncoderPtr)
    : list DrmEncoderPtr * option DrmEncoderPtr :=
  match encoders with
  | [] => (possible_encoders, current_encoder)
  | e :: rest =>
      let possible_encoders :=
        if (DrmEncoder.id_ e =? entry)%N then possible_encoders ++ [encoder]
        else possible_encoders in
      let current_encoder :=
        if (DrmEncoder.id_ e =? connector_encoder_id c)%N then Some encoder
        else current_encoder in
      encoders_for_entry c entry rest (S encoder) possible_encoders current_encoder
  end.

(** Lines 239-246: the loop over [c->encoders]. *)
Fixpoint encoders_for_connector (c : drmModeConnectorObject) (entries : list N)
    (encoders_ : list DrmEncoder.t)
    (possible_encoders : list DrmEncoderPtr) (current_encoder : option DrmEncoderPtr)
    : list DrmEncoderPtr * option DrmEncoderPtr :=
  match entries with
  | [] => (possible_encoders, current_encoder)
  | entry :: rest =>
      let '(possible_encoders, current_encoder) :=
        encoders_for_entry c entry encoders_ 0%nat possible_encoders current_encoder in
      encoders_for_connector c rest encoders_ possible_encoders current_encoder
  end.

(** Lines 229-261: the loop over [res->connectors]. *)
Fixpoint connector_loop (connector_ids : list N) (encoders_ : list DrmEncoder.t)
    (connectors_ writeback_connectors_ : list DrmConnector.t)
    : Z * list DrmConnector.t * list DrmConnector.t :=
  match connector_ids with
  | [] => (0, connectors_, writeback_connectors_)
  | id :: rest =>
      match MakeDrmModeConnectorUnique id with
      | None => (- ENODEV, connectors_, writeback_connectors_)
      | Some c =>
          let '(possible_encoders, current_encoder) :=
            encoders_for_connector c (connector_encoders c) encoders_ [] None in
          let conn := DrmConnector_new c current_encoder possible_encoders in
          let ret := DrmConnector_Init conn in
          if negb (ret =? 0) then (ret, connectors_, writeback_connectors_)
          else if DrmConnector.writeback conn
          then connector_loop rest encoders_ connectors_
                              (writeback_connectors_ ++ [conn])
          else connector_loop rest encoders_ (connectors_ ++ [conn])
                              writeback_connectors_
      end
  end.

(** Lines 177-261 of [Init], on the members of a new [DrmDevice]: the
    status the three loops leave in [ret], and the device. *)
Definition Init_resources (res : drmModeRes) : Z * t :=
  let '(ret, crtcs_) := crtc_loop (res_crtcs res) 0 [] in
  let '(ret, encoders_, possible_clones) :=
    if ret =? 0 then encoder_loop (res_encoders res) crtcs_ [] []
    else (ret, [], []) in
  let encoders_ := clone_loop encoders_ possible_clones in
  let '(ret, connectors_, writeback_connectors_) :=
    if ret =? 0 then connector_loop (res_connectors res) encoders_ [] []
    else (ret, [], []) in
  (ret, mk connectors_ writeback_connectors_ encoders_ crtcs_ [] ∅ 0).

(** [Init] from line 177 to its end: the enumeration, then the
    assignment of displays and the pipes; the catch-all of line 299 sees
    the status of the enumeration. *)
Definition Init_from_resources
    (drmModeGetConnector : N → option drmModeConnector)
    (std_partition : (Candidate → bool) → list Candidate → list Candidate)
    (res : drmModeRes) (planes : option (Z * list DrmPlane.t)) (event_listener : Z)
    (display_order : list string) (num_displays : Z) : option (Z * Z * t) :=
  let '(ret, d) := Init_resources res in
  Init drmModeGetConnector std_partition (mkReplies ret planes event_listener)
       display_order num_displays d.
End Kernel.
End DrmResources.

Module ResourcesSpec.
Import DrmDevice.

(** The pointers of an encoder lie within the first [n] CRTCs. *)
Definition encoder_within (n : nat) (e : DrmEncoder.t) : Prop :=
  (∀ crtc, DrmEncoder.crtc e = Some crtc → (crtc < n)%nat)
  ∧ Forall (λ crtc, (crtc < n)%nat) (DrmEncoder.possible_crtcs e).

(** The pointers of a connector lie within the first [m] encoders. *)
Definition connector_within (m : nat) (conn : DrmConnector.t) : Prop :=
  (∀ enc, DrmConnector.encoder conn = Some enc → (enc < m)%nat)
  ∧ Forall (λ enc, (enc < m)%nat) (DrmConnector.possible_encoders conn).

(** A device as the enumeration leaves it: nothing bound, no display. *)
Definition unbound (d : t) : Prop :=
  Forall (λ conn, DrmConnector.display conn = -1) (connectors_ d)
  ∧ Forall (λ conn, DrmConnector.display conn = -1) (writeback_connectors_ d)
  ∧ Forall (λ e, DrmEncoder.display_ e = -1) (encoders_ d)
  ∧ Forall (λ c, DrmCrtc.display c = -1) (crtcs_ d)
  ∧ displays_ d = ∅.
End ResourcesSpec.

Module ResourceExamples.

(** A kernel with two CRTCs, two encoders that reach both CRTCs, an
    unplugged HDMI port on the first encoder, a connected panel and a
    writeback connector on the second. *)
Definition resources : drmModeRes := mkRes [41; 42]%N [51; 52]%N [61; 62; 63]%N.

Definition get_crtc (id : N) : option drmModeCrtc := Some (mkKernelCrtc id).

Definition get_encoder (id : N) : option drmModeEncoder :=
  Some (mkKernelEncoder id 0 3 0).

Definition get_connector (id : N) : option drmModeConnectorObject :=
  if (id =? 61)%N
  then Some (mkKernelConnectorObject 61 0 DRM_MODE_CONNECTOR_HDMIA 1
               DRM_MODE_DISCONNECTED 0 0 [51%N])
  else if (id =? 62)%N
  then Some (mkKernelConnectorObject 62 0 DRM_MODE_CONNECTOR_eDP 1
               DRM_MODE_CONNECTED 0 0 [52%N])
  else Some (mkKernelConnectorObject id 0 DRM_MODE_CONNECTOR_WRITEBACK 1
               DRM_MODE_UNKNOWNCONNECTION 0 0 [52%N]).

Definition status_ok (id : N) : Z := 0.
Definition property_ok (id : N) (name : string) : Z := 0.

(** The same kernel, whose second encoder cannot be fetched. *)
Definition get_encoder_fails (id : N) : option drmModeEncoder :=
  if (id =? 52)%N then None else get_encoder id.
End ResourceExamples.

(** * ResourceManager *)

Module ResourceManager.
Import Stdlib.Strings.Ascii.

Record t := mk {
  num_displays_ : Z;
  drms_ : list DrmDevice.t
}.

(** The constructor: no display, no device. *)
Definition new : t := mk 0 [].

Definition getDisplayCount (rm : t) : Z := num_displays_ rm.

(** [GetDrmDevice]: the first device that handles the display. *)
Definition GetDrmDevice (rm : t) (display : Z) : option nat :=
  fst <$> list_find (λ drm, DrmDevice.HandlesDisplay drm display = true) (drms_ rm).

Section Devices.
(** [drm->Init(path, num_displays)] on a new [DrmDevice]: the tuple it
    returns, and the device.  [stat] is true when the path exists;
    [BufferInfoGetter_GetInstance] is true when an instance is there. *)
Variable DrmDevice_Init : string → Z → Z * Z * DrmDevice.t.
Variable stat : string → bool.
Variable IsKMSDev : string → bool.
Variable BufferInfoGetter_GetInstance : bool.

Definition AddDrmDevice (path : string) (rm : t) : Z * t :=
  let '(ret, displays_added, drm) := DrmDevice_Init path (num_displays_ rm) in
  (ret, mk (num_displays_ rm + displays_added) (drms_ rm ++ [drm])).

(** The loop over the device nodes [path_pattern ++ idx]; it has no
    bound of its own, [fuel] bounds the passes here. *)
Fixpoint device_loop (fuel : nat) (path_pattern : string) (idx : nat) (rm : t)
    : option (Z * t) :=
  match fuel with
  | O => None
  | S fuel =>
      let path := (path_pattern +:+ pretty idx)%string in
      if negb (stat path) then Some (0, rm)
      else if IsKMSDev path
      then
        let '(ret, rm) := AddDrmDevice path rm in
        if negb (ret =? 0) then Some (ret, rm)
        else device_loop fuel path_pattern (S idx) rm
      else device_loop fuel path_pattern (S idx) rm
  end.

(** [Init]; [value] is what the system holds for vendor.hwc.drm.device.
    The flag [scale_with_gpu_] is left out. *)
Definition Init (fuel : nat) (value : option string) (rm : t) : option (Z * t) :=
  let path_pattern :=
    String.list_ascii_of_string
      (DisplayOrderProp.property_get value "/dev/dri/card%") in
  '(ret, rm) ←
    (if negb (bool_decide (last path_pattern = Some "%"%char))
     then Some (AddDrmDevice (String.string_of_list_ascii path_pattern) rm)
     else device_loop fuel
            (String.string_of_list_ascii
               (take (length path_pattern - 1) path_pattern)) 0%nat rm);
  if num_displays_ rm =? 0
  then Some (if negb (ret =? 0) then - EINVAL else ret, rm)
  else if negb BufferInfoGetter_GetInstance then Some (- EINVAL, rm)
  else Some (0, rm).
End Devices.
End ResourceManager.

Module ResourceManagerSpec.
Import ResourceManager.

(** The manager finds a device exactly for the displays it counts. *)
Definition serves_its_displays (rm : t) : Prop :=
  0 ≤ num_displays_ rm
  ∧ ∀ display, is_Some (GetDrmDevice rm display) ↔ 0 ≤ display < num_displays_ rm.

(** What a successful [DrmDevice::Init] gives back: the device handles
    the displays it has added, and no other. *)
Definition handles_what_it_added (num_displays : Z) (r : Z * Z * DrmDevice.t) : Prop :=
  0 ≤ r.1.2
  ∧ ∀ display, DrmDevice.HandlesDisplay r.2 display = true
               ↔ num_displays ≤ display < num_displays + r.1.2.
End ResourceManagerSpec.

Module ManagerExamples.

(** A device with one display, the next free id. *)
Definition one_display (path : string) (num_displays : Z) : Z * Z * DrmDevice.t :=
  (0, 1, DrmDevice.mk [] [] [] [] [] {[ num_displays := num_displays ]} 0).

(** A device whose initialisation fails after it has numbered a
    display. *)
Definition fails_late (path : string) (num_displays : Z) : Z * Z * DrmDevice.t :=
  (- ENODEV, 0, DrmDevice.mk [] [] [] [] [] {[ num_displays := num_displays ]} 0).

(** Two device nodes, card0 and card1. *)
Definition two_nodes (path : string) : bool :=
  bool_decide (path = "/dev/dri/card0"%string)
  || bool_decide (path = "/dev/dri/card1"%string).

Definition no_node (path : string) : bool := false.
Definition every_node_is_kms (path : string) : bool := true.
End ManagerExamples.

(** * DrmPlane::Init and the plane loop of DrmDevice::Init *)

Definition ENOTSUP : Z := 95.

(** A plane as the kernel reports it ([drmModePlane]). *)
Record drmModePlane := mkKernelPlane {
  plane_id : N;
  plane_possible_crtcs : N;
  plane_formats : list N
}.

Module DrmPlaneInit.

(** The constructor: id, CRTC mask and formats from the kernel; no type,
    no property and no enum mapping yet. *)
Definition new (p : drmModePlane) : DrmPlane.t :=
  DrmPlane.mk (plane_id p) (plane_possible_crtcs p) 0 (plane_formats p)
    (mkProperty 0) (mkProperty 0) ∅ ∅.

Definition with_type (type : N) (p : DrmPlane.t) : DrmPlane.t :=
  DrmPlane.mk (DrmPlane.id_ p) (DrmPlane.possible_crtc_mask_ p) type
    (DrmPlane.formats_ p) (DrmPlane.rotation_property_ p)
    (DrmPlane.alpha_property_ p) (DrmPlane.transform_enum_map_ p)
    (DrmPlane.blending_enum_map_ p).

Definition with_rotation (property : DrmProperty) (map : gmap N N) (p : DrmPlane.t)
    : DrmPlane.t :=
  DrmPlane.mk (DrmPlane.id_ p) (DrmPlane.possible_crtc_mask_ p) (DrmPlane.type_ p)
    (DrmPlane.formats_ p) property (DrmPlane.alpha_property_ p) map
    (DrmPlane.blending_enum_map_ p).

Definition with_alpha (property : DrmProperty) (p : DrmPlane.t) : DrmPlane.t :=
  DrmPlane.mk (DrmPlane.id_ p) (DrmPlane.possible_crtc_mask_ p) (DrmPlane.type_ p)
    (DrmPlane.formats_ p) (DrmPlane.rotation_property_ p) property
    (DrmPlane.transform_enum_map_ p) (DrmPlane.blending_enum_map_ p).

Definition with_blending (map : gmap DrmHwcBlending N) (p : DrmPlane.t)
    : DrmPlane.t :=
  DrmPlane.mk (DrmPlane.id_ p) (DrmPlane.possible_crtc_mask_ p) (DrmPlane.type_ p)
    (DrmPlane.formats_ p) (DrmPlane.rotation_property_ p)
    (DrmPlane.alpha_property_ p) (DrmPlane.transform_enum_map_ p) map.

(** The ten properties [Init] cannot do without, in the order it asks
    for them. *)
Definition mandatory : list string :=
  ["CRTC_ID"; "FB_ID"; "CRTC_X"; "CRTC_Y"; "CRTC_W"; "CRTC_H";
   "SRC_X"; "SRC_Y"; "SRC_W"; "SRC_H"]%string.

Section Kernel.
(** [drmModeObjectGetProperties] with [drmModeGetProperty] for each
    entry: the properties of an object, by name, as [DrmProperty::Init]
    stores them; [None] when the kernel reports none. *)
Variable drmModeObjectGetProperties : N → option (list (string * DrmProperty)).

(** Modelled from the spec: DrmProperty.cpp is not part of the sources.
    [value()] gives a status and the current value; the enum table of a
    property gives the hardware value of a name, if it has the name, and
    [AddEnumToMap] stores that value under the key, or nothing. *)
Variable DrmProperty_value : DrmProperty → Z * N.
Variable GetEnumValueWithName : DrmProperty → string → option N.

Definition AddEnumToMap `{Countable K} (property : DrmProperty) (name : string)
    (key : K) (map : gmap K N) : gmap K N :=
  match GetEnumValueWithName property name with
  | Some enum_value => <[key := enum_value]> map
  | None => map
  end.

(** [DrmDevice::GetProperty]: the first property of that name.  The
    list holds what [drmModeGetProperty] returned for the ids the kernel
    lists; the source reads the name of each answer without a null check,
    so a lookup in which the kernel withholds a property before the name
    is found is not a run of this function. *)
Definition GetProperty (obj_id : N) (prop_name : string) : Z * option DrmProperty :=
  match drmModeObjectGetProperties obj_id with
  | None => (- ENODEV, None)
  | Some props =>
      match list_find (λ p : string * DrmProperty, p.1 = prop_name) props with
      | Some (_, (_, property)) => (0, Some property)
      | None => (- ENOENT, None)
      end
  end.

(** [GetPlaneProperty]: the property when the lookup succeeds; the
    presence argument only chooses the log line. *)
Definition GetPlaneProperty (p : DrmPlane.t) (prop_name : string)
    : option DrmProperty :=
  let '(err, property) := GetProperty (DrmPlane.id_ p) prop_name in
  if negb (err =? 0) then None else property.

(** [Init]: the status and the plane.  Of the properties, the plane
    record keeps the rotation and the alpha property; the others are
    only asked for. *)
Definition Init (p : DrmPlane.t) : Z * DrmPlane.t :=
  match GetPlaneProperty p "type" with
  | None => (- ENOTSUP, p)
  | Some type_property =>
      let '(ret, type) := DrmProperty_value type_property in
      if negb (ret =? 0) then (ret, p)
      else if negb ((type =? DRM_PLANE_TYPE_OVERLAY)%N
                    || (type =? DRM_PLANE_TYPE_PRIMARY)%N
                    || (type =? DRM_PLANE_TYPE_CURSOR)%N)
      then (- EINVAL, p)
      else
        let p := with_type type p in
        if negb (forallb (λ name, bool_decide (is_Some (GetPlaneProperty p name)))
                         mandatory)
        then (- ENOTSUP, p)
        else
          let p :=
            match GetPlaneProperty p "rotation" with
            | Some rotation_property =>
                with_rotation rotation_property
                  (AddEnumToMap rotation_property "reflect-y" Transform.kFlipV
                     (AddEnumToMap rotation_property "reflect-x" Transform.kFlipH
                        (AddEnumToMap rotation_property "rotate-270"
                           Transform.kRotate270
                           (AddEnumToMap rotation_property "rotate-180"
                              Transform.kRotate180
                              (AddEnumToMap rotation_property "rotate-90"
                                 Transform.kRotate90
                                 (AddEnumToMap rotation_property "rotate-0"
                                    Transform.kIdentity
                                    (DrmPlane.transform_enum_map_ p)))))))
                  p
            | None => p
            end in
          let p :=
            match GetPlaneProperty p "alpha" with
            | Some alpha_property => with_alpha alpha_property p
            | None => p
            end in
          let p :=
            match GetPlaneProperty p "pixel blend mode" with
            | Some blend_property =>
                with_blending
                  (AddEnumToMap blend_property "None" kNone
                     (AddEnumToMap blend_property "Coverage" kCoverage
                        (AddEnumToMap blend_property "Pre-multiplied" kPreMult
                           (DrmPlane.blending_enum_map_ p))))
                  p
            | None => p
            end in
          (0, p)
  end.

(** Lines 308-325 of [DrmDevice::Init]: the loop over the planes the
    kernel lists. *)
Variable MakeDrmModePlaneUnique : N → option drmModePlane.

Fixpoint plane_loop (plane_ids : list N) (planes_ : list DrmPlane.t)
    : Z * list DrmPlane.t :=
  match plane_ids with
  | [] => (0, planes_)
  | id :: rest =>
      match MakeDrmModePlaneUnique id with
      | None => (- ENODEV, planes_)
      | Some p =>
          let '(ret, plane) := Init (new p) in
          if negb (ret =? 0) then (ret, planes_)
          else plane_loop rest (planes_ ++ [plane])
      end
  end.
End Kernel.
End DrmPlaneInit.

Module PlaneInitSpec.

(** The transforms [Init] knows a name for. *)
Definition single_transforms : list N :=
  [Transform.kIdentity; Transform.kRotate90; Transform.kRotate180;
   Transform.kRotate270; Transform.kFlipH; Transform.kFlipV].

(** A plane as [Init] leaves it on success. *)
Definition initialised (p : DrmPlane.t) : Prop :=
  DrmPlane.type_ p ∈ [DRM_PLANE_TYPE_OVERLAY; DRM_PLANE_TYPE_PRIMARY;
                      DRM_PLANE_TYPE_CURSOR]
  ∧ ∀ transform, is_Some (DrmPlane.transform_enum_map_ p !! transform) →
      transform ∈ single_transforms.
End PlaneInitSpec.

Module PlaneExamples.

(** A plane with a type and the ten mandatory properties, and a
    rotation property that knows two rotations. *)
Definition properties (obj_id : N) : option (list (string * DrmProperty)) :=
  Some (("type"%string, mkProperty 1)
        :: ("rotation"%string, mkProperty 2)
        :: imap (λ i name, (name, mkProperty (N.of_nat i + 10)))
                DrmPlaneInit.mandatory).

Definition value (property : DrmProperty) : Z * N := (0, DRM_PLANE_TYPE_PRIMARY).

Definition enums (property : DrmProperty) (name : string) : option N :=
  if decide (name = "rotate-0"%string) then Some DRM_MODE_ROTATE_0
  else if decide (name = "rotate-180"%string) then Some DRM_MODE_ROTATE_180
  else None.

Definition get_plane (id : N) : option drmModePlane :=
  Some (mkKernelPlane id 1 [875713112%N]).

(** A layer turned upside down, and one flipped and rotated at once. *)
Definition layer_upside_down : DrmHwcLayer :=
  mkLayer Transform.kRotate180 0xffff kNone 875713112.

Definition layer_flip_rotate : DrmHwcLayer :=
  mkLayer (N.lor Transform.kFlipH Transform.kRotate90) 0xffff kNone 875713112.

(** The kernel's answer for plane 7, and the plane [Init] makes of it. *)
Definition kernel_plane : drmModePlane := mkKernelPlane 7 1 [875713112%N].

Definition plane : DrmPlane.t :=
  DrmPlane.mk 7 1 DRM_PLANE_TYPE_PRIMARY [875713112%N] (mkProperty 2) (mkProperty 0)
    (<[Transform.kRotate180 := DRM_MODE_ROTATE_180]>
       (<[Transform.kIdentity := DRM_MODE_ROTATE_0]> ∅)) ∅.
End PlaneExamples.

(** * Proofs *)

(** ** 64-bit arithmetic *)

Lemma wrap64_id z : in_int64 z → wrap64 z = z.
Proof.
  unfold in_int64, INT64_MIN, INT64_MAX, wrap64. intros Hz.
  rewrite Z.mod_small; lia.
Qed.

Lemma quot_div_bounds a b :
  0 ≤ a → 0 < b → a ÷ b = a / b ∧ 0 ≤ a / b ≤ a ∧ b * (a / b) ≤ a < b * (a / b) + b.
Proof.
  intros Ha Hb. split; [apply Z.quot_div_nonneg; lia|].
  pose proof (Z.div_mod a b ltac:(lia)) as Hdm.
  pose proof (Z.mod_pos_bound a b Hb) as Hm.
  assert (0 ≤ a / b) by (apply Z.div_pos; lia).
  nia.
Qed.

(** ** Lists *)

Lemma filter_all {A} (P : A → Prop) `{∀ x, Decision (P x)} (l : list A) :
  Forall P l → filter P l = l.
Proof.
  induction 1 as [|x l Hx Hl IH]; [done|].
  rewrite filter_cons_True by done. by rewrite IH.
Qed.

(** ** VSyncWorker: phase of the synthetic wake time *)

Section VSyncPhase.
Import VSyncWorker.

Lemma GetPhasedVSync_unknown w frame_ns now :
  last_timestamp_ w < 0 → in_int64 (now + frame_ns) →
  GetPhasedVSync w frame_ns now = now + frame_ns.
Proof.
  intros Hlast Hr. unfold GetPhasedVSync.
  destruct (Z.ltb_spec (last_timestamp_ w) 0); [|lia].
  by apply wrap64_id.
Qed.

Lemma GetPhasedVSync_known w frame_ns now :
  0 < frame_ns → 0 ≤ last_timestamp_ w ≤ now → now + frame_ns ≤ INT64_MAX →
  let next := GetPhasedVSync w frame_ns now in
  next = frame_ns * ((now - last_timestamp_ w) / frame_ns + 1) + last_timestamp_ w
  ∧ now < next ≤ now + frame_ns
  ∧ (next - last_timestamp_ w) `mod` frame_ns = 0.
Proof.
  intros HT Hlast Hmax next. subst next. unfold GetPhasedVSync.
  destruct (Z.ltb_spec (last_timestamp_ w) 0); [lia|].
  set (l := last_timestamp_ w) in *.
  destruct (quot_div_bounds (now - l) frame_ns) as (Hq & Hd & Hlo); [lia..|].
  assert (Hrange : ∀ z, 0 ≤ z ≤ now + frame_ns → in_int64 z).
  { unfold in_int64, INT64_MIN, INT64_MAX in *. lia. }
  rewrite (wrap64_id (now - l)) by (apply Hrange; lia).
  rewrite Hq.
  rewrite (wrap64_id ((now - l) / frame_ns)) by (apply Hrange; lia).
  rewrite (wrap64_id ((now - l) / frame_ns + 1)) by (apply Hrange; lia).
  rewrite (wrap64_id (frame_ns * _)) by (apply Hrange; lia).
  rewrite wrap64_id by (apply Hrange; lia).
  split; [done|]. split; [lia|].
  replace (frame_ns * ((now - l) / frame_ns + 1) + l - l)
    with (((now - l) / frame_ns + 1) * frame_ns) by lia.
  apply Z.mod_mul. lia.
Qed.

(** The wake time survives the trip through [struct timespec]:
    [SyntheticWaitVBlank] reports what [GetPhasedVSync] computed. *)
Lemma SyntheticWaitVBlank_timestamp w refresh vsync :
  0 < refresh ≤ kOneSecondNs → 0 ≤ tv_sec vsync →
  0 ≤ tv_nsec vsync < kOneSecondNs →
  last_timestamp_ w ≤ timespec_ns vsync →
  timespec_ns vsync + kOneSecondNs ÷ refresh ≤ INT64_MAX →
  0 < kOneSecondNs ÷ refresh
  ∧ SyntheticWaitVBlank w refresh vsync
    = GetPhasedVSync w (kOneSecondNs ÷ refresh) (timespec_ns vsync).
Proof.
  intros Hrefresh Hsec Hnsec Hlast Hmax.
  unfold timespec_ns in *. set (now := tv_sec vsync * kOneSecondNs + tv_nsec vsync) in *.
  destruct (quot_div_bounds kOneSecondNs refresh) as (Hq & Hd & Hlo);
    [unfold kOneSecondNs; lia | lia |].
  assert (Hframe : 0 < kOneSecondNs ÷ refresh).
  { rewrite Hq. apply Z.div_str_pos. lia. }
  split; [done|].
  assert (Hone : kOneSecondNs = 1000000000) by reflexivity.
  assert (Hrange : ∀ z, 0 ≤ z ≤ now + kOneSecondNs ÷ refresh → in_int64 z).
  { unfold in_int64, INT64_MIN, INT64_MAX in *. lia. }
  unfold SyntheticWaitVBlank.
  rewrite (wrap64_id (tv_sec vsync * kOneSecondNs)) by (apply Hrange; nia).
  rewrite (wrap64_id (tv_sec vsync * kOneSecondNs + tv_nsec vsync))
    by (apply Hrange; nia).
  fold now.
  set (phased := GetPhasedVSync w (kOneSecondNs ÷ refresh) now).
  assert (Hph : 0 ≤ phased ≤ now + kOneSecondNs ÷ refresh).
  { subst phased. destruct (Z_lt_le_dec (last_timestamp_ w) 0) as [Hneg|Hpos].
    - rewrite GetPhasedVSync_unknown; [nia | done | apply Hrange; nia].
    - destruct (GetPhasedVSync_known w (kOneSecondNs ÷ refresh) now Hframe
                  ltac:(lia) Hmax) as (_ & ? & _). nia. }
  destruct (quot_div_bounds phased kOneSecondNs) as (Hpq & Hpd & Hplo);
    [lia | lia |].
  rewrite Hpq.
  rewrite (wrap64_id (phased / kOneSecondNs * kOneSecondNs)) by (apply Hrange; nia).
  rewrite (wrap64_id (phased - _)) by (apply Hrange; nia).
  rewrite wrap64_id by (apply Hrange; nia). lia.
Qed.

(** Once a timestamp in phase with [t0] is stored, every later synthetic
    timestamp is in phase with [t0], and they increase. *)
Lemma run_synthetic_in_phase refresh t0 clock : ∀ w,
  0 < refresh ≤ kOneSecondNs → 0 ≤ last_timestamp_ w →
  (last_timestamp_ w - t0) `mod` (kOneSecondNs ÷ refresh) = 0 →
  clock_ok refresh clock w →
  Forall (λ tn, (tn - t0) `mod` (kOneSecondNs ÷ refresh) = 0
                ∧ last_timestamp_ w < tn)
         (run_synthetic refresh clock w).
Proof.
  induction clock as [|vsync rest IH]; intros w HT Hl Hph Hok; simpl; [constructor|].
  destruct Hok as (Hsec & Hnsec & Hle & Hmax & Hok).
  destruct (SyntheticWaitVBlank_timestamp w refresh vsync HT Hsec Hnsec Hle Hmax)
    as [Hframe Hts].
  destruct (GetPhasedVSync_known w (kOneSecondNs ÷ refresh) (timespec_ns vsync)
              Hframe ltac:(lia) Hmax) as (_ & Hgt & Hmod).
  rewrite <- Hts in Hgt, Hmod.
  unfold Routine_synthetic in *. destruct (enabled_ w) eqn:Hen; simpl in *.
  - set (ts := SyntheticWaitVBlank w refresh vsync) in *.
    assert (Hin : (ts - t0) `mod` (kOneSecondNs ÷ refresh) = 0).
    { replace (ts - t0) with ((ts - last_timestamp_ w) + (last_timestamp_ w - t0))
        by lia.
      rewrite Z.add_mod, Hmod, Hph by lia. done. }
    constructor; [split; [done|lia]|].
    eapply Forall_impl; [apply IH; simpl; try done; lia|].
    simpl. intros tn [? ?]. split; [done|lia].
  - by apply IH.
Qed.
End VSyncPhase.

(** C8. With the 64-bit operations of the code: for a period above zero and
    a clock reading [now] that leaves room for one period, a stored last
    timestamp [0 <= last <= now] gives the wake time
    [frame_ns * floor((now - last) / frame_ns + 1) + last], which lies
    after [now] and in phase with [last]; without a stored timestamp the
    wake time is [now + frame_ns]; and over any run of synthetic passes
    after an enable, at the period [frame_ns] of the refresh rate, the
    first timestamp emitted is [t0 = now + frame_ns] and every later one
    differs from [t0] by a multiple of the period. *)
Theorem GetPhasedVSync_phase_lock (frame_ns now : Z) (w : VSyncWorker.t) :
  0 < frame_ns → in_int64 now → now + frame_ns ≤ INT64_MAX →
  (0 ≤ VSyncWorker.last_timestamp_ w ≤ now →
     let last := VSyncWorker.last_timestamp_ w in
     let next := VSyncWorker.GetPhasedVSync w frame_ns now in
     next = frame_ns * ((now - last) / frame_ns + 1) + last
     ∧ now < next
     ∧ (next - last) `mod` frame_ns = 0)
  ∧ (VSyncWorker.last_timestamp_ w < 0 →
     VSyncWorker.GetPhasedVSync w frame_ns now = now + frame_ns)
  ∧ (∀ refresh vsync clock,
       0 < refresh ≤ VSyncWorker.kOneSecondNs →
       frame_ns = VSyncWorker.kOneSecondNs ÷ refresh →
       now = VSyncWorker.timespec_ns vsync →
       VSyncWorker.clock_ok refresh (vsync :: clock)
                            (VSyncWorker.VSyncControl true w) →
       ∃ rest,
         VSyncWorker.run_synthetic refresh (vsync :: clock)
                                   (VSyncWorker.VSyncControl true w)
         = (now + frame_ns) :: rest
         ∧ Forall (λ tn, (tn - (now + frame_ns)) `mod` frame_ns = 0
                         ∧ now + frame_ns < tn) rest).
Proof.
  intros HT Hnow Hmax. split; [|split].
  - intros Hlast last next.
    destruct (GetPhasedVSync_known w frame_ns now HT Hlast Hmax) as (? & ? & ?).
    repeat split; [done|lia|done].
  - intros Hlast. apply GetPhasedVSync_unknown; [done|].
    unfold in_int64, INT64_MIN, INT64_MAX in *. lia.
  - intros refresh vsync clock Hrefresh -> -> (Hsec & Hnsec & Hle & _ & Hok).
    simpl in *.
    destruct (SyntheticWaitVBlank_timestamp (VSyncWorker.mk true (-1)) refresh vsync
                Hrefresh Hsec Hnsec Hle Hmax) as [_ Hts].
    assert (Hfirst : VSyncWorker.SyntheticWaitVBlank (VSyncWorker.mk true (-1))
                       refresh vsync
                     = VSyncWorker.timespec_ns vsync
                       + VSyncWorker.kOneSecondNs ÷ refresh).
    { rewrite Hts. apply GetPhasedVSync_unknown; simpl; [lia|].
      unfold in_int64, INT64_MIN, INT64_MAX in *. lia. }
    unfold VSyncWorker.VSyncControl, VSyncWorker.Routine_synthetic in *. simpl in *.
    rewrite Hfirst in *. eexists. split; [reflexivity|].
    assert (0 ≤ VSyncWorker.timespec_ns vsync).
    { unfold VSyncWorker.timespec_ns, VSyncWorker.kOneSecondNs in *. nia. }
    eapply Forall_impl.
    + apply (run_synthetic_in_phase refresh
               (VSyncWorker.timespec_ns vsync + VSyncWorker.kOneSecondNs ÷ refresh));
        simpl; try done; try lia.
      by rewrite Z.sub_diag, Z.mod_0_l by lia.
    + simpl. tauto.
Qed.

(** The example in the comment of [GetPhasedVSync]: last 137, period 50,
    now 683 gives 687.  And a run at 50 Hz enabled at 2.000000683 s:
    wake-ups at 2.020000683 s and then every 20 ms after it, whatever the
    delay of the readings in between. *)
Lemma GetPhasedVSync_phase_lock_witness :
  VSyncWorker.GetPhasedVSync (VSyncWorker.mk true 137) 50 683 = 687
  ∧ VSyncWorker.run_synthetic 50
      [VSyncWorker.mkTimespec 2 683; VSyncWorker.mkTimespec 2 20000700;
       VSyncWorker.mkTimespec 2 75000000]
      (VSyncWorker.VSyncControl true VSyncWorker.init)
    = [2020000683; 2040000683; 2080000683].
Proof.
  split.
  - destruct (GetPhasedVSync_phase_lock 50 683 (VSyncWorker.mk true 137))
      as (Hk & _ & _); [lia | unfold in_int64, INT64_MIN, INT64_MAX; lia
                       | unfold INT64_MAX; lia |].
    apply Hk; simpl; lia.
  - destruct (GetPhasedVSync_phase_lock 20000000 2000000683 VSyncWorker.init)
      as (_ & _ & Hrun); [lia | unfold in_int64, INT64_MIN, INT64_MAX; lia
                         | unfold INT64_MAX; lia |].
    destruct (Hrun 50 (VSyncWorker.mkTimespec 2 683)
                [VSyncWorker.mkTimespec 2 20000700; VSyncWorker.mkTimespec 2 75000000])
      as (rest & Heq & _).
    + unfold VSyncWorker.kOneSecondNs. lia.
    + reflexivity.
    + reflexivity.
    + vm_compute. intuition discriminate.
    + reflexivity.
Defined.

(** ** DrmDisplayComposition: the kind of a composition *)

Section CompositionKind.
Import DrmDisplayComposition CompositionSpec.

Lemma validate_composition_type_spec c des :
  validate_composition_type c des = true
  ↔ type_ c = DRM_COMPOSITION_TYPE_EMPTY ∨ type_ c = des.
Proof.
  unfold validate_composition_type.
  rewrite orb_true_iff, !bool_decide_eq_true. done.
Qed.

Lemma guarded_by_intro des c (ok : t) :
  type_ ok = des →
  guarded_by des c (if negb (validate_composition_type c des)
                    then (- EINVAL, c) else (0, ok)).
Proof.
  intros Hok. unfold guarded_by.
  pose proof (validate_composition_type_spec c des) as Hv.
  destruct (validate_composition_type c des); simpl.
  - split; [|split]; [|done|done]. split; [intros _; by apply Hv | done].
  - split; [|split]; [|done|done].
    split; [done|]. intros H. apply Hv in H. done.
Qed.
End CompositionKind.

(** C9. Each of [SetLayers], [SetDpmsMode] and [SetDisplayMode] returns 0
    exactly when the composition is still empty or already of the kind the
    setter gives it, and then the composition has that kind; on a mismatch
    it returns [-EINVAL] and the composition (kind, layers, dpms mode,
    display mode included) is the one it was. *)
Theorem composition_setters_exclusive (c : DrmDisplayComposition.t)
    (layers : list DrmHwcLayer) (geometry_changed : bool) (dpms_mode : N)
    (display_mode : DrmMode.t) :
  CompositionSpec.guarded_by DRM_COMPOSITION_TYPE_FRAME c
    (DrmDisplayComposition.SetLayers layers geometry_changed c)
  ∧ CompositionSpec.guarded_by DRM_COMPOSITION_TYPE_DPMS c
      (DrmDisplayComposition.SetDpmsMode dpms_mode c)
  ∧ CompositionSpec.guarded_by DRM_COMPOSITION_TYPE_MODESET c
      (DrmDisplayComposition.SetDisplayMode display_mode c).
Proof.
  repeat split; by apply guarded_by_intro.
Qed.

(** ** DrmDisplayComposition: Plan *)

Section PlanProofs.
Import DrmDisplayComposition PlanSpec.
Variable ProvisionPlanes : PlannerCall → PlannerResult.
Variable planes_ : DrmPlanePtr → DrmPlane.t.

Lemma erase_first_filter pl (container : list DrmPlanePtr) :
  NoDup container → erase_first pl container = filter (λ j, j ≠ pl) container.
Proof.
  induction 1 as [|j rest Hj Hnd IH]; simpl; [done|].
  destruct (decide (j = pl)) as [->|Hne].
  - rewrite filter_cons_False by (intros ?; done).
    symmetry. apply filter_all. apply Forall_forall. intros x Hx ->. done.
  - rewrite filter_cons_True by done. by rewrite IH.
Qed.

Lemma std_sort_spec l : Sorted Nat.le (std_sort l) ∧ std_sort l ≡ₚ l.
Proof.
  split; [apply (Sorted_merge_sort Nat.le) | apply merge_sort_Permutation].
Qed.

(** The composition planes [Plan] stores are the planner's, entry by
    entry, with sorted source layers where a plane is attached. *)
Lemma remove_used_planes cps : ∀ p o,
  Forall2 sorted_version cps (remove_used planes_ cps p o).1.1.
Proof.
  induction cps as [|[ty [pl|] src] rest IH]; intros p o; simpl; [constructor|..].
  - destruct (DrmPlane.type (planes_ pl) =? DRM_PLANE_TYPE_PRIMARY)%N.
    + specialize (IH (erase_first pl p) o).
      destruct (remove_used planes_ rest (erase_first pl p) o) as [[r p'] o'].
      simpl in *. constructor; [|done].
      unfold sorted_version; simpl. repeat split; apply std_sort_spec.
    + specialize (IH p (erase_first pl o)).
      destruct (remove_used planes_ rest p (erase_first pl o)) as [[r p'] o'].
      simpl in *. constructor; [|done].
      unfold sorted_version; simpl. repeat split; apply std_sort_spec.
  - specialize (IH p o).
    destruct (remove_used planes_ rest p o) as [[r p'] o']. simpl in *.
    constructor; [|done]. by unfold sorted_version.
Qed.

(** On pools without repetition the loop filters out the used planes,
    each from the pool of its type. *)
Lemma remove_used_pools cps : ∀ p o,
  NoDup p → NoDup o →
  (remove_used planes_ cps p o).1.2
    = filter (λ j, ¬ (j ∈ used_planes cps ∧ is_primary planes_ j)) p
  ∧ (remove_used planes_ cps p o).2
    = filter (λ j, ¬ (j ∈ used_planes cps ∧ ¬ is_primary planes_ j)) o.
Proof.
  induction cps as [|[ty [pl|] src] rest IH]; intros p o Hp Ho; simpl.
  - split; symmetry; apply filter_all, Forall_forall;
      intros x _ [Hx _]; by apply elem_of_nil in Hx.
  - change (used_planes (DrmCompositionPlane.mk ty (Some pl) src :: rest))
      with (pl :: used_planes rest).
    destruct (N.eqb_spec (DrmPlane.type (planes_ pl)) DRM_PLANE_TYPE_PRIMARY)
      as [Hty|Hty].
    + destruct (IH (erase_first pl p) o) as [IHp IHo]; [|done|].
      { rewrite erase_first_filter by done. by apply NoDup_filter. }
      destruct (remove_used planes_ rest (erase_first pl p) o) as [[r p'] o'].
      simpl in *. subst p' o'. split.
      * rewrite erase_first_filter by done. rewrite list_filter_filter.
        apply list_filter_iff. intros j. rewrite elem_of_cons.
        unfold is_primary in *.
        destruct (decide (j = pl)) as [->|]; clear IH; intuition congruence.
      * apply list_filter_iff. intros j. rewrite elem_of_cons.
        unfold is_primary in *.
        destruct (decide (j = pl)) as [->|]; clear IH; intuition congruence.
    + destruct (IH p (erase_first pl o)) as [IHp IHo]; [done| |].
      { rewrite erase_first_filter by done. by apply NoDup_filter. }
      destruct (remove_used planes_ rest p (erase_first pl o)) as [[r p'] o'].
      simpl in *. subst p' o'. split.
      * apply list_filter_iff. intros j. rewrite elem_of_cons.
        unfold is_primary in *.
        destruct (decide (j = pl)) as [->|]; clear IH; intuition congruence.
      * rewrite erase_first_filter by done. rewrite list_filter_filter.
        apply list_filter_iff. intros j. rewrite elem_of_cons.
        unfold is_primary in *.
        destruct (decide (j = pl)) as [->|]; clear IH; intuition congruence.
  - change (used_planes (DrmCompositionPlane.mk ty None src :: rest))
      with (used_planes rest).
    destruct (IH p o Hp Ho) as [IHp IHo].
    destruct (remove_used planes_ rest p o) as [[r p'] o']. simpl in *.
    by subst.
Qed.
End PlanProofs.

Section PlanPools.
Import DrmDisplayComposition PlanSpec.
Variable planes_ : DrmPlanePtr → DrmPlane.t.

Lemma used_planes_cons i cps :
  used_planes (i :: cps)
  = match DrmCompositionPlane.plane i with
    | Some pl => pl :: used_planes cps
    | None => used_planes cps
    end.
Proof. reflexivity. Qed.

Lemma sorted_version_used_planes cps cps' :
  Forall2 sorted_version cps cps' → used_planes cps' = used_planes cps.
Proof.
  induction 1 as [|i i' cps cps' (_ & Hpl & _) _ IH]; [done|].
  by rewrite !used_planes_cons, Hpl, IH.
Qed.

(** Filtering a repetition-free pool by the complement of a
    repetition-free set of its members shortens it by the size of the
    set. *)
Lemma length_filter_out (U pool : list DrmPlanePtr) :
  NoDup pool → NoDup U → (∀ x, x ∈ U → x ∈ pool) →
  (length (filter (λ j, j ∉ U) pool) + length U = length pool)%nat.
Proof.
  intros Hpool HU Hsub.
  pose proof (filter_app_complement (λ j, j ∈ U) pool) as Hperm.
  apply Permutation_length in Hperm. rewrite length_app in Hperm.
  assert (Hin : filter (λ j, j ∈ U) pool ≡ₚ U).
  { apply NoDup_Permutation; [by apply NoDup_filter | done |].
    intros x. rewrite list_elem_of_filter. split; [tauto|]. intros Hx. auto. }
  apply Permutation_length in Hin. lia.
Qed.

Lemma pools_shrink (U primary overlay : list DrmPlanePtr) :
  NoDup primary → NoDup overlay →
  (∀ pl, pl ∈ U → if decide (is_primary planes_ pl) then pl ∈ primary
                   else pl ∈ overlay) →
  (length (filter (λ j, ¬ (j ∈ U ∧ is_primary planes_ j)) primary)
   + length (filter (λ j, ¬ (j ∈ U ∧ ¬ is_primary planes_ j)) overlay)
   + length (remove_dups U)
   = length primary + length overlay)%nat.
Proof.
  intros Hnp Hno Hfrom.
  set (D := remove_dups U).
  assert (HndD : NoDup D) by apply NoDup_remove_dups.
  set (DP := filter (is_primary planes_) D).
  set (DO := filter (λ j, ¬ is_primary planes_ j) D).
  assert (Hsplit : (length DP + length DO = length D)%nat).
  { pose proof (filter_app_complement (is_primary planes_) D) as Hs.
    apply Permutation_length in Hs. by rewrite length_app in Hs. }
  assert (HP : (length (filter (λ j, j ∉ DP) primary) + length DP
                = length primary)%nat).
  { apply length_filter_out; [done | by apply NoDup_filter |].
    intros x. unfold DP, D. rewrite list_elem_of_filter, elem_of_remove_dups.
    intros [Hx1 Hx2]. specialize (Hfrom x Hx2).
    by destruct (decide (is_primary planes_ x)). }
  assert (HO : (length (filter (λ j, j ∉ DO) overlay) + length DO
                = length overlay)%nat).
  { apply length_filter_out; [done | by apply NoDup_filter |].
    intros x. unfold DO, D. rewrite list_elem_of_filter, elem_of_remove_dups.
    intros [Hx1 Hx2]. specialize (Hfrom x Hx2).
    by destruct (decide (is_primary planes_ x)). }
  rewrite (list_filter_iff (λ j, ¬ (j ∈ U ∧ is_primary planes_ j))
                           (λ j, j ∉ DP) primary).
  2:{ intros j. unfold DP, D. rewrite list_elem_of_filter, elem_of_remove_dups.
      tauto. }
  rewrite (list_filter_iff (λ j, ¬ (j ∈ U ∧ ¬ is_primary planes_ j))
                           (λ j, j ∉ DO) overlay).
  2:{ intros j. unfold DO, D. rewrite list_elem_of_filter, elem_of_remove_dups.
      tauto. }
  lia.
Qed.
End PlanPools.

(** C1, as the code has it.  A frame composition whose planner succeeds:
    [Plan] returns 0 and
    the composition planes are the planner's with the source layers of
    every plane-backed entry sorted ascending.  When the planner keeps to
    its contract (planes taken from the pool of their type, pools left as
    they were, no plane twice in a pool), every plane the composition
    planes refer to is gone from the primary pool if its type is primary
    and from the overlay pool otherwise, the other planes stay in place,
    and the two pools together have shrunk by exactly the number of
    distinct planes referred to.  Without the planner's contract neither
    holds of every call. *)
Theorem Plan_success_claims_planes
    (ProvisionPlanes : DrmDisplayComposition.PlannerCall →
                       DrmDisplayComposition.PlannerResult)
    (planes_ : DrmPlanePtr → DrmPlane.t)
    (c : DrmDisplayComposition.t) (primary_planes overlay_planes : list DrmPlanePtr) :
  let call := DrmDisplayComposition.mkCall
                (map_seq 0 (DrmDisplayComposition.layers_ c))
                (DrmDisplayComposition.crtc_ c) primary_planes overlay_planes in
  let out := DrmDisplayComposition.Plan ProvisionPlanes planes_ c
                                        primary_planes overlay_planes in
  let cps := DrmDisplayComposition.composition_planes_
               (DrmDisplayComposition.out_comp out) in
  DrmDisplayComposition.type_ c = DRM_COMPOSITION_TYPE_FRAME →
  DrmDisplayComposition.res_ret (ProvisionPlanes call) = 0 →
  DrmDisplayComposition.out_ret out = 0
  ∧ Forall2 PlanSpec.sorted_version
            (DrmDisplayComposition.res_planes (ProvisionPlanes call)) cps
  ∧ (PlanSpec.planner_contract planes_ call (ProvisionPlanes call) →
     DrmDisplayComposition.out_primary out
     = filter (λ j, ¬ (j ∈ PlanSpec.used_planes cps ∧ PlanSpec.is_primary planes_ j))
              primary_planes
     ∧ DrmDisplayComposition.out_overlay out
       = filter (λ j, ¬ (j ∈ PlanSpec.used_planes cps
                         ∧ ¬ PlanSpec.is_primary planes_ j))
                overlay_planes
     ∧ (length (DrmDisplayComposition.out_primary out)
        + length (DrmDisplayComposition.out_overlay out)
        + length (PlanSpec.distinct_planes cps)
        = length primary_planes + length overlay_planes)%nat
     ∧ PlanSpec.pools_minus_used planes_ primary_planes overlay_planes out).
Proof.
  intros call out cps Hty Hret.
  subst out cps. unfold DrmDisplayComposition.Plan.
  rewrite Hty. simpl. fold call. rewrite Hret. simpl.
  pose proof (remove_used_planes planes_
                (DrmDisplayComposition.res_planes (ProvisionPlanes call))
                (DrmDisplayComposition.res_primary (ProvisionPlanes call))
                (DrmDisplayComposition.res_overlay (ProvisionPlanes call))) as Hcps.
  pose proof (remove_used_pools planes_
                (DrmDisplayComposition.res_planes (ProvisionPlanes call))
                (DrmDisplayComposition.res_primary (ProvisionPlanes call))
                (DrmDisplayComposition.res_overlay (ProvisionPlanes call))) as Hpools.
  destruct (DrmDisplayComposition.remove_used planes_ _ _ _) as [[cps p] o].
  simpl in *.
  split; [done|]. split; [done|].
  intros [[Hkp Hko] [Hnp Hno] Hfrom]. simpl in *.
  rewrite Hkp, Hko in Hpools. destruct (Hpools Hnp Hno) as [Hp Ho].
  pose proof (sorted_version_used_planes _ _ Hcps) as Hused.
  rewrite Hused. subst p o.
  split; [done|]. split; [done|].
  assert (Hsizes :
            (length (filter (λ j, ¬ (j ∈ PlanSpec.used_planes
                                           (DrmDisplayComposition.res_planes
                                              (ProvisionPlanes call))
                                     ∧ PlanSpec.is_primary planes_ j))
                            primary_planes)
             + length (filter (λ j, ¬ (j ∈ PlanSpec.used_planes
                                             (DrmDisplayComposition.res_planes
                                                (ProvisionPlanes call))
                                       ∧ ¬ PlanSpec.is_primary planes_ j))
                              overlay_planes)
             + length (PlanSpec.distinct_planes cps)
             = length primary_planes + length overlay_planes)%nat).
  { unfold PlanSpec.distinct_planes. rewrite Hused. by apply pools_shrink. }
  split; [exact Hsizes|].
  split; [|simpl; exact Hsizes].
  simpl. rewrite Hused. intros pl Hpl.
  destruct (decide (PlanSpec.is_primary planes_ pl)) as [Hprim | Hprim];
    rewrite list_elem_of_filter; tauto.
Qed.

(** The scenario of one primary and one overlay plane: both pools are
    empty afterwards and the merged plane lists its layers as 0, 2. *)
Lemma Plan_success_claims_planes_witness :
  let out := DrmDisplayComposition.Plan Examples.planner_two Examples.three_planes
               Examples.frame3 [0%nat] [1%nat] in
  DrmDisplayComposition.out_primary out = []
  ∧ DrmDisplayComposition.out_overlay out = []
  ∧ DrmCompositionPlane.source_layers
      <$> DrmDisplayComposition.composition_planes_ (DrmDisplayComposition.out_comp out)
    = [[0%nat; 2%nat]; [1%nat]].
Proof.
  destruct (Plan_success_claims_planes Examples.planner_two Examples.three_planes
              Examples.frame3 [0%nat] [1%nat]) as (_ & _ & Hpools).
  - reflexivity.
  - reflexivity.
  - destruct Hpools as (Hp & Ho & _).
    + split.
      * split; reflexivity.
      * split; apply NoDup_singleton.
      * intros pl Hpl. change (pl ∈ [0%nat; 1%nat]) in Hpl.
        apply elem_of_cons in Hpl as [->|Hpl];
          [simpl; apply list_elem_of_singleton; done|].
        apply list_elem_of_singleton in Hpl as ->. simpl.
        by apply list_elem_of_singleton.
    + intros out. subst out. rewrite Hp, Ho. repeat split; reflexivity.
Defined.

(** C1 as stated, for every successful call: a planner that succeeds
    with plane 2 while the pools hold planes 0 and 1.  [Plan] returns 0,
    the composition refers to one plane, and both pools are as they were
    passed in: [Plan] erases the first entry equal to the plane and
    finds none, so the pools have not shrunk by the plane referred to.
    The two other parts of the planner's contract are needed as well: with
    plane 1 twice in the overlay pool the plane is still in the pool
    after a successful call, and a planner that empties the pools itself
    leaves them smaller than the planes referred to account for. *)
Lemma Plan_success_without_removal :
  let out := DrmDisplayComposition.Plan Examples.planner_own_plane
               Examples.three_planes Examples.frame3 [0%nat] [1%nat] in
  let out_twice := DrmDisplayComposition.Plan Examples.planner_two
                     Examples.three_planes Examples.frame3 [0%nat] [1%nat; 1%nat] in
  let out_emptied := DrmDisplayComposition.Plan Examples.planner_empties_pools
                       Examples.three_planes Examples.frame3 [0%nat] [1%nat] in
  DrmDisplayComposition.type_ Examples.frame3 = DRM_COMPOSITION_TYPE_FRAME
  ∧ (DrmDisplayComposition.out_ret out = 0
     ∧ PlanSpec.distinct_planes
         (DrmDisplayComposition.composition_planes_
            (DrmDisplayComposition.out_comp out))
       = [2%nat]
     ∧ DrmDisplayComposition.out_primary out = [0%nat]
     ∧ DrmDisplayComposition.out_overlay out = [1%nat]
     ∧ ¬ PlanSpec.pools_minus_used Examples.three_planes [0%nat] [1%nat] out)
  ∧ (DrmDisplayComposition.out_ret out_twice = 0
     ∧ DrmDisplayComposition.out_overlay out_twice = [1%nat]
     ∧ ¬ PlanSpec.pools_minus_used Examples.three_planes [0%nat] [1%nat; 1%nat]
           out_twice)
  ∧ (DrmDisplayComposition.out_ret out_emptied = 0
     ∧ DrmDisplayComposition.out_primary out_emptied = []
     ∧ DrmDisplayComposition.out_overlay out_emptied = []
     ∧ ¬ PlanSpec.pools_minus_used Examples.three_planes [0%nat] [1%nat]
           out_emptied).
Proof.
  cbv zeta. split; [reflexivity|]. split; [|split].
  - do 4 (split; [reflexivity|]).
    intros [_ Hsizes]. vm_compute in Hsizes. discriminate Hsizes.
  - do 2 (split; [reflexivity|]).
    intros [Hgone _]. apply (Hgone 1%nat).
    + apply list_elem_of_further, list_elem_of_here.
    + apply list_elem_of_here.
  - do 3 (split; [reflexivity|]).
    intros [_ Hsizes]. vm_compute in Hsizes. discriminate Hsizes.
Qed.

(** C2. A frame composition whose planner returns a status other than 0:
    [Plan] returns that status after the one planner call, and the pools
    are the ones the planner left, nothing removed; when the planner has
    kept the pools they are the caller's. *)
Theorem Plan_planner_failure
    (ProvisionPlanes : DrmDisplayComposition.PlannerCall →
                       DrmDisplayComposition.PlannerResult)
    (planes_ : DrmPlanePtr → DrmPlane.t)
    (c : DrmDisplayComposition.t) (primary_planes overlay_planes : list DrmPlanePtr) :
  let call := DrmDisplayComposition.mkCall
                (map_seq 0 (DrmDisplayComposition.layers_ c))
                (DrmDisplayComposition.crtc_ c) primary_planes overlay_planes in
  let r := ProvisionPlanes call in
  let out := DrmDisplayComposition.Plan ProvisionPlanes planes_ c
                                        primary_planes overlay_planes in
  DrmDisplayComposition.type_ c = DRM_COMPOSITION_TYPE_FRAME →
  DrmDisplayComposition.res_ret r ≠ 0 →
  DrmDisplayComposition.out_ret out = DrmDisplayComposition.res_ret r
  ∧ DrmDisplayComposition.out_calls out = [call]
  ∧ DrmDisplayComposition.out_primary out = DrmDisplayComposition.res_primary r
  ∧ DrmDisplayComposition.out_overlay out = DrmDisplayComposition.res_overlay r
  ∧ (DrmDisplayComposition.res_primary r = primary_planes →
     DrmDisplayComposition.res_overlay r = overlay_planes →
     DrmDisplayComposition.out_primary out = primary_planes
     ∧ DrmDisplayComposition.out_overlay out = overlay_planes).
Proof.
  intros call r out Hty Hret. subst out.
  unfold DrmDisplayComposition.Plan. rewrite Hty. simpl. fold call. fold r.
  destruct (Z.eqb_spec (DrmDisplayComposition.res_ret r) 0) as [|_]; [done|].
  simpl. repeat split; done.
Qed.

Lemma Plan_planner_failure_witness :
  let out := DrmDisplayComposition.Plan Examples.planner_fail Examples.three_planes
               Examples.frame3 [0%nat] [1%nat] in
  DrmDisplayComposition.out_ret out = - ENODEV
  ∧ DrmDisplayComposition.out_primary out = [0%nat]
  ∧ DrmDisplayComposition.out_overlay out = [1%nat].
Proof.
  destruct (Plan_planner_failure Examples.planner_fail Examples.three_planes
              Examples.frame3 [0%nat] [1%nat]) as (Hr & _ & Hp & Ho & _).
  - reflexivity.
  - discriminate.
  - intros out. subst out. rewrite Hr, Hp, Ho. repeat split; reflexivity.
Defined.

(** C10. A composition that is not a frame (empty, DPMS or modeset):
    [Plan] returns 0, makes no call to the planner, and leaves the two
    pools and the composition as they were, so the list of composition
    planes, empty before, is empty after. *)
Theorem Plan_not_frame
    (ProvisionPlanes : DrmDisplayComposition.PlannerCall →
                       DrmDisplayComposition.PlannerResult)
    (planes_ : DrmPlanePtr → DrmPlane.t)
    (c : DrmDisplayComposition.t) (primary_planes overlay_planes : list DrmPlanePtr) :
  let out := DrmDisplayComposition.Plan ProvisionPlanes planes_ c
                                        primary_planes overlay_planes in
  DrmDisplayComposition.type_ c ≠ DRM_COMPOSITION_TYPE_FRAME →
  DrmDisplayComposition.out_ret out = 0
  ∧ DrmDisplayComposition.out_calls out = []
  ∧ DrmDisplayComposition.out_primary out = primary_planes
  ∧ DrmDisplayComposition.out_overlay out = overlay_planes
  ∧ DrmDisplayComposition.out_comp out = c
  ∧ (DrmDisplayComposition.composition_planes_ c = [] →
     DrmDisplayComposition.composition_planes_ (DrmDisplayComposition.out_comp out) = []).
Proof.
  intros out Hty. subst out. unfold DrmDisplayComposition.Plan.
  rewrite bool_decide_eq_false_2 by done. simpl. repeat split; done.
Qed.

Lemma Plan_not_frame_witness :
  DrmDisplayComposition.Plan Examples.planner_two Examples.three_planes
    Examples.dpms_off [0%nat] [1%nat]
  = DrmDisplayComposition.mkOutcome 0 Examples.dpms_off [0%nat] [1%nat] [].
Proof.
  pose proof (Plan_not_frame Examples.planner_two Examples.three_planes
                Examples.dpms_off [0%nat] [1%nat]) as H.
  simpl in H. destruct H as (_ & _ & _ & _ & _ & _); [discriminate|].
  reflexivity.
Defined.

(** ** DrmPlane: which layers a plane can present *)

Section PlaneMatching.
Import DrmPlane.

Lemma count_zero `{Countable K} {V} (m : gmap K V) (k : K) :
  (count m k =? 0)%nat = false ↔ is_Some (m !! k).
Proof.
  unfold count. destruct (m !! k); simpl.
  - split; [eauto | done].
  - split; [done | by intros [? ?]].
Qed.

Lemma rotation_ok p layer :
  (if negb (prop_present (rotation_property_ p))
   then negb (transform layer =? Transform.kIdentity)%N
   else (count (transform_enum_map_ p) (transform layer) =? 0)%nat) = false
  ↔ (prop_id (rotation_property_ p) = 0%N → transform layer = Transform.kIdentity)
    ∧ (prop_id (rotation_property_ p) ≠ 0%N →
       is_Some (transform_enum_map_ p !! transform layer)).
Proof.
  unfold prop_present.
  destruct (N.eqb_spec (prop_id (rotation_property_ p)) 0) as [Hid|Hid]; simpl.
  - rewrite negb_false_iff, N.eqb_eq. split; [by intros ? | intros [? _]; auto].
  - rewrite count_zero. split; [by intros ? | intros [_ ?]; auto].
Qed.

Lemma alpha_ok p layer :
  (prop_id (alpha_property_ p) =? 0)%N && negb (alpha layer =? 0xffff)%N = false
  ↔ (prop_id (alpha_property_ p) = 0%N → alpha layer = 0xffff%N).
Proof.
  destruct (N.eqb_spec (prop_id (alpha_property_ p)) 0) as [Hid|Hid]; simpl.
  - rewrite negb_false_iff, N.eqb_eq. split; auto.
  - split; [by intros _ ? | done].
Qed.

Lemma blending_ok p layer :
  (count (blending_enum_map_ p) (blending layer) =? 0)%nat
    && negb (bool_decide (blending layer = kNone))
    && negb (bool_decide (blending layer = kPreMult)) = false
  ↔ is_Some (blending_enum_map_ p !! blending layer)
    ∨ blending layer = kNone ∨ blending layer = kPreMult.
Proof.
  rewrite !andb_false_iff, !negb_false_iff, !bool_decide_eq_true, count_zero.
  tauto.
Qed.
End PlaneMatching.

(** C3. [IsValidForLayer] answers true exactly when: a plane without
    rotation property gets the identity transform and a plane with one
    gets a transform that is a key of its transform map; a plane without
    alpha property gets alpha 0xffff; the blend mode is a key of the
    plane's blend map or is none or pre-multiplied; and the pixel format is
    one of the plane's formats. *)
Theorem IsValidForLayer_iff (p : DrmPlane.t) (layer : DrmHwcLayer) :
  DrmPlane.IsValidForLayer p layer = true
  ↔ (prop_id (DrmPlane.rotation_property_ p) = 0%N →
       transform layer = Transform.kIdentity)
    ∧ (prop_id (DrmPlane.rotation_property_ p) ≠ 0%N →
       is_Some (DrmPlane.transform_enum_map_ p !! transform layer))
    ∧ (prop_id (DrmPlane.alpha_property_ p) = 0%N → alpha layer = 0xffff%N)
    ∧ (is_Some (DrmPlane.blending_enum_map_ p !! blending layer)
       ∨ blending layer = kNone ∨ blending layer = kPreMult)
    ∧ buffer_format layer ∈ DrmPlane.formats_ p.
Proof.
  pose proof (rotation_ok p layer) as Hrot.
  pose proof (alpha_ok p layer) as Halpha.
  pose proof (blending_ok p layer) as Hblend.
  unfold DrmPlane.IsValidForLayer, DrmPlane.IsFormatSupported.
  destruct (if negb (prop_present (DrmPlane.rotation_property_ p)) then _ else _).
  { split; [done|]. intros (H1 & H2 & _).
    assert (true = false) by (apply Hrot; done). done. }
  destruct (_ && negb (alpha layer =? 65535)%N).
  { split; [done|]. intros (_ & _ & H & _).
    assert (true = false) by (by apply Halpha). done. }
  destruct (_ && _ && negb (bool_decide (blending layer = kPreMult))).
  { split; [done|]. intros (_ & _ & _ & H & _).
    assert (true = false) by (by apply Hblend). done. }
  destruct (bool_decide_reflect (buffer_format layer ∈ DrmPlane.formats_ p)) as [Hf|Hf];
    simpl.
  - split; [|done]. intros _.
    destruct Hrot as [[? ?] _]; [done|]. destruct Halpha as [? _].
    destruct Hblend as [? _]. auto 10.
  - split; [done|]. intros (_ & _ & _ & _ & ?). done.
Qed.

(** ** DrmDevice: binding an encoder to a CRTC *)

Section EncoderBinding.
Import DrmDevice DeviceSpec.

Lemma crtc_can_bind_lookup d display crtc c :
  crtcs_ d !! crtc = Some c →
  crtc_can_bind d display crtc ↔ DrmCrtc.can_bind c display = true.
Proof.
  intros Hc. unfold crtc_can_bind. split.
  - intros (c' & Hc' & Hb). congruence.
  - eauto.
Qed.

(** The search stops at the first CRTC that is neither the current one
    nor unable to bind. *)
Lemma first_possible_crtc_found d display current before crtc after :
  Forall (λ x, is_Some (crtcs_ d !! x)) before →
  Forall (λ x, Some x = current ∨ ¬ crtc_can_bind d display x) before →
  Some crtc ≠ current → crtc_can_bind d display crtc →
  first_possible_crtc (crtcs_ d) display current (before ++ crtc :: after)
  = Some (Some crtc).
Proof.
  intros Hvalid Hskip Hne Hcan.
  induction before as [|x before IH]; simpl.
  - destruct (decide (Some crtc = current)); [done|].
    destruct Hcan as (c & Hc & Hb). rewrite Hc. simpl. by rewrite Hb.
  - inversion Hvalid as [|? ? [c Hc] Hvalid']; subst.
    inversion Hskip as [|? ? Hx Hskip']; subst.
    destruct (decide (Some x = current)); [by apply IH|].
    rewrite Hc. simpl.
    destruct (DrmCrtc.can_bind c display) eqn:Hb; [|by apply IH].
    destruct Hx as [?|Hx]; [done|]. exfalso. apply Hx.
    by apply (crtc_can_bind_lookup _ _ _ c).
Qed.

Lemma first_possible_crtc_none d display current possible :
  Forall (λ x, is_Some (crtcs_ d !! x)) possible →
  Forall (λ x, Some x = current ∨ ¬ crtc_can_bind d display x) possible →
  first_possible_crtc (crtcs_ d) display current possible = Some None.
Proof.
  intros Hvalid Hskip.
  induction possible as [|x possible IH]; simpl; [done|].
  inversion Hvalid as [|? ? [c Hc] Hvalid']; subst.
  inversion Hskip as [|? ? Hx Hskip']; subst.
  destruct (decide (Some x = current)); [by apply IH|].
  rewrite Hc. simpl.
  destruct (DrmCrtc.can_bind c display) eqn:Hb; [|by apply IH].
  destruct Hx as [?|Hx]; [done|]. exfalso. apply Hx.
  by apply (crtc_can_bind_lookup _ _ _ c).
Qed.

(** With valid pointers the search always ends, on a CRTC of the list
    that can bind or on none. *)
Lemma first_possible_crtc_total d display current possible :
  Forall (λ x, is_Some (crtcs_ d !! x)) possible →
  ∃ r, first_possible_crtc (crtcs_ d) display current possible = Some r
       ∧ ∀ crtc, r = Some crtc → crtc ∈ possible ∧ crtc_can_bind d display crtc.
Proof.
  induction 1 as [|x possible [c Hc] _ (r & IH & Hr)]; simpl.
  - exists None. done.
  - destruct (decide (Some x = current)).
    { exists r. split; [done|]. intros crtc Hcrtc.
      destruct (Hr crtc Hcrtc). split; [by apply list_elem_of_further | done]. }
    rewrite Hc. simpl. destruct (DrmCrtc.can_bind c display) eqn:Hb.
    + exists (Some x). split; [done|]. intros crtc [= <-].
      split; [apply list_elem_of_here | by exists c].
    + exists r. split; [done|]. intros crtc Hcrtc.
      destruct (Hr crtc Hcrtc). split; [by apply list_elem_of_further | done].
Qed.

(** What a bind writes: the display of the CRTC, and the CRTC and the
    display of the encoder; nothing else. *)
Lemma bind_crtc_effect d display enc crtc e c :
  encoders_ d !! enc = Some e → crtcs_ d !! crtc = Some c →
  let d' := bind_crtc display enc crtc d in
  crtcs_ d' = <[crtc := DrmCrtc.set_display display c]> (crtcs_ d)
  ∧ encoders_ d' = <[enc := DrmEncoder.set_crtc crtc display e]> (encoders_ d)
  ∧ connectors_ d' = connectors_ d
  ∧ writeback_connectors_ d' = writeback_connectors_ d
  ∧ displays_ d' = displays_ d.
Proof.
  intros He Hc d'. subst d'. unfold bind_crtc. simpl.
  split; [|split; [|done]].
  - apply list_eq. intros i.
    destruct (decide (crtc = i)) as [<-|Hi].
    + rewrite list_lookup_alter_eq, Hc. simpl.
      rewrite list_lookup_insert_eq; [done|]. by eapply lookup_lt_Some.
    + rewrite list_lookup_alter_ne by done. by rewrite list_lookup_insert_ne.
  - apply list_eq. intros i.
    destruct (decide (enc = i)) as [<-|Hi].
    + rewrite list_lookup_alter_eq, He. simpl.
      rewrite list_lookup_insert_eq; [done|]. by eapply lookup_lt_Some.
    + rewrite list_lookup_alter_ne by done. by rewrite list_lookup_insert_ne.
Qed.
End EncoderBinding.

(** C6. For an encoder whose pointers are valid, [TryEncoderForDisplay]
    binds the current CRTC when there is one and it can bind the display;
    otherwise it binds the first CRTC of the possible list that is not the
    current one and is unbound or bound to this display; and when every
    CRTC of the list is the current one or cannot bind, it returns
    [-EAGAIN] and the device is unchanged.  It always returns, with 0 or
    [-EAGAIN].  A bind sets the display of that CRTC and the CRTC of the
    encoder and writes nothing else.  A CRTC can bind a display exactly
    when it is unbound or bound to that display. *)
Theorem TryEncoderForDisplay_binds_first_free
    (d : DrmDevice.t) (display : Z) (enc : DrmEncoderPtr) (e : DrmEncoder.t) :
  DrmDevice.encoders_ d !! enc = Some e →
  (∀ crtc, DrmEncoder.crtc e = Some crtc → is_Some (DrmDevice.crtcs_ d !! crtc)) →
  Forall (λ crtc, is_Some (DrmDevice.crtcs_ d !! crtc)) (DrmEncoder.possible_crtcs e) →
  let try := DrmDevice.TryEncoderForDisplay display enc d in
  let can := DeviceSpec.crtc_can_bind d display in
  let skipped crtc := Some crtc = DrmEncoder.crtc e ∨ ¬ can crtc in
  let current_fails := ∀ crtc, DrmEncoder.crtc e = Some crtc → ¬ can crtc in
  (∀ crtc, DrmEncoder.crtc e = Some crtc → can crtc →
     try = Some (0, DrmDevice.bind_crtc display enc crtc d))
  ∧ (current_fails →
     ∀ before crtc after,
       DrmEncoder.possible_crtcs e = before ++ crtc :: after →
       Forall skipped before → Some crtc ≠ DrmEncoder.crtc e → can crtc →
       try = Some (0, DrmDevice.bind_crtc display enc crtc d))
  ∧ (current_fails → Forall skipped (DrmEncoder.possible_crtcs e) →
     try = Some (- EAGAIN, d))
  ∧ (∃ ret d', try = Some (ret, d') ∧ (ret = 0 ∨ ret = - EAGAIN ∧ d' = d))
  ∧ (∀ crtc c, DrmDevice.crtcs_ d !! crtc = Some c →
       let d' := DrmDevice.bind_crtc display enc crtc d in
       DrmDevice.crtcs_ d' = <[crtc := DrmCrtc.set_display display c]> (DrmDevice.crtcs_ d)
       ∧ DrmDevice.encoders_ d'
         = <[enc := DrmEncoder.set_crtc crtc display e]> (DrmDevice.encoders_ d)
       ∧ DrmDevice.connectors_ d' = DrmDevice.connectors_ d
       ∧ DrmDevice.writeback_connectors_ d' = DrmDevice.writeback_connectors_ d
       ∧ DrmDevice.displays_ d' = DrmDevice.displays_ d)
  ∧ (∀ c, DrmCrtc.can_bind c display = true
          ↔ DrmCrtc.display c = -1 ∨ DrmCrtc.display c = display).
Proof.
  intros He Hcur Hposs try can skipped current_fails.
  assert (Hfail : current_fails →
            try = (found ← DrmDevice.first_possible_crtc (DrmDevice.crtcs_ d) display
                             (DrmEncoder.crtc e) (DrmEncoder.possible_crtcs e);
                   match found with
                   | Some crtc => Some (0, DrmDevice.bind_crtc display enc crtc d)
                   | None => Some (- EAGAIN, d)
                   end)).
  { intros Hf. subst try. unfold DrmDevice.TryEncoderForDisplay. rewrite He. simpl.
    destruct (DrmEncoder.crtc e) as [crtc|] eqn:Hc; [|done].
    destruct (Hcur crtc eq_refl) as [c Hlk]. rewrite Hlk. simpl.
    destruct (DrmCrtc.can_bind c display) eqn:Hb; [|done].
    exfalso. apply (Hf crtc eq_refl). by exists c. }
  split; [|split; [|split; [|split; [|split]]]].
  - intros crtc Hc (c & Hlk & Hb). subst try.
    unfold DrmDevice.TryEncoderForDisplay. rewrite He. simpl.
    rewrite Hc, Hlk. simpl. by rewrite Hb.
  - intros Hf before crtc after Hsplit Hskip Hne Hcan.
    rewrite (Hfail Hf), Hsplit.
    rewrite first_possible_crtc_found; try done.
    rewrite Hsplit in Hposs. by apply Forall_app in Hposs as [? _].
  - intros Hf Hskip. rewrite (Hfail Hf).
    by rewrite first_possible_crtc_none.
  - subst try. unfold DrmDevice.TryEncoderForDisplay. rewrite He. simpl.
    destruct (first_possible_crtc_total d display (DrmEncoder.crtc e)
                (DrmEncoder.possible_crtcs e) Hposs) as (r & Hr & _).
    assert (Hsearch :
      ∃ ret d',
        match r with
        | Some crtc => Some (0, DrmDevice.bind_crtc display enc crtc d)
        | None => Some (- EAGAIN, d)
        end = Some (ret, d') ∧ (ret = 0 ∨ ret = - EAGAIN ∧ d' = d)).
    { destruct r; eexists _, _; (split; [reflexivity|]); [by left | by right]. }
    destruct (DrmEncoder.crtc e) as [crtc|] eqn:Hc; simpl.
    + destruct (Hcur crtc eq_refl) as [c Hlk]. rewrite Hlk. simpl.
      destruct (DrmCrtc.can_bind c display).
      * eexists _, _. split; [reflexivity | by left].
      * rewrite Hr. done.
    + rewrite Hr. done.
  - intros crtc c Hlk. by apply (bind_crtc_effect d display enc crtc e c).
  - intros c. unfold DrmCrtc.can_bind, DrmCrtc.display.
    rewrite orb_true_iff, !Z.eqb_eq. done.
Qed.

(** Encoder 0 of the enumerated device has no CRTC yet; its first
    possible CRTC is free and becomes display 0. *)
Lemma TryEncoderForDisplay_binds_first_free_witness :
  DrmDevice.TryEncoderForDisplay 0 0%nat DeviceExamples.hdmi_then_edp
  = Some (0, DrmDevice.bind_crtc 0 0%nat 0%nat DeviceExamples.hdmi_then_edp).
Proof.
  destruct (TryEncoderForDisplay_binds_first_free DeviceExamples.hdmi_then_edp 0 0%nat
              (DeviceExamples.encoder 51)) as (_ & Hfirst & _).
  - reflexivity.
  - intros crtc Hcrtc. discriminate Hcrtc.
  - repeat constructor; by eexists.
  - apply (Hfirst ltac:(intros crtc Hcrtc; discriminate Hcrtc) [] 0%nat [1%nat]).
    + reflexivity.
    + constructor.
    + discriminate.
    + eexists. split; reflexivity.
Defined.

(** ** DrmDevice: attaching a writeback connector *)

Section Writeback.
Import DrmDevice DeviceSpec.

Lemma alter_as_insert {A} (f : A → A) (l : list A) i x :
  l !! i = Some x → alter f i l = <[i := f x]> l.
Proof.
  intros Hx. apply list_eq. intros j.
  destruct (decide (i = j)) as [<-|Hj].
  - rewrite list_lookup_alter_eq, Hx. simpl.
    rewrite list_lookup_insert_eq; [done|]. by eapply lookup_lt_Some.
  - rewrite list_lookup_alter_ne by done. by rewrite list_lookup_insert_ne.
Qed.

Lemma GetWritebackConnectorForDisplay_None d display :
  GetWritebackConnectorForDisplay d display = None ↔ writebacks_of d display = [].
Proof.
  unfold GetWritebackConnectorForDisplay, writebacks_of.
  rewrite fmap_None, list_find_None. split.
  - intros Hall. induction Hall as [|x l Hx _ IH]; [done|].
    by rewrite filter_cons_False.
  - intros Hnil. apply Forall_forall. intros x Hx Hd.
    assert (x ∈ filter (λ conn, DrmConnector.display conn = display)
                       (writeback_connectors_ d)) as Hin
      by (by apply list_elem_of_filter).
    rewrite Hnil in Hin. by apply elem_of_nil in Hin.
Qed.

Lemma writeback_enc_loop_total d display_crtc display possible :
  Forall (encoder_ok d) possible →
  ∃ r, writeback_enc_loop (encoders_ d) display_crtc display possible = Some r
       ∧ ∀ enc, r = Some enc → enc ∈ possible.
Proof.
  induction 1 as [|enc possible (e & He & _) _ (r & IH & Hr)]; simpl.
  { exists None. done. }
  rewrite He. simpl.
  destruct (writeback_crtc_loop _ _ _ _).
  - eexists. split; [reflexivity|]. intros enc' [= <-]. apply list_elem_of_here.
  - exists r. split; [done|]. intros enc' Henc'.
    apply list_elem_of_further. by apply Hr.
Qed.

(** The connector the loop settles on, if any, is one without display,
    and the encoder is one of its possible encoders. *)
Lemma writeback_conn_loop_total d display_crtc display wbs : ∀ i,
  Forall (connector_ok d) wbs →
  ∃ r, writeback_conn_loop (encoders_ d) display_crtc display i wbs = Some r
       ∧ ∀ j enc, r = Some (j, enc) →
           ∃ wc, (i ≤ j)%nat ∧ wbs !! (j - i)%nat = Some wc
                 ∧ DrmConnector.display wc < 0
                 ∧ enc ∈ DrmConnector.possible_encoders wc.
Proof.
  induction wbs as [|wc wbs IH]; intros i Hok; simpl.
  - exists None. done.
  - inversion Hok as [|? ? [_ Hencs] Hok']; subst.
    assert (Hrest : ∃ r,
              writeback_conn_loop (encoders_ d) display_crtc display (S i) wbs = Some r
              ∧ ∀ j enc, r = Some (j, enc) →
                  ∃ wc', (i ≤ j)%nat ∧ (wc :: wbs) !! (j - i)%nat = Some wc'
                         ∧ DrmConnector.display wc' < 0
                         ∧ enc ∈ DrmConnector.possible_encoders wc').
    { destruct (IH (S i) Hok') as (r & Hr & Hj). exists r. split; [done|].
      intros j enc Hjr. destruct (Hj j enc Hjr) as (wc' & Hle & Hlk & Hneg & Hin).
      exists wc'. split; [lia|]. split; [|done].
      replace (j - i)%nat with (S (j - S i)) by lia. done. }
    destruct (Z.leb_spec 0 (DrmConnector.display wc)) as [Hd|Hd]; [exact Hrest|].
    destruct (writeback_enc_loop_total d display_crtc display _ Hencs)
      as (found & Hf & Hfin).
    rewrite Hf. simpl. destruct found as [enc|]; [|exact Hrest].
    eexists. split; [done|]. intros j enc' [= <- <-].
    exists wc. rewrite Nat.sub_diag. repeat split; try done. by apply Hfin.
Qed.

(** Giving a display to a connector that had none adds it to the
    writebacks of that display and changes no other display's. *)
Lemma writebacks_after_insert (wbs : list DrmConnector.t) i wc wc' display :
  wbs !! i = Some wc → DrmConnector.display wc < 0 → 0 ≤ display →
  (length (filter (λ conn, DrmConnector.display conn = display) (<[i := wc']> wbs))
   = length (filter (λ conn, DrmConnector.display conn = display) wbs)
     + (if decide (DrmConnector.display wc' = display) then 1 else 0))%nat.
Proof.
  intros Hi Hneg Hpos.
  rewrite insert_take_drop by (by eapply lookup_lt_Some).
  assert (Hmid : filter (λ conn, DrmConnector.display conn = display) wbs
                 = filter (λ conn, DrmConnector.display conn = display)
                          (take i wbs ++ wc :: drop (S i) wbs))
    by (by rewrite take_drop_middle).
  rewrite Hmid, !filter_app, !filter_cons, !length_app.
  destruct (decide (DrmConnector.display wc = display)); [lia|].
  destruct (decide (DrmConnector.display wc' = display)); simpl; lia.
Qed.

(** [UpdateModes] refreshes state and modes; display, encoder and
    possible encoders of the connector are not touched. *)
Lemma UpdateModes_keeps reply mode_id conn :
  let conn' := (DrmConnector.UpdateModes reply mode_id conn).1.2 in
  DrmConnector.display conn' = DrmConnector.display conn
  ∧ DrmConnector.encoder conn' = DrmConnector.encoder conn
  ∧ DrmConnector.possible_encoders conn' = DrmConnector.possible_encoders conn.
Proof.
  unfold DrmConnector.UpdateModes. destruct reply as [k|]; [|done].
  by destruct (DrmConnector.update_modes_loop _ _ _ _ _) as [[new_modes n] p].
Qed.

(** What the bind of a writeback connector writes. *)
Lemma bind_writeback_effect drmModeGetConnector d display_crtc display j wenc wc :
  writeback_connectors_ d !! j = Some wc →
  let d' := bind_writeback drmModeGetConnector display_crtc display j wenc d in
  ∃ wc',
    writeback_connectors_ d' = <[j := wc']> (writeback_connectors_ d)
    ∧ DrmConnector.display wc' = display
    ∧ DrmConnector.encoder wc' = Some wenc
    ∧ DrmConnector.possible_encoders wc' = DrmConnector.possible_encoders wc
    ∧ encoders_ d'
      = alter (DrmEncoder.set_crtc display_crtc display) wenc (encoders_ d)
    ∧ connectors_ d' = connectors_ d
    ∧ crtcs_ d' = crtcs_ d
    ∧ displays_ d' = displays_ d.
Proof.
  intros Hj d'. subst d'. unfold bind_writeback. simpl. rewrite Hj.
  pose proof (UpdateModes_keeps (drmModeGetConnector (DrmConnector.id_ wc))
                (mode_id_ d)
                (DrmConnector.set_display display (DrmConnector.set_encoder wenc wc)))
    as Hkeeps.
  destruct (DrmConnector.UpdateModes _ _ _) as [[ret wc'] mode_id].
  simpl in Hkeeps. destruct Hkeeps as (Hd & He & Hp).
  exists wc'. by repeat split.
Qed.

Lemma fresh_no_writebacks d :
  Forall (λ wc, DrmConnector.display wc = -1) (writeback_connectors_ d) →
  one_writeback_per_display d.
Proof.
  intros Hfresh display Hdisplay. unfold writebacks_of.
  assert (Hnil : ∀ l, Forall (λ wc, DrmConnector.display wc = -1) l →
            filter (λ conn, DrmConnector.display conn = display) l = []).
  { induction 1 as [|wc wbs Hwc _ IH]; [done|].
    rewrite filter_cons_False; [done|]. rewrite Hwc. lia. }
  rewrite Hnil by done. simpl. lia.
Qed.
End Writeback.

(** C7. For a connector with a pipe, on a device whose writeback
    connectors hold valid pointers, [AttachWriteback] returns; when the
    display of the connector's CRTC already has a writeback connector it
    returns [-EINVAL] and the device is unchanged, as on every failure; on
    success exactly one writeback connector, one that had no display,
    receives the display of the CRTC, and connectors, CRTCs and the display
    table are as before; either way no display ends up with two writeback
    connectors if none had before.  A device fresh from enumeration has no
    writeback connector attached at all. *)
Theorem AttachWriteback_one_per_display
    (drmModeGetConnector : N → option drmModeConnector)
    (d : DrmDevice.t) (display_conn : nat) (display_crtc : DrmCrtcPtr) (c : DrmCrtc.t) :
  DeviceSpec.has_pipe d display_conn display_crtc c →
  Forall (DeviceSpec.connector_ok d) (DrmDevice.writeback_connectors_ d) →
  (∃ ret d',
     DrmDevice.AttachWriteback drmModeGetConnector display_conn d = Some (ret, d')
     ∧ (DeviceSpec.writebacks_of d (DrmCrtc.display c) ≠ [] →
        ret = - EINVAL ∧ d' = d)
     ∧ (ret ≠ 0 → ret = - EINVAL ∧ d' = d)
     ∧ (ret = 0 →
        ∃ i wc wc',
          DrmDevice.writeback_connectors_ d !! i = Some wc
          ∧ DrmConnector.display wc < 0
          ∧ DrmConnector.display wc' = DrmCrtc.display c
          ∧ DrmDevice.writeback_connectors_ d'
            = <[i := wc']> (DrmDevice.writeback_connectors_ d)
          ∧ DrmDevice.connectors_ d' = DrmDevice.connectors_ d
          ∧ DrmDevice.crtcs_ d' = DrmDevice.crtcs_ d
          ∧ DrmDevice.displays_ d' = DrmDevice.displays_ d)
     ∧ (DeviceSpec.one_writeback_per_display d →
        DeviceSpec.one_writeback_per_display d'))
  ∧ (Forall (λ wc, DrmConnector.display wc = -1) (DrmDevice.writeback_connectors_ d) →
     DeviceSpec.one_writeback_per_display d).
Proof.
  intros (conn & enc & e & Hconn & Henc & He & Hcrtc & Hc) Hok. split.
  2:{ apply fresh_no_writebacks. }
  unfold DrmDevice.AttachWriteback, DrmConnector.encoder, DrmEncoder.crtc in *.
  rewrite Hconn. simpl. rewrite Henc. simpl. rewrite He. simpl.
  rewrite Hcrtc. simpl. rewrite Hc. simpl.
  destruct (DrmDevice.GetWritebackConnectorForDisplay d (DrmCrtc.display c))
    as [attached|] eqn:Hget.
  { exists (- EINVAL), d. repeat split; done. }
  apply GetWritebackConnectorForDisplay_None in Hget.
  destruct (writeback_conn_loop_total d display_crtc (DrmCrtc.display c)
              (DrmDevice.writeback_connectors_ d) 0%nat Hok) as (r & Hr & Hfound).
  rewrite Hr. simpl. destruct r as [[j wenc]|].
  2:{ exists (- EINVAL), d. repeat split; done. }
  destruct (Hfound j wenc eq_refl) as (wc & _ & Hj & Hneg & _).
  rewrite Nat.sub_0_r in Hj.
  destruct (bind_writeback_effect drmModeGetConnector d display_crtc
              (DrmCrtc.display c) j wenc wc Hj)
    as (wc' & Hwbs & Hwc' & _ & _ & _ & Hconns & Hcrtcs & Hdisplays).
  eexists 0, _. split; [reflexivity|]. split; [by intros ?|]. split; [done|].
  split.
  - intros _. exists j, wc, wc'. repeat split; done.
  - intros Hinv display Hdisplay. unfold DeviceSpec.writebacks_of. rewrite Hwbs.
    rewrite (writebacks_after_insert _ j wc wc' display Hj Hneg Hdisplay).
    destruct (decide (DrmConnector.display wc' = display)) as [Heq|Hne].
    + rewrite <- Heq, Hwc'. unfold DeviceSpec.writebacks_of in Hget.
      rewrite Hget. simpl. lia.
    + specialize (Hinv display Hdisplay). unfold DeviceSpec.writebacks_of in Hinv. lia.
Qed.

(** The panel of the example is display 0 on CRTC 1; the free writeback
    sink joins it, and a second attempt is turned down. *)
Lemma AttachWriteback_one_per_display_witness :
  ∃ d', DrmDevice.AttachWriteback DeviceExamples.connection_unknown 0%nat
          DeviceExamples.panel_piped = Some (0, d')
        ∧ DrmConnector.display <$> DrmDevice.writeback_connectors_ d' = [0]
        ∧ DrmDevice.AttachWriteback DeviceExamples.connection_unknown 0%nat d'
          = Some (- EINVAL, d').
Proof.
  destruct (AttachWriteback_one_per_display DeviceExamples.connection_unknown
              DeviceExamples.panel_piped 0%nat 1%nat (DrmCrtc.mk 42 1 0))
    as [(ret & d' & Hrun & _) _].
  - eexists _, _, _. repeat split; reflexivity.
  - repeat constructor; try discriminate.
    eexists. split; [reflexivity|]. split; [discriminate|].
    repeat constructor; by eexists.
  - exists (DrmDevice.bind_writeback DeviceExamples.connection_unknown 1%nat 0 0%nat
              2%nat DeviceExamples.panel_piped).
    repeat split; reflexivity.
Defined.

(** ** DrmDevice: the primary display candidates *)

Section PrimaryCandidates.
Import DrmDevice DeviceSpec.

(** Without a match the loop over the preference list moves nothing. *)
Lemma place_ordered_no_match display_order (cands : list Candidate) curr :
  (∀ name conn, name ∈ display_order → conn ∈ cands →
     DrmConnector.name conn.2 ≠ name) →
  place_ordered display_order cands curr = Some (cands, curr).
Proof.
  induction display_order as [|name rest IH]; intros Hno; simpl; [done|].
  assert (Hfind : list_find (λ conn : Candidate, DrmConnector.name conn.2 = name)
                            cands = None).
  { apply list_find_None, Forall_forall. intros conn Hconn.
    apply Hno; [apply list_elem_of_here | done]. }
  rewrite Hfind. apply IH. intros name' conn Hname Hconn.
  apply Hno; [by apply list_elem_of_further | done].
Qed.

(** With a preference list that names nothing twice the loop never
    swaps past the end; it keeps the length and every property the
    candidates share. *)
Lemma place_ordered_total (P : Candidate → Prop) display_order :
  ∀ (cands : list Candidate) curr (seen : list string),
    NoDup display_order →
    (∀ name, name ∈ display_order → name ∉ seen) →
    (curr ≤ length cands)%nat →
    (∀ i conn, (i < curr)%nat → cands !! i = Some conn →
       DrmConnector.name conn.2 ∈ seen) →
    Forall P cands →
    ∃ cands' curr',
      place_ordered display_order cands curr = Some (cands', curr')
      ∧ (curr' ≤ length cands')%nat ∧ Forall P cands'.
Proof.
  induction display_order as [|name rest IH];
    intros cands curr seen Hnd Hfresh Hcurr Hprefix HP; simpl.
  { exists cands, curr. done. }
  apply NoDup_cons in Hnd as [Hname Hnd].
  destruct (list_find _ cands) as [[it x]|] eqn:Hfind.
  2:{ apply (IH cands curr seen); try done.
      intros name' Hin. apply Hfresh. by apply list_elem_of_further. }
  apply list_find_Some in Hfind as (Hit & Hx & _).
  assert (Hge : (curr ≤ it)%nat).
  { destruct (decide (curr ≤ it)%nat) as [|Hlt]; [done|]. exfalso.
    apply (Hfresh name); [apply list_elem_of_here|].
    rewrite <- Hx. apply (Hprefix it x); [lia | done]. }
  pose proof (lookup_lt_Some _ _ _ Hit) as Hlen.
  destruct (lookup_lt_is_Some_2 cands curr ltac:(lia)) as [y Hy].
  unfold iter_swap. rewrite Hit. simpl. rewrite Hy. simpl.
  apply (IH _ (S curr) (name :: seen)); try done.
  - intros name' Hin. rewrite not_elem_of_cons. split.
    + intros ->. done.
    + apply Hfresh. by apply list_elem_of_further.
  - rewrite !length_insert. lia.
  - intros i conn Hi Hlk.
    destruct (decide (i = curr)) as [->|Hne].
    + destruct (decide (it = curr)) as [->|Hitc].
      * rewrite list_lookup_insert_eq in Hlk by (rewrite length_insert; lia).
        injection Hlk as <-. rewrite Hy in Hit. injection Hit as ->.
        rewrite Hx. apply list_elem_of_here.
      * rewrite list_lookup_insert_ne in Hlk by done.
        rewrite list_lookup_insert_eq in Hlk by lia.
        injection Hlk as <-. rewrite Hx. apply list_elem_of_here.
    + rewrite list_lookup_insert_ne in Hlk by lia.
      rewrite list_lookup_insert_ne in Hlk by lia.
      apply list_elem_of_further. apply (Hprefix i conn); [lia | done].
  - apply Forall_insert; [apply Forall_insert; [done|]|].
    + eapply Forall_lookup_1; [exact HP | exact Hit].
    + eapply Forall_lookup_1; [exact HP | exact Hy].
Qed.
End PrimaryCandidates.

Section PrimarySelection.
Import DrmDevice DeviceSpec.
Variable std_partition : (Candidate → bool) → list Candidate → list Candidate.

Lemma initial_candidates connectors :
  Forall (connected_candidate connectors)
         (filter (λ conn : Candidate, DrmConnector.state conn.2 = DRM_MODE_CONNECTED)
                 (imap pair connectors)).
Proof.
  apply Forall_forall. intros cand Hcand.
  apply list_elem_of_filter in Hcand as [Hstate Hin].
  apply elem_of_lookup_imap in Hin as (i & conn & -> & Hlk). by split.
Qed.

(** No wildcard at the end of the list and no connected connector named
    in it leave no candidate. *)
Lemma make_primary_display_candidates_no_match connectors display_order back :
  last display_order = Some back → back ≠ "..."%string →
  (∀ conn, conn ∈ connectors →
     DrmConnector.state conn = DRM_MODE_CONNECTED →
     DrmConnector.name conn ∉ display_order) →
  make_primary_display_candidates std_partition connectors display_order = Some [].
Proof.
  intros Hlast Hback Hno. unfold make_primary_display_candidates.
  rewrite Hlast. simpl. rewrite place_ordered_no_match.
  - simpl. rewrite bool_decide_eq_false_2 by done. by rewrite take_0.
  - intros name cand Hname Hcand Heq.
    pose proof (initial_candidates connectors) as Hall.
    rewrite Forall_forall in Hall. destruct (Hall cand Hcand) as [Hlk Hst].
    apply (Hno cand.2); [|done|by rewrite Heq].
    apply list_elem_of_lookup. eauto.
Qed.

(** With a preference list that names nothing twice the selection
    returns, and every candidate is a connected connector. *)
Lemma make_primary_display_candidates_total connectors display_order :
  partition_contract std_partition →
  display_order ≠ [] → NoDup display_order →
  ∃ cands,
    make_primary_display_candidates std_partition connectors display_order
    = Some cands
    ∧ Forall (connected_candidate connectors) cands.
Proof.
  intros Hpart Hne Hnd. unfold make_primary_display_candidates.
  destruct (last display_order) as [back|] eqn:Hlast.
  2:{ by apply last_None in Hlast. }
  simpl.
  destruct (place_ordered_total (connected_candidate connectors) display_order
              (filter (λ conn : Candidate,
                         DrmConnector.state conn.2 = DRM_MODE_CONNECTED)
                      (imap pair connectors)) 0%nat [] Hnd)
    as (cands & curr & Hplace & _ & Hall).
  - intros name _ Hin. by apply elem_of_nil in Hin.
  - lia.
  - intros i conn Hi. lia.
  - apply initial_candidates.
  - rewrite Hplace. simpl.
    destruct (bool_decide (back = "..."%string)); eexists; (split; [reflexivity|]).
    + apply Forall_app. split; [by apply Forall_take|].
      rewrite (Hpart _ (drop curr cands)). by apply Forall_drop.
    + by apply Forall_take.
Qed.
End PrimarySelection.

(** ** DrmDevice: numbering the displays *)

Section DisplayNumbers.
Import DrmDevice DeviceSpec.

Lemma count_display_class_cons conn rest :
  count_display_class (conn :: rest)
  = if display_class conn then S (count_display_class rest)
    else count_display_class rest.
Proof.
  unfold count_display_class. rewrite filter_cons.
  destruct (display_class conn); by case_decide.
Qed.

(** On connectors without display the loop numbers exactly the
    connectors of internal or external class, whatever [found_primary]
    says, and enters each number in the display table. *)
Lemma assign_displays_fresh connectors : ∀ num found displays,
  Forall (λ conn, DrmConnector.display conn < 0) connectors →
  (assign_displays connectors num found displays).1.1.1
    = number_displays connectors num
  ∧ (assign_displays connectors num found displays).2
    = add_displays (count_display_class connectors) num displays.
Proof.
  induction connectors as [|conn rest IH]; intros num found displays Hfresh;
    [done|].
  inversion Hfresh as [|? ? Hneg Hrest]; subst.
  rewrite count_display_class_cons. simpl.
  change (DrmConnector.external conn || DrmConnector.internal conn)
    with (display_class conn).
  destruct (display_class conn); simpl.
  - assert (Hlt : (DrmConnector.display conn <? 0) = true) by (by apply Z.ltb_lt).
    rewrite Hlt.
    assert (Hsame :
      (if negb found
       then let '(r, n, f, m) :=
              assign_displays rest (num + 1) true (<[num:=num]> displays) in
            (DrmConnector.set_display num conn :: r, n, f, m)
       else let '(r, n, f, m) :=
              assign_displays rest (num + 1) found (<[num:=num]> displays) in
            (DrmConnector.set_display num conn :: r, n, f, m))
      = let '(r, n, f, m) :=
          assign_displays rest (num + 1) (found || true) (<[num:=num]> displays) in
        (DrmConnector.set_display num conn :: r, n, f, m)).
    { by destruct found. }
    rewrite Hsame.
    destruct (IH (num + 1) (found || true) (<[num:=num]> displays) Hrest) as [IH1 IH2].
    destruct (assign_displays rest (num + 1) (found || true) (<[num:=num]> displays))
      as [[[r n] f] m]. simpl in *. by subst.
  - destruct (IH num found displays Hrest) as [IH1 IH2].
    destruct (assign_displays rest num found displays) as [[[r n] f] m].
    simpl in *. by subst.
Qed.

(** The loop gives every connector of internal or external class a
    display, and leaves the others as they are. *)
Lemma assign_displays_by_class connectors : ∀ num found displays,
  0 ≤ num →
  Forall (λ conn, 0 ≤ DrmConnector.display conn →
                  DrmConnector.state conn = DRM_MODE_CONNECTED) connectors →
  Forall numbered_by_class (assign_displays connectors num found displays).1.1.1.
Proof.
  induction connectors as [|conn rest IH]; intros num found displays Hnum Hall;
    simpl; [constructor|].
  inversion Hall as [|? ? Hconn Hrest]; subst.
  change (DrmConnector.external conn || DrmConnector.internal conn)
    with (display_class conn).
  assert (Hset : numbered_by_class (DrmConnector.set_display num conn)
                 ∨ display_class conn = false).
  { destruct (display_class conn) eqn:Hcl; [left|by right].
    split; [by right | intros _; simpl; lia]. }
  destruct (display_class conn) eqn:Hcl.
  - destruct Hset as [Hset|?]; [|done].
    destruct (negb found).
    + specialize (IH (num + 1) true (<[num:=num]> displays) ltac:(lia) Hrest).
      destruct (assign_displays rest (num + 1) true (<[num:=num]> displays))
        as [[[r n] f] m]. simpl in *. by constructor.
    + destruct (Z.ltb_spec (DrmConnector.display conn) 0).
      * specialize (IH (num + 1) found (<[num:=num]> displays) ltac:(lia) Hrest).
        destruct (assign_displays rest (num + 1) found (<[num:=num]> displays))
          as [[[r n] f] m]. simpl in *. by constructor.
      * specialize (IH num found displays Hnum Hrest).
        destruct (assign_displays rest num found displays) as [[[r n] f] m].
        simpl in *. constructor; [|done]. split; [by right | done].
  - specialize (IH num found displays Hnum Hrest).
    destruct (assign_displays rest num found displays) as [[[r n] f] m].
    simpl in *. constructor; [|done].
    split; [intros ?; left; auto | by rewrite Hcl].
Qed.

Lemma size_add_displays n : ∀ next (displays : gmap Z Z),
  (∀ k, is_Some (displays !! k) → k < next) →
  size (add_displays n next displays) = (size displays + n)%nat.
Proof.
  induction n as [|n IH]; intros next displays Hbelow; simpl; [lia|].
  rewrite IH.
  - rewrite map_size_insert_None; [lia|].
    destruct (displays !! next) eqn:Hk; [|done].
    specialize (Hbelow next ltac:(eauto)). lia.
  - intros k [v Hk]. destruct (decide (next = k)) as [<-|Hne]; [lia|].
    rewrite lookup_insert_ne in Hk by done.
    specialize (Hbelow k ltac:(eauto)). lia.
Qed.
End DisplayNumbers.

(** ** DrmDevice: what the pipe set-up leaves alone *)

Section PipesKeep.
Import DrmDevice DeviceSpec.
Variable drmModeGetConnector : N → option drmModeConnector.

Lemma keeps_refl d : keeps d d.
Proof. by split. Qed.

Lemma keeps_trans d1 d2 d3 : keeps d1 d2 → keeps d2 d3 → keeps d1 d3.
Proof. intros [? ?] [? ?]. split; congruence. Qed.

Lemma keeps_set_encoder d enc connector :
  keeps d (with_connectors
             (alter (DrmConnector.set_encoder enc) connector (connectors_ d)) d).
Proof.
  split; [done|]. simpl. apply list_eq. intros i.
  rewrite !list_lookup_fmap, list_lookup_alter.
  case_decide; [subst|done]. by destruct (connectors_ d !! i).
Qed.

Lemma TryEncoderForDisplay_keeps display enc d ret d' :
  TryEncoderForDisplay display enc d = Some (ret, d') → keeps d d'.
Proof.
  unfold TryEncoderForDisplay. intros H.
  destruct (encoders_ d !! enc) as [e|]; simpl in H; [|done].
  destruct (match DrmEncoder.crtc e with
            | Some crtc => _ | None => Some None end) as [[crtc|]|];
    simpl in H; [| |done].
  - injection H as <- <-. by split.
  - destruct (first_possible_crtc _ _ _ _) as [[crtc|]|]; simpl in H; [| |done];
      injection H as <- <-; by split.
Qed.

Lemma try_possible_encoders_keeps display connector possible : ∀ d ret d',
  try_possible_encoders display connector possible d = Some (ret, d') → keeps d d'.
Proof.
  induction possible as [|enc rest IH]; intros d ret d' H; simpl in H.
  - injection H as <- <-. apply keeps_refl.
  - destruct (TryEncoderForDisplay display enc d) as [[r d1]|] eqn:Htry;
      simpl in H; [|done].
    apply TryEncoderForDisplay_keeps in Htry.
    destruct (r =? 0).
    + injection H as <- <-. eapply keeps_trans; [done|]. apply keeps_set_encoder.
    + destruct (negb (r =? - EAGAIN)).
      * by injection H as <- <-.
      * eapply keeps_trans; [done|]. by eapply IH.
Qed.

Lemma CreateDisplayPipe_keeps connector d ret d' :
  CreateDisplayPipe connector d = Some (ret, d') → keeps d d'.
Proof.
  unfold CreateDisplayPipe. intros H.
  destruct (connectors_ d !! connector) as [conn|]; simpl in H; [|done].
  destruct (DrmConnector.encoder conn) as [enc|].
  - destruct (TryEncoderForDisplay _ enc d) as [[r d1]|] eqn:Htry;
      simpl in H; [|done].
    apply TryEncoderForDisplay_keeps in Htry.
    destruct (r =? 0); [by injection H as <- <-|].
    destruct (negb (r =? - EAGAIN)); [by injection H as <- <-|].
    eapply keeps_trans; [done|]. by eapply try_possible_encoders_keeps.
  - by eapply try_possible_encoders_keeps.
Qed.

Lemma AttachWriteback_keeps display_conn d ret d' :
  AttachWriteback drmModeGetConnector display_conn d = Some (ret, d') → keeps d d'.
Proof.
  unfold AttachWriteback. intros H.
  destruct (connectors_ d !! display_conn) as [conn|]; simpl in H; [|done].
  destruct (DrmConnector.encoder conn) as [enc|]; simpl in H; [|done].
  destruct (encoders_ d !! enc) as [e|]; simpl in H; [|done].
  destruct (DrmEncoder.crtc e) as [crtc|]; simpl in H; [|done].
  destruct (crtcs_ d !! crtc) as [c|]; simpl in H; [|done].
  destruct (GetWritebackConnectorForDisplay d _).
  { injection H as <- <-. apply keeps_refl. }
  destruct (writeback_conn_loop _ _ _ _ _) as [[[j wenc]|]|]; simpl in H; [| |done];
    injection H as <- <-; [|by split].
  unfold bind_writeback. simpl.
  destruct (writeback_connectors_ d !! j) as [wc|]; [|by split].
  by destruct (DrmConnector.UpdateModes _ _ _) as [[r wc'] mode_id].
Qed.

Lemma create_pipes_keeps conns : ∀ d ret d',
  create_pipes drmModeGetConnector conns d = Some (ret, d') → keeps d d'.
Proof.
  induction conns as [|conn rest IH]; intros d ret d' H; simpl in H.
  - injection H as <- <-. apply keeps_refl.
  - destruct (CreateDisplayPipe conn d) as [[r d1]|] eqn:Hpipe; simpl in H; [|done].
    apply CreateDisplayPipe_keeps in Hpipe.
    destruct (negb (r =? 0)); [by injection H as <- <-|].
    destruct (AttachWriteback drmModeGetConnector conn d1) as [[r2 d2]|] eqn:Hwb;
      simpl in H; [|done].
    apply AttachWriteback_keeps in Hwb.
    eapply keeps_trans; [done|]. eapply keeps_trans; [done|]. by eapply IH.
Qed.
End PipesKeep.

(** ** DrmDevice: Init *)

Section InitProofs.
Import DrmDevice DeviceSpec.
Variable drmModeGetConnector : N → option drmModeConnector.
Variable std_partition : (Candidate → bool) → list Candidate → list Candidate.

(** [Init] ends on the device of the assignment pass, up to the
    encoders of its connectors; it reports the size of the display table
    with status 0 and nothing with any other status. *)
Lemma Init_after_assign k display_order num_displays d ret n d' :
  Init drmModeGetConnector std_partition k display_order num_displays d
  = Some (ret, n, d') →
  ∃ d1, Init_assign std_partition display_order num_displays d = Some d1
        ∧ keeps d1 d'
        ∧ (ret = 0 → n = Z.of_nat (size (displays_ d1)))
        ∧ (ret ≠ 0 → n = 0).
Proof.
  unfold Init. intros H.
  destruct (Init_assign std_partition display_order num_displays d) as [d1|];
    simpl in H; [|done].
  exists d1. split; [done|].
  destruct (Z.eqb_spec (k_ret k) 0) as [Hk|Hk]; simpl in H.
  2:{ injection H as <- <- <-. split; [apply keeps_refl|]. done. }
  destruct (k_planes k) as [[pret planes]|].
  2:{ injection H as <- <- <-. split; [apply keeps_refl|]. done. }
  destruct (Z.eqb_spec pret 0) as [Hp|Hp]; simpl in H.
  2:{ injection H as <- <- <-. split; [by split|]. done. }
  destruct (Z.eqb_spec (k_event_listener k) 0) as [He|He]; simpl in H.
  2:{ injection H as <- <- <-. split; [by split|]. done. }
  destruct (create_pipes _ _ _) as [[r d3]|] eqn:Hpipes; simpl in H; [|done].
  apply create_pipes_keeps in Hpipes. destruct Hpipes as [Hdisp Hconn].
  destruct (Z.eqb_spec r 0) as [Hr|Hr]; simpl in H; injection H as <- <- <-.
  - split; [by split|]. split; [|done]. intros _. simpl in Hdisp. by rewrite Hdisp.
  - split; [by split|]. done.
Qed.

Lemma numbered_by_class_identity conn conn' :
  identity_of conn' = identity_of conn →
  numbered_by_class conn → numbered_by_class conn'.
Proof.
  unfold identity_of, numbered_by_class, display_class.
  unfold DrmConnector.external, DrmConnector.internal.
  intros [= Hd Hs Ht _]. rewrite Hd, Hs, Ht. done.
Qed.

Lemma Forall_numbered_identity (l l' : list DrmConnector.t) :
  identity_of <$> l' = identity_of <$> l →
  Forall numbered_by_class l → Forall numbered_by_class l'.
Proof.
  intros Heq Hall. revert l' Heq.
  induction Hall as [|conn l Hconn _ IH]; intros [|conn' l'] Heq; try done.
  rewrite !fmap_cons in Heq.
  assert (Hhead : identity_of conn' = identity_of conn) by congruence.
  assert (Htail : identity_of <$> l' = identity_of <$> l) by congruence.
  constructor; [by apply (numbered_by_class_identity conn) | by apply IH].
Qed.
End InitProofs.

Section InitClaims.
Import DrmDevice DeviceSpec.

Lemma stable_partition_contract : partition_contract stable_partition.
Proof.
  intros P l. unfold stable_partition. apply filter_app_complement.
Qed.

(** The assignment pass when no candidate was found. *)
Lemma Init_assign_no_candidate std_partition display_order num_displays d :
  make_primary_display_candidates std_partition (connectors_ d) display_order
  = Some [] →
  Forall (λ conn, DrmConnector.display conn < 0) (connectors_ d) →
  ∃ d1, Init_assign std_partition display_order num_displays d = Some d1
        ∧ connectors_ d1 = number_displays (connectors_ d) num_displays
        ∧ displays_ d1
          = add_displays (count_display_class (connectors_ d)) num_displays
                         (displays_ d).
Proof.
  intros Hnone Hfresh. unfold Init_assign. rewrite Hnone. simpl.
  destruct (assign_displays_fresh (connectors_ d) num_displays
              (negb (num_displays =? 0)) (displays_ d) Hfresh) as [H1 H2].
  destruct (assign_displays _ _ _ _) as [[[conns n] f] m]. simpl in *.
  eexists. split; [reflexivity|]. simpl. by subst.
Qed.

(** The assignment pass in general. *)
Lemma Init_assign_by_class std_partition display_order num_displays d :
  partition_contract std_partition →
  display_order ≠ [] → NoDup display_order → 0 ≤ num_displays →
  Forall (λ conn, DrmConnector.display conn < 0) (connectors_ d) →
  ∃ d1, Init_assign std_partition display_order num_displays d = Some d1
        ∧ Forall numbered_by_class (connectors_ d1).
Proof.
  intros Hpart Hne Hnd Hnum Hfresh. unfold Init_assign.
  destruct (make_primary_display_candidates_total std_partition (connectors_ d)
              display_order Hpart Hne Hnd) as (cands & -> & Hcands).
  simpl.
  assert (Hprim :
    let '(d1, n, f) := assign_primary cands num_displays
                         (negb (num_displays =? 0)) d in
    0 ≤ n ∧ Forall (λ conn, 0 ≤ DrmConnector.display conn →
                            DrmConnector.state conn = DRM_MODE_CONNECTED)
                   (connectors_ d1)).
  { assert (Hold : Forall (λ conn, 0 ≤ DrmConnector.display conn →
                             DrmConnector.state conn = DRM_MODE_CONNECTED)
                          (connectors_ d)).
    { eapply Forall_impl; [exact Hfresh|]. simpl. intros conn ? ?. lia. }
    unfold assign_primary. destruct cands as [|[p c] rest]; [done|].
    destruct (negb (negb (num_displays =? 0))); [|done].
    split; [lia|]. simpl. apply Forall_alter; [done|].
    intros conn Hlk _ _.
    apply Forall_cons in Hcands as [[Hp Hc] _]. simpl in Hp, Hc.
    rewrite Hlk in Hp. injection Hp as ->. exact Hc. }
  destruct (assign_primary cands num_displays (negb (num_displays =? 0)) d)
    as [[d1 n] f].
  destruct Hprim as [Hn Hconn].
  pose proof (assign_displays_by_class (connectors_ d1) n f (displays_ d1) Hn Hconn)
    as Hall.
  destruct (assign_displays _ _ _ _) as [[[conns n'] f'] m]. simpl in *.
  eexists. split; [reflexivity|]. done.
Qed.
End InitClaims.

(** ** DrmDevice: the pipe set-up returns *)

Section PipesReturn.
Import DrmDevice DeviceSpec.
Variable drmModeGetConnector : N → option drmModeConnector.

Lemma connector_ok_extends d d' conn :
  extends d d' → connector_ok d conn → connector_ok d' conn.
Proof.
  intros Hext [Hcur Hposs]. split.
  - intros enc Henc. apply Hext. by apply Hcur.
  - eapply Forall_impl; [exact Hposs|]. exact Hext.
Qed.

Lemma is_Some_lookup_alter {A} (f : A → A) (l : list A) i j :
  is_Some (alter f i l !! j) ↔ is_Some (l !! j).
Proof.
  rewrite list_lookup_alter. case_decide; [subst|done].
  by rewrite fmap_is_Some.
Qed.

(** Recording a valid CRTC in one encoder keeps every encoder valid. *)
Lemma encoder_ok_set_crtc d d' crtc display enc :
  encoders_ d' = alter (DrmEncoder.set_crtc crtc display) enc (encoders_ d) →
  (∀ i, is_Some (crtcs_ d' !! i) ↔ is_Some (crtcs_ d !! i)) →
  is_Some (crtcs_ d !! crtc) →
  extends d d'.
Proof.
  intros Henc Hcrtcs Hcrtc enc' (e & He & Hcur & Hposs). unfold encoder_ok.
  rewrite Henc, list_lookup_alter. case_decide as Heq.
  - subst enc'. rewrite He. simpl. eexists. split; [reflexivity|]. split.
    + intros crtc' [= <-]. by apply Hcrtcs.
    + simpl. eapply Forall_impl; [exact Hposs|]. intros i. apply Hcrtcs.
  - exists e. split; [done|]. split.
    + intros crtc' Hc. apply Hcrtcs. by apply Hcur.
    + eapply Forall_impl; [exact Hposs|]. intros i. apply Hcrtcs.
Qed.

Lemma extends_bind_crtc d display enc crtc :
  is_Some (crtcs_ d !! crtc) → extends d (bind_crtc display enc crtc d).
Proof.
  intros Hcrtc. apply (encoder_ok_set_crtc d _ crtc display enc); [done| |done].
  intros i. simpl. apply is_Some_lookup_alter.
Qed.

(** [TryEncoderForDisplay] returns on a valid encoder; a failure changes
    nothing, a success leaves the encoder with a CRTC. *)
Lemma TryEncoderForDisplay_total d display enc :
  encoder_ok d enc →
  ∃ ret d',
    TryEncoderForDisplay display enc d = Some (ret, d')
    ∧ (ret = 0 ∨ ret = - EAGAIN ∧ d' = d)
    ∧ extends d d'
    ∧ connectors_ d' = connectors_ d
    ∧ writeback_connectors_ d' = writeback_connectors_ d
    ∧ (ret = 0 →
       ∃ e' crtc c, encoders_ d' !! enc = Some e'
                    ∧ DrmEncoder.crtc e' = Some crtc
                    ∧ crtcs_ d' !! crtc = Some c).
Proof.
  intros (e & He & Hcur & Hposs).
  assert (Hbound : ∀ crtc, is_Some (crtcs_ d !! crtc) →
            ∃ ret d',
              Some (0, bind_crtc display enc crtc d) = Some (ret, d')
              ∧ (ret = 0 ∨ ret = - EAGAIN ∧ d' = d)
              ∧ extends d d'
              ∧ connectors_ d' = connectors_ d
              ∧ writeback_connectors_ d' = writeback_connectors_ d
              ∧ (ret = 0 →
                 ∃ e' crtc' c, encoders_ d' !! enc = Some e'
                               ∧ DrmEncoder.crtc e' = Some crtc'
                               ∧ crtcs_ d' !! crtc' = Some c)).
  { intros crtc [c Hc]. eexists 0, _. split; [reflexivity|].
    split; [by left|]. split; [apply extends_bind_crtc; eauto|].
    split; [done|]. split; [done|]. intros _.
    destruct (bind_crtc_effect d display enc crtc e c He Hc) as (Hcs & Hes & _).
    exists (DrmEncoder.set_crtc crtc display e), crtc, (DrmCrtc.set_display display c).
    rewrite Hcs, Hes. split; [|split; [done|]].
    - apply list_lookup_insert_eq. by eapply lookup_lt_Some.
    - apply list_lookup_insert_eq. by eapply lookup_lt_Some. }
  assert (Hsearch :
    ∃ ret d',
      (found ← first_possible_crtc (crtcs_ d) display (DrmEncoder.crtc e)
                 (DrmEncoder.possible_crtcs e);
       match found with
       | Some crtc => Some (0, bind_crtc display enc crtc d)
       | None => Some (- EAGAIN, d)
       end) = Some (ret, d')
      ∧ (ret = 0 ∨ ret = - EAGAIN ∧ d' = d)
      ∧ extends d d'
      ∧ connectors_ d' = connectors_ d
      ∧ writeback_connectors_ d' = writeback_connectors_ d
      ∧ (ret = 0 →
         ∃ e' crtc' c, encoders_ d' !! enc = Some e'
                       ∧ DrmEncoder.crtc e' = Some crtc'
                       ∧ crtcs_ d' !! crtc' = Some c)).
  { destruct (first_possible_crtc_total d display (DrmEncoder.crtc e)
                (DrmEncoder.possible_crtcs e) Hposs) as (r & -> & Hr).
    simpl. destruct r as [crtc|].
    - destruct (Hr crtc eq_refl) as [_ (c & Hc & _)]. apply Hbound. eauto.
    - eexists (- EAGAIN), d. split; [reflexivity|]. split; [by right|].
      split; [by intros ?|]. split; [done|]. split; [done|].
      unfold EAGAIN. intros ?. lia. }
  unfold TryEncoderForDisplay. rewrite He. simpl.
  destruct (DrmEncoder.crtc e) as [crtc|] eqn:Hc; simpl; [|exact Hsearch].
  destruct (Hcur crtc eq_refl) as [c Hlk]. rewrite Hlk. simpl.
  destruct (DrmCrtc.can_bind c display); [|exact Hsearch].
  apply Hbound. eauto.
Qed.
Lemma valid_pointers_extends d d' :
  extends d d' →
  connectors_ d' = connectors_ d →
  writeback_connectors_ d' = writeback_connectors_ d →
  valid_pointers d → valid_pointers d'.
Proof.
  intros Hext Hc Hw [Hconns Hwbs]. unfold valid_pointers. rewrite Hc, Hw.
  split; (eapply Forall_impl; [eassumption|]); intros conn;
    by apply connector_ok_extends.
Qed.

(** [connector->set_encoder(enc)] with a valid encoder keeps the device
    valid and the connector gets its pipe. *)
Lemma valid_pointers_set_encoder d enc connector :
  valid_pointers d → encoder_ok d enc →
  valid_pointers
    (with_connectors (alter (DrmConnector.set_encoder enc) connector (connectors_ d)) d).
Proof.
  intros [Hconns Hwbs] Henc. split; [|exact Hwbs]. simpl.
  apply Forall_alter; [exact Hconns|].
  intros conn _ [_ Hposs]. split; [|exact Hposs].
  intros enc' [= <-]. exact Henc.
Qed.

Lemma try_possible_encoders_total display connector conn possible : ∀ d,
  valid_pointers d → Forall (encoder_ok d) possible →
  connectors_ d !! connector = Some conn →
  ∃ ret d',
    try_possible_encoders display connector possible d = Some (ret, d')
    ∧ valid_pointers d'
    ∧ length (connectors_ d') = length (connectors_ d)
    ∧ (ret = 0 → ∃ crtc c, has_pipe d' connector crtc c).
Proof.
  induction possible as [|enc rest IH]; intros d Hvalid Hposs Hconn; simpl.
  { eexists (- ENODEV), d. split; [reflexivity|]. split; [done|]. split; [done|].
    unfold ENODEV. intros ?. lia. }
  apply Forall_cons in Hposs as [Henc Hrest].
  destruct (TryEncoderForDisplay_total d display enc Henc)
    as (ret & d1 & -> & Hret & Hext & Hc & Hw & Hbound).
  simpl. destruct Hret as [->|[-> ->]].
  - simpl. eexists 0, _. split; [reflexivity|].
    pose proof (valid_pointers_extends d d1 Hext Hc Hw Hvalid) as Hvalid1.
    split; [apply valid_pointers_set_encoder; [done | by apply Hext]|].
    split; [simpl; by rewrite length_alter, Hc|].
    intros _. destruct (Hbound eq_refl) as (e' & crtc & c & He' & Hcrtc & Hlk).
    exists crtc, c, (DrmConnector.set_encoder enc conn), enc, e'.
    simpl. rewrite Hc, list_lookup_alter_eq, Hconn. done.
  - replace (- EAGAIN =? 0) with false by reflexivity.
    rewrite Z.eqb_refl. simpl. by apply IH.
Qed.

Lemma CreateDisplayPipe_total connector d :
  valid_pointers d → (connector < length (connectors_ d))%nat →
  ∃ ret d',
    CreateDisplayPipe connector d = Some (ret, d')
    ∧ valid_pointers d'
    ∧ length (connectors_ d') = length (connectors_ d)
    ∧ (ret = 0 → ∃ crtc c, has_pipe d' connector crtc c).
Proof.
  intros Hvalid Hlt. unfold CreateDisplayPipe.
  destruct (lookup_lt_is_Some_2 _ _ Hlt) as [conn Hconn]. rewrite Hconn. simpl.
  pose proof Hvalid as [Hconns _].
  pose proof (Forall_lookup_1 _ _ _ _ Hconns Hconn) as [Hcur Hposs].
  destruct (DrmConnector.encoder conn) as [enc|] eqn:Henc.
  2:{ by apply (try_possible_encoders_total _ _ conn). }
  destruct (TryEncoderForDisplay_total d (DrmConnector.display conn) enc
              (Hcur enc eq_refl))
    as (ret & d1 & -> & Hret & Hext & Hc & Hw & Hbound).
  simpl. destruct Hret as [->|[-> ->]].
  - simpl. eexists 0, d1. split; [reflexivity|].
    split; [by apply (valid_pointers_extends d)|]. split; [by rewrite Hc|].
    intros _. destruct (Hbound eq_refl) as (e' & crtc & c & He' & Hcrtc & Hlk).
    exists crtc, c, conn, enc, e'. rewrite Hc. done.
  - replace (- EAGAIN =? 0) with false by reflexivity.
    rewrite Z.eqb_refl. simpl. by apply (try_possible_encoders_total _ _ conn).
Qed.

Lemma AttachWriteback_total display_conn display_crtc c d :
  has_pipe d display_conn display_crtc c → valid_pointers d →
  ∃ ret d',
    AttachWriteback drmModeGetConnector display_conn d = Some (ret, d')
    ∧ valid_pointers d'
    ∧ connectors_ d' = connectors_ d.
Proof.
  intros (conn & enc & e & Hconn & Henc & He & Hcrtc & Hc) Hvalid.
  pose proof Hvalid as [Hconns Hwbs].
  unfold AttachWriteback, DrmConnector.encoder, DrmEncoder.crtc in *.
  rewrite Hconn. simpl. rewrite Henc. simpl. rewrite He. simpl.
  rewrite Hcrtc. simpl. rewrite Hc. simpl.
  destruct (GetWritebackConnectorForDisplay d (DrmCrtc.display c)).
  { by exists (- EINVAL), d. }
  destruct (writeback_conn_loop_total d display_crtc (DrmCrtc.display c)
              (writeback_connectors_ d) 0%nat Hwbs) as (r & -> & Hfound).
  simpl. destruct r as [[j wenc]|]; [|by exists (- EINVAL), d].
  destruct (Hfound j wenc eq_refl) as (wc & _ & Hj & _ & Hin).
  rewrite Nat.sub_0_r in Hj.
  pose proof (Forall_lookup_1 _ _ _ _ Hwbs Hj) as [_ Hwposs].
  assert (Hwenc : encoder_ok d wenc).
  { rewrite Forall_forall in Hwposs. by apply Hwposs. }
  destruct (bind_writeback_effect drmModeGetConnector d display_crtc
              (DrmCrtc.display c) j wenc wc Hj)
    as (wc' & Hwbs' & _ & Hwe & Hwp & Hencs & Hconns' & Hcrtcs & _).
  assert (Hext : extends d (bind_writeback drmModeGetConnector display_crtc
                              (DrmCrtc.display c) j wenc d)).
  { apply (encoder_ok_set_crtc d _ display_crtc (DrmCrtc.display c) wenc);
      [done | by rewrite Hcrtcs | eauto]. }
  eexists 0, _. split; [reflexivity|]. split; [|done].
  split.
  - rewrite Hconns'. eapply Forall_impl; [exact Hconns|].
    intros conn'. by apply connector_ok_extends.
  - rewrite Hwbs'. apply Forall_insert.
    + eapply Forall_impl; [exact Hwbs|]. intros conn'. by apply connector_ok_extends.
    + split; [|rewrite Hwp; eapply Forall_impl; [exact Hwposs | exact Hext]].
      intros enc' Heq. rewrite Hwe in Heq. injection Heq as <-. by apply Hext.
Qed.

Lemma create_pipes_total conns : ∀ d,
  valid_pointers d → Forall (λ conn, (conn < length (connectors_ d))%nat) conns →
  ∃ ret d', create_pipes drmModeGetConnector conns d = Some (ret, d').
Proof.
  induction conns as [|conn rest IH]; intros d Hvalid Hin; simpl; [eauto|].
  apply Forall_cons in Hin as [Hconn Hrest].
  destruct (CreateDisplayPipe_total conn d Hvalid Hconn)
    as (ret & d1 & -> & Hvalid1 & Hlen1 & Hpipe).
  simpl. destruct (Z.eqb_spec ret 0) as [->|Hret]; simpl; [|eauto].
  destruct (Hpipe eq_refl) as (crtc & c & Hhas).
  destruct (AttachWriteback_total conn crtc c d1 Hhas Hvalid1)
    as (ret2 & d2 & -> & Hvalid2 & Hc2).
  simpl. apply IH; [done|]. rewrite Hc2, Hlen1. done.
Qed.
End PipesReturn.

(** ** DrmDevice: Init returns *)

Section InitReturns.
Import DrmDevice DeviceSpec.
Variable drmModeGetConnector : N → option drmModeConnector.
Variable std_partition : (Candidate → bool) → list Candidate → list Candidate.

Lemma assign_displays_pointers d connectors : ∀ num found displays,
  Forall (connector_ok d) connectors →
  Forall (connector_ok d) (assign_displays connectors num found displays).1.1.1.
Proof.
  induction connectors as [|conn rest IH]; intros num found displays Hall; simpl;
    [constructor|].
  apply Forall_cons in Hall as [Hconn Hrest].
  destruct (DrmConnector.external conn || DrmConnector.internal conn).
  - destruct (negb found).
    + specialize (IH (num + 1) true (<[num:=num]> displays) Hrest).
      destruct (assign_displays rest (num + 1) true (<[num:=num]> displays))
        as [[[r n] f] m]. simpl in *. by constructor.
    + destruct (DrmConnector.display conn <? 0).
      * specialize (IH (num + 1) found (<[num:=num]> displays) Hrest).
        destruct (assign_displays rest (num + 1) found (<[num:=num]> displays))
          as [[[r n] f] m]. simpl in *. by constructor.
      * specialize (IH num found displays Hrest).
        destruct (assign_displays rest num found displays) as [[[r n] f] m].
        simpl in *. by constructor.
  - specialize (IH num found displays Hrest).
    destruct (assign_displays rest num found displays) as [[[r n] f] m].
    simpl in *. by constructor.
Qed.

(** The assignment pass writes display numbers only; the pointers stay
    valid. *)
Lemma Init_assign_valid display_order num_displays d d1 :
  Init_assign std_partition display_order num_displays d = Some d1 →
  valid_pointers d → valid_pointers d1.
Proof.
  unfold Init_assign. intros Hassign [Hconns Hwbs].
  destruct (make_primary_display_candidates _ _ _) as [cands|]; simpl in Hassign;
    [|done].
  assert (Hprim :
    let '(d', n, f) := assign_primary cands num_displays
                         (negb (num_displays =? 0)) d in
    Forall (connector_ok d) (connectors_ d')
    ∧ writeback_connectors_ d' = writeback_connectors_ d
    ∧ encoders_ d' = encoders_ d ∧ crtcs_ d' = crtcs_ d).
  { unfold assign_primary. destruct cands as [|[p c] rest]; [done|].
    destruct (negb (negb (num_displays =? 0))); [|done].
    split; [|done]. simpl. apply Forall_alter; [done|]. by intros conn _ ?. }
  destruct (assign_primary cands num_displays (negb (num_displays =? 0)) d)
    as [[d' n] f].
  destruct Hprim as (Hconns' & Hw & He & Hc).
  pose proof (assign_displays_pointers d (connectors_ d') n f (displays_ d') Hconns')
    as Hall.
  destruct (assign_displays _ _ _ _) as [[[conns n'] f'] m]. simpl in *.
  injection Hassign as <-.
  assert (Hsame : ∀ conn, connector_ok d conn →
            connector_ok (with_displays m (with_connectors conns d')) conn).
  { intros conn. apply connector_ok_extends. intros enc.
    unfold encoder_ok. simpl. by rewrite He, Hc. }
  split; simpl.
  - eapply Forall_impl; [exact Hall | exact Hsame].
  - rewrite Hw. eapply Forall_impl; [exact Hwbs | exact Hsame].
Qed.

(** Once the assignment pass has returned on a device with valid
    pointers, [Init] returns. *)
Lemma Init_total k display_order num_displays d d1 :
  Init_assign std_partition display_order num_displays d = Some d1 →
  valid_pointers d →
  ∃ ret n d',
    Init drmModeGetConnector std_partition k display_order num_displays d
    = Some (ret, n, d').
Proof.
  intros Hassign Hvalid.
  pose proof (Init_assign_valid _ _ _ _ Hassign Hvalid) as Hvalid1.
  unfold Init. rewrite Hassign. simpl.
  destruct (negb (k_ret k =? 0)); [eauto|].
  destruct (k_planes k) as [[pret planes]|]; [|eauto].
  destruct (negb (pret =? 0)); [eauto|].
  destruct (negb (k_event_listener k =? 0)); [eauto|].
  destruct (create_pipes_total drmModeGetConnector
              (seq 0 (length (connectors_ (with_planes planes d1))))
              (with_planes planes d1)) as (ret & d3 & Hpipes).
  - destruct Hvalid1 as [Hc Hw]. split; simpl.
    + eapply Forall_impl; [exact Hc|]. intros conn.
      apply connector_ok_extends. by intros enc.
    + eapply Forall_impl; [exact Hw|]. intros conn.
      apply connector_ok_extends. by intros enc.
  - apply Forall_forall. intros conn Hconn. apply elem_of_seq in Hconn. lia.
  - simpl in Hpipes |- *. rewrite Hpipes. simpl.
    destruct (negb (ret =? 0)); eauto.
Qed.
End InitReturns.

(** ** DrmDevice: who gets a display *)

Section ExampleDevices.
Import DrmDevice DeviceSpec DeviceExamples.

Lemma enumerated_valid connectors :
  Forall (λ conn, DrmConnector.encoder conn = None
                  ∧ Forall (λ enc, (enc < 3)%nat) (DrmConnector.possible_encoders conn))
         connectors →
  valid_pointers (enumerated connectors).
Proof.
  intros Hconns.
  assert (Henc : ∀ enc, (enc < 3)%nat → encoder_ok (enumerated connectors) enc).
  { intros enc Hlt.
    assert (Hcases : enc = 0%nat ∨ enc = 1%nat ∨ enc = 2%nat) by lia.
    destruct Hcases as [-> | [-> | ->]];
      (eexists; split; [reflexivity|]; split;
         [intros crtc Hcrtc; discriminate Hcrtc|]);
      repeat constructor; by eexists. }
  split.
  - eapply Forall_impl; [exact Hconns|]. intros conn [Hnone Hposs]. split.
    + intros enc Heq. rewrite Hnone in Heq. discriminate Heq.
    + eapply Forall_impl; [exact Hposs|]. exact Henc.
  - constructor; [|constructor]. split; [intros enc Heq; discriminate Heq|].
    constructor; [|constructor]. apply Henc. lia.
Qed.

Lemma hdmi_then_edp_valid : valid_pointers hdmi_then_edp.
Proof.
  apply enumerated_valid. repeat constructor; simpl; lia.
Qed.

Lemma edp_then_hdmi_valid : valid_pointers edp_then_hdmi.
Proof.
  apply enumerated_valid. repeat constructor; simpl; lia.
Qed.
End ExampleDevices.

(** C4, as the code has it.  A preference list whose last entry is not
    the wildcard and that names no connected connector leaves no primary
    candidate.  On a freshly enumerated device with valid pointers the
    assignment pass of [Init] still numbers every connector of internal or
    external class,
    connected or not, consecutively from [num_displays] in enumeration
    order; [Init] returns with the connectors so numbered, and on a device
    with an empty display table it reports as many displays as there are
    such connectors when its status is 0, and none otherwise. *)
Theorem Init_without_match_numbers_by_class
    (drmModeGetConnector : N → option drmModeConnector)
    (std_partition : (nat * DrmConnector.t → bool) →
                     list (nat * DrmConnector.t) → list (nat * DrmConnector.t))
    (k : DrmDevice.KernelReplies) (display_order : list string) (back : string)
    (num_displays : Z) (d : DrmDevice.t) :
  last display_order = Some back → back ≠ "..."%string →
  (∀ conn, conn ∈ DrmDevice.connectors_ d →
     DrmConnector.state conn = DRM_MODE_CONNECTED →
     DrmConnector.name conn ∉ display_order) →
  Forall (λ conn, DrmConnector.display conn < 0) (DrmDevice.connectors_ d) →
  DeviceSpec.valid_pointers d →
  DrmDevice.make_primary_display_candidates std_partition (DrmDevice.connectors_ d)
                                            display_order = Some []
  ∧ ∃ d1 ret n d',
      DrmDevice.Init_assign std_partition display_order num_displays d = Some d1
      ∧ DrmDevice.connectors_ d1
        = DeviceSpec.number_displays (DrmDevice.connectors_ d) num_displays
      ∧ DrmDevice.displays_ d1
        = DeviceSpec.add_displays
            (DeviceSpec.count_display_class (DrmDevice.connectors_ d))
            num_displays (DrmDevice.displays_ d)
      ∧ DrmDevice.Init drmModeGetConnector std_partition k display_order
                       num_displays d = Some (ret, n, d')
      ∧ DeviceSpec.identity_of <$> DrmDevice.connectors_ d'
        = DeviceSpec.identity_of
            <$> DeviceSpec.number_displays (DrmDevice.connectors_ d) num_displays
      ∧ (ret = 0 → DrmDevice.displays_ d = ∅ →
         n = Z.of_nat (DeviceSpec.count_display_class (DrmDevice.connectors_ d)))
      ∧ (ret ≠ 0 → n = 0).
Proof.
  intros Hlast Hback Hno Hfresh Hvalid.
  pose proof (make_primary_display_candidates_no_match std_partition
                (DrmDevice.connectors_ d) display_order back Hlast Hback Hno) as Hnone.
  destruct (Init_assign_no_candidate std_partition display_order num_displays d
              Hnone Hfresh) as (d1 & Hassign & Hconns & Hdisplays).
  destruct (Init_total drmModeGetConnector std_partition k display_order
              num_displays d d1 Hassign Hvalid) as (ret & n & d' & Hinit).
  split; [done|]. exists d1, ret, n, d'.
  split; [done|]. split; [done|]. split; [done|]. split; [done|].
  destruct (Init_after_assign _ _ _ _ _ _ _ _ _ Hinit)
    as (d1' & Hassign' & [Hkd Hkc] & Hok & Hfail).
  rewrite Hassign in Hassign'. injection Hassign' as <-.
  split; [by rewrite Hkc, Hconns|]. split; [|done].
  intros Hret Hempty. rewrite (Hok Hret), Hdisplays, Hempty.
  rewrite size_add_displays; [by rewrite map_size_empty|].
  intros key [v Hv]. by rewrite lookup_empty in Hv.
Qed.

(** [Init] on the scenario of the unplugged HDMI port named in the list
    and the connected panel not named, run to its end. *)
Lemma Init_hdmi_then_edp :
  (λ r : Z * Z * DrmDevice.t,
     (r.1.1, r.1.2, DeviceSpec.identity_of <$> DrmDevice.connectors_ r.2))
    <$> DrmDevice.Init DeviceExamples.connection_unknown DeviceSpec.stable_partition
          DeviceExamples.kernel_ok ["HDMI-A-1"%string] 0 DeviceExamples.hdmi_then_edp
  = Some (0, 2, [(0, DRM_MODE_DISCONNECTED, 11%N, 1%N);
                 (1, DRM_MODE_CONNECTED, 14%N, 1%N)]).
Proof. vm_compute. reflexivity. Qed.

(** That scenario: no candidate, yet [Init] returns status 0 and two
    displays, the HDMI port first. *)
Lemma Init_without_match_numbers_by_class_witness :
  DrmDevice.make_primary_display_candidates DeviceSpec.stable_partition
    (DrmDevice.connectors_ DeviceExamples.hdmi_then_edp) ["HDMI-A-1"%string] = Some []
  ∧ ∃ d', DrmDevice.Init DeviceExamples.connection_unknown DeviceSpec.stable_partition
            DeviceExamples.kernel_ok ["HDMI-A-1"%string] 0
            DeviceExamples.hdmi_then_edp = Some (0, 2, d')
          ∧ DrmConnector.display <$> DrmDevice.connectors_ d' = [0; 1].
Proof.
  destruct (Init_without_match_numbers_by_class DeviceExamples.connection_unknown
              DeviceSpec.stable_partition DeviceExamples.kernel_ok
              ["HDMI-A-1"%string] "HDMI-A-1"%string 0 DeviceExamples.hdmi_then_edp)
    as (Hnone & d1 & ret & n & d' & _ & _ & _ & Hinit & Hids & _).
  - reflexivity.
  - discriminate.
  - intros conn Hconn Hstate Hname.
    apply elem_of_cons in Hconn as [->|Hconn]; [discriminate Hstate|].
    apply list_elem_of_singleton in Hconn as ->.
    apply list_elem_of_singleton in Hname. vm_compute in Hname. discriminate Hname.
  - repeat constructor.
  - exact hdmi_then_edp_valid.
  - split; [exact Hnone|]. exists d'.
    pose proof Init_hdmi_then_edp as Hrun. rewrite Hinit in Hrun.
    simpl in Hrun. injection Hrun as -> -> _. split; [exact Hinit|].
    apply (f_equal (fmap (λ i : Z * drmModeConnection * N * N, i.1.1.1))) in Hids.
    rewrite <- !list_fmap_compose in Hids. exact Hids.
Defined.

(** The same scenario against the statement that nothing is numbered: the
    list is ["HDMI-A-1"], HDMI-A-1 is unplugged, eDP-1 is connected, and
    [Init] reports two displays, the unplugged port being display 0. *)
Lemma Init_reports_displays_without_match :
  ¬ DeviceSpec.no_display_without_match DeviceSpec.stable_partition
      DeviceExamples.connection_unknown DeviceExamples.kernel_ok
      ["HDMI-A-1"%string] 0 DeviceExamples.hdmi_then_edp.
Proof.
  intros Hclaim. destruct Hclaim as (ret & d' & Hinit & _).
  - intros Hin. apply list_elem_of_singleton in Hin. discriminate Hin.
  - intros conn Hconn Hstate Hname.
    apply elem_of_cons in Hconn as [->|Hconn]; [discriminate Hstate|].
    apply list_elem_of_singleton in Hconn as ->.
    apply list_elem_of_singleton in Hname. vm_compute in Hname. discriminate Hname.
  - pose proof Init_hdmi_then_edp as Hrun. rewrite Hinit in Hrun.
    simpl in Hrun. discriminate Hrun.
Qed.

(** C5, as the code has it.  With a preference list that names nothing
    twice, on a freshly enumerated device with valid pointers, [Init]
    returns, and after its assignment pass, as when it returns, a
    connector that holds a display id is connected (the selected primary)
    or of internal or external class, and every connector of internal or
    external class holds one, connected or not. *)
Theorem Init_numbers_by_class
    (drmModeGetConnector : N → option drmModeConnector)
    (std_partition : (nat * DrmConnector.t → bool) →
                     list (nat * DrmConnector.t) → list (nat * DrmConnector.t))
    (k : DrmDevice.KernelReplies) (display_order : list string)
    (num_displays : Z) (d : DrmDevice.t) :
  DeviceSpec.partition_contract std_partition →
  display_order ≠ [] → NoDup display_order → 0 ≤ num_displays →
  Forall (λ conn, DrmConnector.display conn < 0) (DrmDevice.connectors_ d) →
  DeviceSpec.valid_pointers d →
  ∃ d1 ret n d',
    DrmDevice.Init_assign std_partition display_order num_displays d = Some d1
    ∧ Forall DeviceSpec.numbered_by_class (DrmDevice.connectors_ d1)
    ∧ DrmDevice.Init drmModeGetConnector std_partition k display_order
                     num_displays d = Some (ret, n, d')
    ∧ Forall DeviceSpec.numbered_by_class (DrmDevice.connectors_ d').
Proof.
  intros Hpart Hne Hnd Hnum Hfresh Hvalid.
  destruct (Init_assign_by_class std_partition display_order num_displays d
              Hpart Hne Hnd Hnum Hfresh) as (d1 & Hassign & Hall).
  destruct (Init_total drmModeGetConnector std_partition k display_order
              num_displays d d1 Hassign Hvalid) as (ret & n & d' & Hinit).
  exists d1, ret, n, d'. split; [done|]. split; [done|]. split; [done|].
  destruct (Init_after_assign _ _ _ _ _ _ _ _ _ Hinit)
    as (d1' & Hassign' & [_ Hkc] & _).
  rewrite Hassign in Hassign'. injection Hassign' as <-.
  by apply (Forall_numbered_identity (DrmDevice.connectors_ d1)).
Qed.

Lemma Init_edp_then_hdmi :
  (λ r : Z * Z * DrmDevice.t,
     (r.1.1, r.1.2, DeviceSpec.identity_of <$> DrmDevice.connectors_ r.2))
    <$> DrmDevice.Init DeviceExamples.connection_unknown DeviceSpec.stable_partition
          DeviceExamples.kernel_ok ["..."%string] 0 DeviceExamples.edp_then_hdmi
  = Some (0, 2, [(0, DRM_MODE_CONNECTED, 14%N, 1%N);
                 (1, DRM_MODE_DISCONNECTED, 11%N, 1%N)]).
Proof. vm_compute. reflexivity. Qed.

(** The default list: the connected panel is selected as display 0 and
    the unplugged HDMI port, of external class, becomes display 1. *)
Lemma Init_numbers_by_class_witness :
  ∃ d', DrmDevice.Init DeviceExamples.connection_unknown DeviceSpec.stable_partition
          DeviceExamples.kernel_ok ["..."%string] 0 DeviceExamples.edp_then_hdmi
        = Some (0, 2, d')
        ∧ Forall DeviceSpec.numbered_by_class (DrmDevice.connectors_ d').
Proof.
  destruct (Init_numbers_by_class DeviceExamples.connection_unknown
              DeviceSpec.stable_partition DeviceExamples.kernel_ok
              ["..."%string] 0 DeviceExamples.edp_then_hdmi)
    as (d1 & ret & n & d' & _ & _ & Hinit & Hall).
  - apply stable_partition_contract.
  - discriminate.
  - apply NoDup_singleton.
  - lia.
  - repeat constructor.
  - exact edp_then_hdmi_valid.
  - exists d'. pose proof Init_edp_then_hdmi as Hrun. rewrite Hinit in Hrun.
    simpl in Hrun. injection Hrun as -> -> _. split; [exact Hinit | exact Hall].
Defined.

(** With the default list, a connected panel and an unplugged HDMI port,
    the port is display 1 when [Init] returns, against the statement that
    only connected connectors are numbered. *)
Lemma Init_numbers_unplugged_connector :
  ¬ DeviceSpec.only_connected_numbered DeviceSpec.stable_partition
      DeviceExamples.connection_unknown DeviceExamples.kernel_ok
      ["..."%string] 0 DeviceExamples.edp_then_hdmi.
Proof.
  intros Hclaim. pose proof Init_edp_then_hdmi as Hrun.
  destruct (DrmDevice.Init _ _ _ _ _ _) as [[[ret n] d']|] eqn:Hinit; [|done].
  specialize (Hclaim ret n d' Hinit).
  simpl in Hrun. injection Hrun as _ _ Hconns.
  destruct (DrmDevice.connectors_ d') as [|c0 [|c1 rest]]; try done.
  apply Forall_cons in Hclaim as [_ Hclaim].
  apply Forall_cons in Hclaim as [Hc1 _].
  rewrite !fmap_cons in Hconns.
  assert (Hid : DeviceSpec.identity_of c1 = (1, DRM_MODE_DISCONNECTED, 11%N, 1%N))
    by congruence.
  unfold DeviceSpec.identity_of in Hid. injection Hid as Hd Hs _ _.
  rewrite Hd, Hs in Hc1. specialize (Hc1 ltac:(lia)). discriminate Hc1.
Qed.

(** * Further properties of the code *)

(** ** The rotation value of a plane *)

Lemma land_bit_test (t k : N) :
  (N.land t (2 ^ k) =? 0)%N = negb (N.testbit t k).
Proof.
  destruct (N.testbit t k) eqn:E; simpl.
  - apply N.eqb_neq. intros H.
    assert (Hk : N.testbit (N.land t (2 ^ k)) k = false)
      by (rewrite H; apply N.bits_0).
    rewrite N.land_spec, E, N.pow2_bits_true in Hk. discriminate Hk.
  - apply N.eqb_eq, N.bits_inj. intros n.
    rewrite N.land_spec, N.bits_0.
    destruct (N.eq_dec n k) as [->|Hn]; [by rewrite E|].
    rewrite N.pow2_bits_false by congruence. apply andb_false_r.
Qed.

(** X1. Whatever bits the transform of a layer has, the value written to
    the rotation property has exactly one of the four rotation bits, the
    reflect-x and reflect-y bits exactly when the transform has the
    horizontal and the vertical flip, and no other bit; the rotation is
    "rotate-0" exactly when the transform has none of the three rotation
    bits, and a 90 degree bit wins over the 180 and 270 degree bits. *)
Theorem ToDrmRotation_one_rotation (transform : N) :
  let rotation := DrmPlane.ToDrmRotation transform in
  N.land rotation 15 ∈ [DRM_MODE_ROTATE_0; DRM_MODE_ROTATE_90;
                        DRM_MODE_ROTATE_180; DRM_MODE_ROTATE_270]
  ∧ N.testbit rotation 4 = N.testbit transform 0
  ∧ N.testbit rotation 5 = N.testbit transform 1
  ∧ (rotation < 64)%N
  ∧ (N.land rotation 15 = DRM_MODE_ROTATE_0
     ↔ N.testbit transform 2 = false ∧ N.testbit transform 3 = false
       ∧ N.testbit transform 4 = false)
  ∧ (N.testbit transform 2 = true → N.land rotation 15 = DRM_MODE_ROTATE_90).
Proof.
  unfold DrmPlane.ToDrmRotation.
  change Transform.kFlipH with (2 ^ 0)%N. change Transform.kFlipV with (2 ^ 1)%N.
  change Transform.kRotate90 with (2 ^ 2)%N.
  change Transform.kRotate180 with (2 ^ 3)%N.
  change Transform.kRotate270 with (2 ^ 4)%N.
  rewrite !land_bit_test, !negb_involutive.
  destruct (N.testbit transform 0), (N.testbit transform 1),
    (N.testbit transform 2), (N.testbit transform 3), (N.testbit transform 4);
    vm_compute; repeat split; try done; try (intros; discriminate);
    try (intros (? & ? & ?); discriminate);
    set_solver.
Qed.

Lemma ToDrmRotation_one_rotation_witness :
  DrmPlane.ToDrmRotation (N.lor Transform.kFlipH Transform.kRotate90)
  = N.lor DRM_MODE_REFLECT_X DRM_MODE_ROTATE_90
  ∧ N.land (DrmPlane.ToDrmRotation 12) 15 = DRM_MODE_ROTATE_90.
Proof.
  split; [reflexivity|].
  apply (ToDrmRotation_one_rotation 12). reflexivity.
Defined.

(** ** Connector classes and names *)

Section ConnectorNames.
Import DrmConnector.

Lemma name_named c :
  (type_ c < kTypesCount)%N →
  ∃ k, kNames !! N.to_nat (type_ c) = Some k
       ∧ name c = (k +:+ "-" +:+ pretty (type_id_ c))%string.
Proof.
  intros Hlt. unfold name. apply N.ltb_lt in Hlt as Hb. rewrite Hb.
  assert (Hlen : (N.to_nat (type_ c) < length kNames)%nat)
    by (unfold kTypesCount in Hlt; simpl; lia).
  apply lookup_lt_is_Some in Hlen as [k Hk]. exists k. by rewrite Hk.
Qed.

Lemma kNames_separate i j ki kj (s1 s2 : string) :
  kNames !! i = Some ki → kNames !! j = Some kj →
  (ki +:+ "-" +:+ s1 = kj +:+ "-" +:+ s2)%string → i = j ∧ s1 = s2.
Proof.
  intros Hi Hj.
  destruct i as [|[|[|[|[|[|[|[|[|[|[|[|[|[|[|[|[|i]]]]]]]]]]]]]]]]]; simpl in Hi; try discriminate Hi;
    injection Hi as <-;
    (destruct j as [|[|[|[|[|[|[|[|[|[|[|[|[|[|[|[|[|j]]]]]]]]]]]]]]]]]; simpl in Hj; try discriminate Hj;
     injection Hj as <-);
    simpl; intros Heq; simplify_eq; done.
Qed.

Lemma kNames_no_dot k s :
  k ∈ kNames → (k +:+ "-" +:+ s)%string ≠ "..."%string.
Proof.
  unfold kNames. rewrite !elem_of_cons, elem_of_nil.
  intros H Heq. repeat destruct H as [->|H]; try done; discriminate Heq.
Qed.
End ConnectorNames.

(** X2. The three connector classes exclude each other, and the valid
    types are exactly the eleven connector types the classes list: LVDS,
    eDP, DSI, virtual and DPI are internal, HDMI-A, DisplayPort, DVI-D,
    DVI-I and VGA external, the writeback type writeback. *)
Theorem connector_classes_exclusive (c : DrmConnector.t) :
  ¬ (DrmConnector.internal c = true ∧ DrmConnector.external c = true)
  ∧ ¬ (DrmConnector.internal c = true ∧ DrmConnector.writeback c = true)
  ∧ ¬ (DrmConnector.external c = true ∧ DrmConnector.writeback c = true)
  ∧ (DrmConnector.internal c = true ↔ DrmConnector.type_ c ∈ [7; 14; 16; 15; 17]%N)
  ∧ (DrmConnector.external c = true ↔ DrmConnector.type_ c ∈ [11; 10; 3; 2; 1]%N)
  ∧ (DrmConnector.valid_type c = true
     ↔ DrmConnector.type_ c ∈ [7; 14; 16; 15; 17; 11; 10; 3; 2; 1; 18]%N).
Proof.
  unfold DrmConnector.valid_type, DrmConnector.internal, DrmConnector.external,
    DrmConnector.writeback.
  unfold DRM_MODE_CONNECTOR_LVDS, DRM_MODE_CONNECTOR_eDP, DRM_MODE_CONNECTOR_DSI,
    DRM_MODE_CONNECTOR_VIRTUAL, DRM_MODE_CONNECTOR_DPI, DRM_MODE_CONNECTOR_HDMIA,
    DRM_MODE_CONNECTOR_DisplayPort, DRM_MODE_CONNECTOR_DVID,
    DRM_MODE_CONNECTOR_DVII, DRM_MODE_CONNECTOR_VGA, DRM_MODE_CONNECTOR_WRITEBACK.
  rewrite !elem_of_cons, !elem_of_nil, !orb_true_iff, !N.eqb_eq.
  repeat split; intros; intuition lia.
Qed.

(** X3. Two connectors of named type (a type below 17) with the same name
    have the same type and the same type id: the name identifies the
    connector among those the kernel numbers per type. *)
Theorem name_injective (c1 c2 : DrmConnector.t) :
  (DrmConnector.type_ c1 < DrmConnector.kTypesCount)%N →
  (DrmConnector.type_ c2 < DrmConnector.kTypesCount)%N →
  DrmConnector.name c1 = DrmConnector.name c2 →
  DrmConnector.type_ c1 = DrmConnector.type_ c2
  ∧ DrmConnector.type_id_ c1 = DrmConnector.type_id_ c2.
Proof.
  intros H1 H2 Heq.
  destruct (name_named c1 H1) as (k1 & Hk1 & Hn1).
  destruct (name_named c2 H2) as (k2 & Hk2 & Hn2).
  rewrite Hn1, Hn2 in Heq.
  destruct (kNames_separate _ _ _ _ _ _ Hk1 Hk2 Heq) as [Ht Hid].
  split; [lia|]. by apply (inj pretty).
Qed.

Lemma name_injective_witness :
  DrmConnector.name DeviceExamples.edp_panel = "eDP-1"%string
  ∧ DrmConnector.type_ DeviceExamples.edp_panel
    = DrmConnector.type_ (DrmConnector.set_display 3 DeviceExamples.edp_panel)
  ∧ DrmConnector.type_id_ DeviceExamples.edp_panel
    = DrmConnector.type_id_ (DrmConnector.set_display 3 DeviceExamples.edp_panel).
Proof.
  split; [reflexivity|].
  apply (name_injective DeviceExamples.edp_panel
           (DrmConnector.set_display 3 DeviceExamples.edp_panel));
    [reflexivity | reflexivity | reflexivity].
Defined.

(** X4. No connector is named "...": the wildcard entry of the preference
    list never matches, so a list with the wildcard appended places the
    same connectors, in the same positions, as the list without it. *)
Theorem wildcard_places_nothing (c : DrmConnector.t) (display_order : list string)
    (primary_candidates : list (nat * DrmConnector.t)) (curr_connector : nat) :
  DrmConnector.name c ≠ "..."%string
  ∧ DrmDevice.place_ordered (display_order ++ ["..."%string])
                            primary_candidates curr_connector
    = DrmDevice.place_ordered display_order primary_candidates curr_connector.
Proof.
  assert (Hname : ∀ c, DrmConnector.name c ≠ "..."%string).
  { intros c0. destruct (decide (DrmConnector.type_ c0 < DrmConnector.kTypesCount)%N)
      as [Hlt|Hge].
    - destruct (name_named c0 Hlt) as (k & Hk & ->).
      apply kNames_no_dot. by eapply list_elem_of_lookup_2.
    - unfold DrmConnector.name. apply N.ltb_nlt in Hge. by rewrite Hge. }
  split; [apply Hname|].
  revert primary_candidates curr_connector.
  induction display_order as [|display_name rest IH]; intros cands curr.
  - simpl.
    destruct (list_find _ cands) as [[it conn]|] eqn:Hfind; [|done].
    apply list_find_Some in Hfind as (_ & Hbad & _). by apply Hname in Hbad.
  - simpl. destruct (list_find _ cands) as [[it conn]|]; [|apply IH].
    destruct (DrmDevice.iter_swap it curr cands); simpl; [apply IH|done].
Qed.

(** ** Sequences of calls on a composition *)

Section CompositionCallsProofs.
Import DrmDisplayComposition CompositionCalls.

Lemma call_invariants op c :
  let c' := (call op c).2 in
  crtc_ c' = crtc_ c
  ∧ layers_ c `prefix_of` layers_ c'
  ∧ composition_planes_ c `prefix_of` composition_planes_ c'
  ∧ (type_ c ≠ DRM_COMPOSITION_TYPE_EMPTY → type_ c' = type_ c)
  ∧ (payload_matches_kind c → payload_matches_kind c').
Proof.
  unfold payload_matches_kind.
  destruct op; simpl; unfold SetLayers, SetDpmsMode, SetDisplayMode;
    try (destruct (validate_composition_type c _) eqn:Hv; simpl;
         [apply validate_composition_type_spec in Hv|]);
    repeat split; try done; try (by apply prefix_app_r);
    try (intros; intuition congruence).
Qed.

Lemma calls_invariants ops : ∀ c,
  let c' := calls ops c in
  crtc_ c' = crtc_ c
  ∧ layers_ c `prefix_of` layers_ c'
  ∧ composition_planes_ c `prefix_of` composition_planes_ c'
  ∧ (type_ c ≠ DRM_COMPOSITION_TYPE_EMPTY → type_ c' = type_ c)
  ∧ (payload_matches_kind c → payload_matches_kind c').
Proof.
  induction ops as [|op ops IH]; intros c; [done|].
  destruct (call_invariants op c) as (Hc & Hl & Hp & Ht & Hk).
  destruct (IH (call op c).2) as (Hc' & Hl' & Hp' & Ht' & Hk').
  unfold calls in *. simpl.
  split; [congruence|]. split; [by etrans|]. split; [by etrans|].
  split; [|tauto].
  intros Hne. rewrite Ht'; [by apply Ht|]. rewrite Ht; done.
Qed.
End CompositionCallsProofs.

(** X5. Over any sequence of calls of the five mutators, whatever each
    returned: the CRTC of the composition never changes, the layers and
    the composition planes it had stay in front of those added, a kind
    other than empty stays what it is, and if only a frame carried layers
    and only a modeset a display mode before, that is still so after. *)
Theorem composition_kind_is_permanent (ops : list CompositionCalls.Call)
    (c : DrmDisplayComposition.t) :
  let c' := CompositionCalls.calls ops c in
  DrmDisplayComposition.crtc_ c' = DrmDisplayComposition.crtc_ c
  ∧ DrmDisplayComposition.layers_ c `prefix_of` DrmDisplayComposition.layers_ c'
  ∧ DrmDisplayComposition.composition_planes_ c
      `prefix_of` DrmDisplayComposition.composition_planes_ c'
  ∧ (DrmDisplayComposition.type_ c ≠ DRM_COMPOSITION_TYPE_EMPTY →
     DrmDisplayComposition.type_ c' = DrmDisplayComposition.type_ c)
  ∧ (CompositionCalls.payload_matches_kind c →
     CompositionCalls.payload_matches_kind c').
Proof. apply calls_invariants. Qed.

Lemma composition_kind_is_permanent_witness :
  DrmDisplayComposition.type_
    (CompositionCalls.calls
       [CompositionCalls.CallSetLayers [Examples.layer_rgb] false;
        CompositionCalls.CallAddPlaneDisable 1%nat;
        CompositionCalls.CallSetDisplayMode (DrmMode.mk 1 (mkModeInfo 1280 720 60 0 0))]
       Examples.dpms_off)
  = DRM_COMPOSITION_TYPE_DPMS.
Proof.
  apply (composition_kind_is_permanent
           [CompositionCalls.CallSetLayers [Examples.layer_rgb] false;
            CompositionCalls.CallAddPlaneDisable 1%nat;
            CompositionCalls.CallSetDisplayMode
              (DrmMode.mk 1 (mkModeInfo 1280 720 60 0 0))]
           Examples.dpms_off).
  discriminate.
Defined.

(** X6. Two calls of [SetLayers] on an empty or frame composition both
    return 0; the layers of the second call follow those of the first,
    which follow the layers already there, and the geometry-changed flag
    is the one of the second call: the flag of the first call is
    overwritten, not kept. *)
Theorem SetLayers_appends (c : DrmDisplayComposition.t)
    (layers1 layers2 : list DrmHwcLayer) (geometry1 geometry2 : bool) :
  DrmDisplayComposition.type_ c = DRM_COMPOSITION_TYPE_EMPTY
  ∨ DrmDisplayComposition.type_ c = DRM_COMPOSITION_TYPE_FRAME →
  let r1 := DrmDisplayComposition.SetLayers layers1 geometry1 c in
  let r2 := DrmDisplayComposition.SetLayers layers2 geometry2 r1.2 in
  r1.1 = 0 ∧ r2.1 = 0
  ∧ DrmDisplayComposition.layers_ r2.2
    = DrmDisplayComposition.layers_ c ++ layers1 ++ layers2
  ∧ DrmDisplayComposition.geometry_changed_ r2.2 = geometry2
  ∧ DrmDisplayComposition.type_ r2.2 = DRM_COMPOSITION_TYPE_FRAME.
Proof.
  intros Hkind. unfold DrmDisplayComposition.SetLayers.
  apply validate_composition_type_spec in Hkind as ->.
  simpl. by rewrite <- (assoc_L (++)).
Qed.

Lemma SetLayers_appends_witness :
  let r1 := DrmDisplayComposition.SetLayers [Examples.layer_rgb] true
              (DrmDisplayComposition.new None) in
  let r2 := DrmDisplayComposition.SetLayers [Examples.layer_rgb] false r1.2 in
  length (DrmDisplayComposition.layers_ r2.2) = 2%nat
  ∧ DrmDisplayComposition.geometry_changed_ r2.2 = false.
Proof.
  destruct (SetLayers_appends (DrmDisplayComposition.new None)
              [Examples.layer_rgb] [Examples.layer_rgb] true false)
    as (_ & _ & Hl & Hg & _); [by left|].
  cbv zeta. split; [rewrite Hl; reflexivity | exact Hg].
Defined.

(** ** Plan: what the pools can lose, and planning for two displays *)

Section PlanShrinks.
Import DrmDisplayComposition PlanSpec.
Variable planes_ : DrmPlanePtr → DrmPlane.t.

Lemma erase_first_sublist pl (l : list DrmPlanePtr) : erase_first pl l `sublist_of` l.
Proof.
  induction l as [|j rest IH]; simpl; [done|].
  destruct (decide (j = pl)); [by apply sublist_cons | by apply sublist_skip].
Qed.

Lemma erase_first_other pl x (l : list DrmPlanePtr) :
  x ≠ pl → x ∈ l → x ∈ erase_first pl l.
Proof.
  intros Hne. induction l as [|j rest IH]; simpl; [done|].
  rewrite elem_of_cons. intros [->|Hx].
  - rewrite decide_False by done. apply list_elem_of_here.
  - destruct (decide (j = pl)); [done|]. apply list_elem_of_further. by apply IH.
Qed.

Lemma erase_first_length pl (l : list DrmPlanePtr) :
  (length l ≤ S (length (erase_first pl l)))%nat.
Proof.
  induction l as [|j rest IH]; simpl; [lia|].
  destruct (decide (j = pl)); simpl; lia.
Qed.

(** Whatever the pools hold, the loop only takes planes out: the pools
    keep their order, a plane that no composition plane refers to stays,
    and at most one entry goes per reference. *)
Lemma remove_used_shrinks cps : ∀ p o,
  (remove_used planes_ cps p o).1.2 `sublist_of` p
  ∧ (remove_used planes_ cps p o).2 `sublist_of` o
  ∧ (∀ x, x ∉ used_planes cps →
       (x ∈ p → x ∈ (remove_used planes_ cps p o).1.2)
       ∧ (x ∈ o → x ∈ (remove_used planes_ cps p o).2))
  ∧ (length p + length o
     ≤ length (remove_used planes_ cps p o).1.2
       + length (remove_used planes_ cps p o).2 + length (used_planes cps))%nat.
Proof.
  induction cps as [|[ty [pl|] src] rest IH]; intros p o; simpl.
  - repeat split; try done. lia.
  - change (used_planes (DrmCompositionPlane.mk ty (Some pl) src :: rest))
      with (pl :: used_planes rest).
    destruct (DrmPlane.type (planes_ pl) =? DRM_PLANE_TYPE_PRIMARY)%N.
    + destruct (IH (erase_first pl p) o) as (Hp & Ho & Hkeep & Hlen).
      pose proof (erase_first_sublist pl p) as Hsub.
      pose proof (erase_first_length pl p) as Hel.
      destruct (remove_used planes_ rest (erase_first pl p) o) as [[r p'] o'].
      simpl in *. split; [by etrans|]. split; [done|]. split; [|lia].
      intros x Hx. apply not_elem_of_cons in Hx as [Hne Hx].
      destruct (Hkeep x Hx) as [Hkp Hko]. split; [|done].
      intros Hin. by apply Hkp, erase_first_other.
    + destruct (IH p (erase_first pl o)) as (Hp & Ho & Hkeep & Hlen).
      pose proof (erase_first_sublist pl o) as Hsub.
      pose proof (erase_first_length pl o) as Hel.
      destruct (remove_used planes_ rest p (erase_first pl o)) as [[r p'] o'].
      simpl in *. split; [done|]. split; [by etrans|]. split; [|lia].
      intros x Hx. apply not_elem_of_cons in Hx as [Hne Hx].
      destruct (Hkeep x Hx) as [Hkp Hko]. split; [done|].
      intros Hin. by apply Hko, erase_first_other.
  - change (used_planes (DrmCompositionPlane.mk ty None src :: rest))
      with (used_planes rest).
    specialize (IH p o).
    destruct (remove_used planes_ rest p o) as [[r p'] o']. simpl in *. done.
Qed.

Lemma remove_used_same_planes cps p o :
  used_planes (remove_used planes_ cps p o).1.1 = used_planes cps.
Proof. apply sorted_version_used_planes, remove_used_planes. Qed.
End PlanShrinks.

(** X7. For every planner, whatever it returns: [Plan] of a frame never
    adds a plane to a pool and never reorders one.  The pools it leaves
    are sublists of the pools the planner left; a plane that no
    composition plane refers to is still in its pool; and the pools have
    lost at most one entry per plane reference. *)
Theorem Plan_pools_only_shrink
    (ProvisionPlanes : DrmDisplayComposition.PlannerCall →
                       DrmDisplayComposition.PlannerResult)
    (planes_ : DrmPlanePtr → DrmPlane.t)
    (c : DrmDisplayComposition.t) (primary_planes overlay_planes : list DrmPlanePtr) :
  let call := DrmDisplayComposition.mkCall
                (map_seq 0 (DrmDisplayComposition.layers_ c))
                (DrmDisplayComposition.crtc_ c) primary_planes overlay_planes in
  let r := ProvisionPlanes call in
  let out := DrmDisplayComposition.Plan ProvisionPlanes planes_ c
                                        primary_planes overlay_planes in
  let used := PlanSpec.used_planes (DrmDisplayComposition.res_planes r) in
  DrmDisplayComposition.type_ c = DRM_COMPOSITION_TYPE_FRAME →
  DrmDisplayComposition.out_primary out
    `sublist_of` DrmDisplayComposition.res_primary r
  ∧ DrmDisplayComposition.out_overlay out
      `sublist_of` DrmDisplayComposition.res_overlay r
  ∧ (∀ pl, pl ∉ used →
       (pl ∈ DrmDisplayComposition.res_primary r →
        pl ∈ DrmDisplayComposition.out_primary out)
       ∧ (pl ∈ DrmDisplayComposition.res_overlay r →
          pl ∈ DrmDisplayComposition.out_overlay out))
  ∧ (length (DrmDisplayComposition.res_primary r)
     + length (DrmDisplayComposition.res_overlay r)
     ≤ length (DrmDisplayComposition.out_primary out)
       + length (DrmDisplayComposition.out_overlay out) + length used)%nat.
Proof.
  intros call r out used Hframe. subst out.
  unfold DrmDisplayComposition.Plan. rewrite Hframe. simpl.
  fold call. fold r.
  destruct (DrmDisplayComposition.res_ret r =? 0) eqn:Hret; simpl.
  - pose proof (remove_used_shrinks planes_
                  (DrmDisplayComposition.res_planes r)
                  (DrmDisplayComposition.res_primary r)
                  (DrmDisplayComposition.res_overlay r)) as H.
    destruct (DrmDisplayComposition.remove_used planes_ _ _ _) as [[cps p] o].
    simpl in *. exact H.
  - repeat split; try done. lia.
Qed.

Lemma Plan_pools_only_shrink_witness :
  let out := DrmDisplayComposition.Plan PoolExamples.planner_cursor
               Examples.three_planes PoolExamples.frame1 [0%nat] [1%nat; 2%nat] in
  DrmDisplayComposition.out_overlay out `sublist_of` [1%nat; 2%nat]
  ∧ 1%nat ∈ DrmDisplayComposition.out_overlay out.
Proof.
  destruct (Plan_pools_only_shrink PoolExamples.planner_cursor Examples.three_planes
              PoolExamples.frame1 [0%nat] [1%nat; 2%nat]) as (_ & Ho & Hkeep & _);
    [reflexivity|].
  split; [exact Ho|].
  apply (Hkeep 1%nat).
  - simpl. intros H. apply list_elem_of_singleton in H. discriminate H.
  - apply list_elem_of_here.
Defined.

(** X8. Two displays planned one after the other on the pools of one
    device, each with its own planner: when both planners succeed and
    keep to the contract, no plane that the first composition refers to
    is referred to by the second. *)
Theorem Plan_second_display_disjoint
    (ProvisionPlanes1 ProvisionPlanes2 :
       DrmDisplayComposition.PlannerCall → DrmDisplayComposition.PlannerResult)
    (planes_ : DrmPlanePtr → DrmPlane.t)
    (c1 c2 : DrmDisplayComposition.t)
    (primary_planes overlay_planes : list DrmPlanePtr) :
  let call1 := DrmDisplayComposition.mkCall
                 (map_seq 0 (DrmDisplayComposition.layers_ c1))
                 (DrmDisplayComposition.crtc_ c1) primary_planes overlay_planes in
  let out1 := DrmDisplayComposition.Plan ProvisionPlanes1 planes_ c1
                primary_planes overlay_planes in
  let call2 := DrmDisplayComposition.mkCall
                 (map_seq 0 (DrmDisplayComposition.layers_ c2))
                 (DrmDisplayComposition.crtc_ c2)
                 (DrmDisplayComposition.out_primary out1)
                 (DrmDisplayComposition.out_overlay out1) in
  let out2 := DrmDisplayComposition.Plan ProvisionPlanes2 planes_ c2
                (DrmDisplayComposition.out_primary out1)
                (DrmDisplayComposition.out_overlay out1) in
  DrmDisplayComposition.type_ c1 = DRM_COMPOSITION_TYPE_FRAME →
  DrmDisplayComposition.type_ c2 = DRM_COMPOSITION_TYPE_FRAME →
  DrmDisplayComposition.res_ret (ProvisionPlanes1 call1) = 0 →
  DrmDisplayComposition.res_ret (ProvisionPlanes2 call2) = 0 →
  PlanSpec.planner_contract planes_ call1 (ProvisionPlanes1 call1) →
  PlanSpec.planner_contract planes_ call2 (ProvisionPlanes2 call2) →
  ∀ pl,
    pl ∈ PlanSpec.used_planes
           (DrmDisplayComposition.composition_planes_
              (DrmDisplayComposition.out_comp out1)) →
    pl ∉ PlanSpec.used_planes
           (DrmDisplayComposition.composition_planes_
              (DrmDisplayComposition.out_comp out2)).
Proof.
  intros call1 out1 call2 out2 Hf1 Hf2 Hr1 Hr2
    [[Hkp1 Hko1] [Hnp1 Hno1] Hfrom1] [_ _ Hfrom2] pl Hin1 Hin2.
  assert (Hout1 :
    DrmDisplayComposition.out_primary out1
    = filter (λ j, ¬ (j ∈ PlanSpec.used_planes
                            (DrmDisplayComposition.res_planes (ProvisionPlanes1 call1))
                      ∧ PlanSpec.is_primary planes_ j)) primary_planes
    ∧ DrmDisplayComposition.out_overlay out1
      = filter (λ j, ¬ (j ∈ PlanSpec.used_planes
                              (DrmDisplayComposition.res_planes (ProvisionPlanes1 call1))
                        ∧ ¬ PlanSpec.is_primary planes_ j)) overlay_planes
    ∧ PlanSpec.used_planes
        (DrmDisplayComposition.composition_planes_
           (DrmDisplayComposition.out_comp out1))
      = PlanSpec.used_planes
          (DrmDisplayComposition.res_planes (ProvisionPlanes1 call1))).
  { subst out1. unfold DrmDisplayComposition.Plan. rewrite Hf1. simpl.
    fold call1. rewrite Hr1. simpl.
    pose proof (remove_used_pools planes_
                  (DrmDisplayComposition.res_planes (ProvisionPlanes1 call1))
                  (DrmDisplayComposition.res_primary (ProvisionPlanes1 call1))
                  (DrmDisplayComposition.res_overlay (ProvisionPlanes1 call1)))
      as Hpools.
    pose proof (remove_used_same_planes planes_
                  (DrmDisplayComposition.res_planes (ProvisionPlanes1 call1))
                  (DrmDisplayComposition.res_primary (ProvisionPlanes1 call1))
                  (DrmDisplayComposition.res_overlay (ProvisionPlanes1 call1)))
      as Hsame.
    simpl in Hkp1, Hko1, Hnp1, Hno1.
    rewrite Hkp1, Hko1 in Hpools, Hsame |- *.
    destruct (Hpools Hnp1 Hno1) as [Hp Ho].
    destruct (DrmDisplayComposition.remove_used planes_ _ _ _) as [[cps p] o].
    simpl in *. by subst p o. }
  destruct Hout1 as (Hp1 & Ho1 & Hused1).
  assert (Hused2 :
    PlanSpec.used_planes
      (DrmDisplayComposition.composition_planes_
         (DrmDisplayComposition.out_comp out2))
    = PlanSpec.used_planes
        (DrmDisplayComposition.res_planes (ProvisionPlanes2 call2))).
  { subst out2. unfold DrmDisplayComposition.Plan. rewrite Hf2. simpl.
    fold call2. rewrite Hr2. simpl.
    pose proof (remove_used_same_planes planes_
                  (DrmDisplayComposition.res_planes (ProvisionPlanes2 call2))
                  (DrmDisplayComposition.res_primary (ProvisionPlanes2 call2))
                  (DrmDisplayComposition.res_overlay (ProvisionPlanes2 call2)))
      as Hsame.
    destruct (DrmDisplayComposition.remove_used planes_ _ _ _) as [[cps p] o].
    simpl in *. done. }
  rewrite Hused1 in Hin1. rewrite Hused2 in Hin2.
  specialize (Hfrom2 pl Hin2). simpl in Hfrom2.
  destruct (decide (PlanSpec.is_primary planes_ pl)) as [Hprim|Hprim].
  - rewrite Hp1 in Hfrom2. apply list_elem_of_filter in Hfrom2 as [Hno _].
    apply Hno. done.
  - rewrite Ho1 in Hfrom2. apply list_elem_of_filter in Hfrom2 as [Hno _].
    apply Hno. done.
Qed.

Lemma Plan_second_display_disjoint_witness :
  let out1 := DrmDisplayComposition.Plan Examples.planner_two Examples.three_planes
                Examples.frame3 [0%nat] [1%nat; 2%nat] in
  let out2 := DrmDisplayComposition.Plan PoolExamples.planner_cursor
                Examples.three_planes PoolExamples.frame1
                (DrmDisplayComposition.out_primary out1)
                (DrmDisplayComposition.out_overlay out1) in
  DrmDisplayComposition.out_overlay out1 = [2%nat]
  ∧ 1%nat ∉ PlanSpec.used_planes
              (DrmDisplayComposition.composition_planes_
                 (DrmDisplayComposition.out_comp out2)).
Proof.
  split; [reflexivity|].
  apply (Plan_second_display_disjoint Examples.planner_two PoolExamples.planner_cursor
           Examples.three_planes Examples.frame3 PoolExamples.frame1
           [0%nat] [1%nat; 2%nat]).
  - reflexivity.
  - reflexivity.
  - reflexivity.
  - reflexivity.
  - split.
    + split; reflexivity.
    + split; compute_done.
    + intros pl Hpl. change (pl ∈ [0%nat; 1%nat]) in Hpl.
      apply elem_of_cons in Hpl as [->|Hpl]; [compute_done|].
      apply list_elem_of_singleton in Hpl as ->. compute_done.
  - split.
    + split; reflexivity.
    + split; compute_done.
    + intros pl Hpl. change (pl ∈ [2%nat]) in Hpl.
      apply list_elem_of_singleton in Hpl as ->. compute_done.
  - compute_done.
Defined.

(** X9. A frame's [Plan] reads the kind, the CRTC and the layers of the
    composition and nothing else: composition planes added before it, by
    any sequence of [AddPlaneDisable] and [AddPlaneComposition], change
    nothing in what [Plan] returns and are gone from the composition it
    leaves. *)
Theorem Plan_discards_earlier_planes
    (ProvisionPlanes : DrmDisplayComposition.PlannerCall →
                       DrmDisplayComposition.PlannerResult)
    (planes_ : DrmPlanePtr → DrmPlane.t)
    (ops : list CompositionCalls.Call)
    (c : DrmDisplayComposition.t) (primary_planes overlay_planes : list DrmPlanePtr) :
  DrmDisplayComposition.type_ c = DRM_COMPOSITION_TYPE_FRAME →
  Forall (λ op, match op with
                | CompositionCalls.CallAddPlaneDisable _
                | CompositionCalls.CallAddPlaneComposition _ => True
                | _ => False
                end) ops →
  DrmDisplayComposition.Plan ProvisionPlanes planes_ (CompositionCalls.calls ops c)
                             primary_planes overlay_planes
  = DrmDisplayComposition.Plan ProvisionPlanes planes_ c
                               primary_planes overlay_planes.
Proof.
  intros Hframe Hops. revert c Hframe.
  induction Hops as [|op ops Hop Hops IH]; intros c Hframe; [done|].
  change (CompositionCalls.calls (op :: ops) c)
    with (CompositionCalls.calls ops (CompositionCalls.call op c).2).
  assert (Hstep :
    DrmDisplayComposition.type_ (CompositionCalls.call op c).2
      = DRM_COMPOSITION_TYPE_FRAME
    ∧ DrmDisplayComposition.Plan ProvisionPlanes planes_
        (CompositionCalls.call op c).2 primary_planes overlay_planes
      = DrmDisplayComposition.Plan ProvisionPlanes planes_ c
          primary_planes overlay_planes).
  { destruct op; try done; simpl; (split; [done|]);
      unfold DrmDisplayComposition.Plan; simpl; rewrite Hframe; simpl;
      destruct (DrmDisplayComposition.res_ret _ =? 0); simpl; try done;
      by destruct (DrmDisplayComposition.remove_used planes_ _ _ _) as [[cps p] o]. }
  destruct Hstep as [Hframe' Hplan]. rewrite IH by done. exact Hplan.
Qed.

Lemma Plan_discards_earlier_planes_witness :
  DrmDisplayComposition.composition_planes_
    (DrmDisplayComposition.out_comp
       (DrmDisplayComposition.Plan PoolExamples.planner_cursor Examples.three_planes
          (CompositionCalls.calls [CompositionCalls.CallAddPlaneDisable 1%nat]
             PoolExamples.frame1)
          [0%nat] [1%nat; 2%nat]))
  = [DrmCompositionPlane.mk DrmCompositionPlane.kLayer (Some 2%nat) [0%nat]].
Proof.
  rewrite (Plan_discards_earlier_planes PoolExamples.planner_cursor
             Examples.three_planes [CompositionCalls.CallAddPlaneDisable 1%nat]
             PoolExamples.frame1 [0%nat] [1%nat; 2%nat]).
  - reflexivity.
  - reflexivity.
  - repeat constructor.
Defined.

(** ** UpdateModes: mode ids across rediscovery *)

Section UpdateModesProofs.
Import DrmConnector ModesSpec.

Lemma first_preferred_cons mode modes :
  first_preferred (mode :: modes)
  = if decide (preferred_type mode) then Some (DrmMode.id mode)
    else first_preferred modes.
Proof.
  unfold first_preferred. simpl.
  destruct (decide (preferred_type mode)); [done|].
  by destruct (list_find preferred_type modes) as [[i m]|].
Qed.

Lemma preferred_bit mode :
  negb (N.land (DrmMode.type mode) DRM_MODE_TYPE_PREFERRED =? 0)%N
  = bool_decide (preferred_type mode).
Proof.
  unfold preferred_type.
  destruct (N.eqb_spec (N.land (DrmMode.type mode) DRM_MODE_TYPE_PREFERRED) 0);
    simpl; [by rewrite bool_decide_eq_false_2 by tauto
           | by rewrite bool_decide_eq_true_2].
Qed.

Lemma fresh_ids_S mode_id n :
  fresh_ids mode_id (S n) = (mode_id + 1)%N :: fresh_ids (mode_id + 1) n.
Proof.
  unfold fresh_ids. simpl. f_equal; [lia|].
  rewrite <- fmap_S_seq, <- list_fmap_compose. apply list_fmap_ext.
  intros i x _. simpl. lia.
Qed.

(** The choice the loop makes for one kernel mode. *)
Lemma mode_choice (old : list DrmMode.t) info :
  match list_find (λ mode, DrmMode.eq_info mode info) old with
  | Some (_, mode) => mode ∈ old ∧ DrmMode.info_ mode = info ∧ known old info
  | None => ¬ known old info
  end.
Proof.
  destruct (list_find _ old) as [[i mode]|] eqn:Hfind.
  - apply list_find_Some in Hfind as (Hi & Hinfo & _).
    apply list_elem_of_lookup_2 in Hi. repeat split; try done.
    apply Exists_exists. by exists mode.
  - apply list_find_None in Hfind. unfold known. by apply Forall_Exists_neg.
Qed.

Lemma update_modes_loop_spec old ks : ∀ acc mode_id pref,
  ∃ ms mode_id',
    update_modes_loop old ks acc mode_id pref
    = (acc ++ ms, mode_id',
       match pref with Some _ => pref | None => first_preferred ms end)
    ∧ DrmMode.info_ <$> ms = ks
    ∧ Forall (λ m, known old (DrmMode.info_ m) → m ∈ old) ms
    ∧ ((mode_id + N.of_nat (length ks) < 2 ^ 32)%N →
       let n := length (filter (λ info, ¬ known old info) ks) in
       DrmMode.id <$> filter (λ m, ¬ known old (DrmMode.info_ m)) ms
       = fresh_ids mode_id n
       ∧ mode_id' = (mode_id + N.of_nat n)%N).
Proof.
  induction ks as [|info rest IH]; intros acc mode_id pref; simpl.
  - exists [], mode_id. rewrite app_nil_r. repeat split; try done.
    + by destruct pref.
    + simpl. lia.
  - pose proof (mode_choice old info) as Hchoice.
    destruct (list_find _ old) as [[i mode]|].
    + destruct Hchoice as (Hin & Hinfo & Hknown).
      edestruct (IH (acc ++ [mode]) mode_id) as (ms & id' & -> & Hinfos & Hold & Hids).
      exists (mode :: ms), id'. rewrite <- (assoc_L (++)). simpl.
      split; [|split; [|split]].
      * f_equal. destruct pref as [p|]; [done|].
        rewrite first_preferred_cons, preferred_bit.
        by destruct (decide (preferred_type mode));
          [rewrite bool_decide_eq_true_2 | rewrite bool_decide_eq_false_2].
      * simpl; f_equal; [exact Hinfo | exact Hinfos].
      * constructor; done.
      * intros Hwrap. cbv zeta in *.
        rewrite (filter_cons_False _ mode) by (rewrite Hinfo; tauto).
        rewrite (filter_cons_False _ info) by tauto.
        apply Hids. lia.
    + edestruct (IH (acc ++ [DrmMode.set_id (next_mode_id mode_id)
                                            (DrmMode.of_info info)])
                    (next_mode_id mode_id))
        as (ms & id' & -> & Hinfos & Hold & Hids).
      exists (DrmMode.set_id (next_mode_id mode_id) (DrmMode.of_info info) :: ms), id'.
      rewrite <- (assoc_L (++)). simpl.
      split; [|split; [|split]].
      * f_equal. destruct pref as [p|]; [done|].
        rewrite first_preferred_cons, preferred_bit.
        by destruct (decide (preferred_type _));
          [rewrite bool_decide_eq_true_2 | rewrite bool_decide_eq_false_2].
      * simpl; f_equal; exact Hinfos.
      * constructor; [|done]. simpl. tauto.
      * intros Hwrap. cbv zeta in *.
        rewrite (filter_cons_True _ (DrmMode.set_id _ _)) by done.
        rewrite (filter_cons_True _ info) by done.
        rewrite fmap_cons. cbn [length]. rewrite fresh_ids_S.
        assert (Hnext : next_mode_id mode_id = (mode_id + 1)%N).
        { unfold next_mode_id. apply N.mod_small. lia. }
        rewrite Hnext in Hids |- *. destruct Hids as [Hids ->]; [lia|].
        rewrite Hids. split; [done|lia].
Qed.

(** With the modes of a first pass as the known modes, and no two
    kernel modes alike, every kernel mode finds its own mode again. *)
Lemma update_modes_loop_again ms2 : ∀ ms1 acc mode_id pref,
  NoDup (DrmMode.info_ <$> (ms1 ++ ms2)) →
  update_modes_loop (ms1 ++ ms2) (DrmMode.info_ <$> ms2) acc mode_id pref
  = (acc ++ ms2, mode_id,
     match pref with Some _ => pref | None => first_preferred ms2 end).
Proof.
  induction ms2 as [|m ms2 IH]; intros ms1 acc mode_id pref Hnd; simpl.
  - rewrite app_nil_r. by destruct pref.
  - assert (Hfind : list_find (λ mode, DrmMode.eq_info mode (DrmMode.info_ m))
                              (ms1 ++ m :: ms2) = Some (length ms1, m)).
    { apply list_find_Some. split; [by rewrite list_lookup_middle|].
      split; [done|]. intros j y Hj Hlt Hy.
      rewrite lookup_app_l in Hj by done.
      rewrite fmap_app in Hnd. apply NoDup_app in Hnd as (_ & Hdisj & _).
      apply (Hdisj (DrmMode.info_ y)).
      - apply list_elem_of_fmap_2. by eapply list_elem_of_lookup_2.
      - rewrite Hy. simpl. apply list_elem_of_here. }
    rewrite Hfind.
    replace (ms1 ++ m :: ms2) with ((ms1 ++ [m]) ++ ms2)
      by (by rewrite <- (assoc_L (++))).
    rewrite IH by (by rewrite <- (assoc_L (++))).
    rewrite <- (assoc_L (++)). simpl. f_equal.
    destruct pref as [p|]; [done|].
    rewrite first_preferred_cons, preferred_bit.
    by destruct (decide (preferred_type m));
      [rewrite bool_decide_eq_true_2 | rewrite bool_decide_eq_false_2].
Qed.
End UpdateModesProofs.

(** X10. When the kernel answers, [UpdateModes] returns 0; the connector
    takes the connection state reported; its modes are the kernel's, in
    the kernel's order; a mode whose timings the connector already had is
    the mode it had, id included; and the preferred mode id is the id of
    the first mode of preferred type, of the first mode when none is
    preferred, and the one it was when the kernel reports no mode. *)
Theorem UpdateModes_mirrors_kernel (k : drmModeConnector) (mode_id : N)
    (c : DrmConnector.t) :
  let r := DrmConnector.UpdateModes (Some k) mode_id c in
  let c' := r.1.2 in
  r.1.1 = 0
  ∧ DrmConnector.state c' = connection k
  ∧ DrmMode.info_ <$> DrmConnector.modes_ c' = modes k
  ∧ (∀ m, m ∈ DrmConnector.modes_ c' →
       ModesSpec.known (DrmConnector.modes_ c) (DrmMode.info_ m) →
       m ∈ DrmConnector.modes_ c)
  ∧ DrmConnector.preferred_mode_id_ c'
    = match ModesSpec.first_preferred (DrmConnector.modes_ c'),
            DrmConnector.modes_ c' with
      | Some id, _ => id
      | None, mode :: _ => DrmMode.id mode
      | None, [] => DrmConnector.preferred_mode_id_ c
      end.
Proof.
  unfold DrmConnector.UpdateModes.
  destruct (update_modes_loop_spec (DrmConnector.modes_ c) (modes k) [] mode_id None)
    as (ms & id' & -> & Hinfos & Hold & _).
  simpl. repeat split; try done.
  intros m Hm. by apply (proj1 (Forall_forall _ _) Hold).
Qed.

(** X11. As long as the 32-bit mode counter of the device does not wrap,
    the modes the connector did not know receive the next ids of the
    counter, consecutively in the kernel's order, and the counter
    advances by their number: new ids are pairwise different and above
    every id given before. *)
Theorem UpdateModes_fresh_ids (k : drmModeConnector) (mode_id : N)
    (c : DrmConnector.t) :
  (mode_id + N.of_nat (length (modes k)) < 2 ^ 32)%N →
  let r := DrmConnector.UpdateModes (Some k) mode_id c in
  let n := length (filter (λ info, ¬ ModesSpec.known (DrmConnector.modes_ c) info)
                          (modes k)) in
  DrmMode.id <$> filter (λ m, ¬ ModesSpec.known (DrmConnector.modes_ c)
                                  (DrmMode.info_ m))
                        (DrmConnector.modes_ r.1.2)
  = ModesSpec.fresh_ids mode_id n
  ∧ r.2 = (mode_id + N.of_nat n)%N.
Proof.
  intros Hwrap. unfold DrmConnector.UpdateModes.
  destruct (update_modes_loop_spec (DrmConnector.modes_ c) (modes k) [] mode_id None)
    as (ms & id' & -> & _ & _ & Hids).
  simpl. by apply Hids.
Qed.

Lemma UpdateModes_fresh_ids_witness :
  let r := DrmConnector.UpdateModes (DeviceExamples.connection_unknown 63) 7
             DeviceExamples.writeback_sink in
  DrmMode.id <$> DrmConnector.modes_ r.1.2 = [8; 9]%N ∧ r.2 = 9%N.
Proof.
  destruct (UpdateModes_fresh_ids
              (mkKernelConnector DRM_MODE_UNKNOWNCONNECTION
                 [mkModeInfo 1280 720 60 0 0;
                  mkModeInfo 1920 1080 60 0 DRM_MODE_TYPE_PREFERRED])
              7 DeviceExamples.writeback_sink) as [_ Hn]; [reflexivity|].
  split; [reflexivity|exact Hn].
Defined.

(** X12. Asking again changes nothing: when the kernel reports no two
    modes with the same timings, a second [UpdateModes] with the same
    answer returns 0 and leaves the connector, mode ids and preferred
    mode id included, and the device's mode counter as the first left
    them. *)
Theorem UpdateModes_idempotent (k : drmModeConnector) (mode_id : N)
    (c : DrmConnector.t) :
  NoDup (modes k) →
  let r := DrmConnector.UpdateModes (Some k) mode_id c in
  DrmConnector.UpdateModes (Some k) r.2 r.1.2 = (0, r.1.2, r.2).
Proof.
  intros Hnd. unfold DrmConnector.UpdateModes.
  destruct (update_modes_loop_spec (DrmConnector.modes_ c) (modes k) [] mode_id None)
    as (ms & id' & -> & Hinfos & _ & _).
  simpl.
  pose proof (update_modes_loop_again ms [] [] id' None) as Hagain.
  simpl in Hagain. rewrite Hinfos in Hagain. rewrite Hagain by done.
  simpl. do 2 f_equal.
  destruct (ModesSpec.first_preferred ms); [done|]. by destruct ms.
Qed.

Lemma UpdateModes_idempotent_witness :
  let r := DrmConnector.UpdateModes (DeviceExamples.connection_unknown 63) 7
             DeviceExamples.writeback_sink in
  DrmConnector.UpdateModes (DeviceExamples.connection_unknown 63) r.2 r.1.2
  = (0, r.1.2, 9%N).
Proof.
  apply (UpdateModes_idempotent
           (mkKernelConnector DRM_MODE_UNKNOWNCONNECTION
              [mkModeInfo 1280 720 60 0 0;
               mkModeInfo 1920 1080 60 0 DRM_MODE_TYPE_PREFERRED])
           7 DeviceExamples.writeback_sink).
  compute_done.
Defined.

(** ** VSyncWorker: the next slot, and the order of the timestamps *)

Section VSyncOrder.
Import VSyncWorker.

(** One synthetic pass of an enabled worker wakes after the clock
    reading and at most one period later. *)
Lemma SyntheticWaitVBlank_window w refresh vsync :
  0 < refresh ≤ kOneSecondNs → 0 ≤ tv_sec vsync →
  0 ≤ tv_nsec vsync < kOneSecondNs →
  last_timestamp_ w ≤ timespec_ns vsync →
  timespec_ns vsync + kOneSecondNs ÷ refresh ≤ INT64_MAX →
  timespec_ns vsync < SyntheticWaitVBlank w refresh vsync
                    ≤ timespec_ns vsync + kOneSecondNs ÷ refresh.
Proof.
  intros HT Hsec Hnsec Hle Hmax.
  destruct (SyntheticWaitVBlank_timestamp w refresh vsync HT Hsec Hnsec Hle Hmax)
    as [Hframe ->].
  destruct (Z_lt_le_dec (last_timestamp_ w) 0) as [Hneg|Hpos].
  - rewrite GetPhasedVSync_unknown; [lia | done |].
    unfold in_int64, INT64_MIN, INT64_MAX, timespec_ns, kOneSecondNs in *. nia.
  - destruct (GetPhasedVSync_known w (kOneSecondNs ÷ refresh) (timespec_ns vsync)
                Hframe ltac:(lia) Hmax) as (_ & ? & _). lia.
Qed.

Lemma run_synthetic_ordered refresh clock : ∀ w,
  enabled_ w = true → 0 < refresh ≤ kOneSecondNs → clock_ok refresh clock w →
  Forall2 (λ vsync tn, timespec_ns vsync < tn
                        ≤ timespec_ns vsync + kOneSecondNs ÷ refresh)
          clock (run_synthetic refresh clock w)
  ∧ Sorted Z.lt (run_synthetic refresh clock w)
  ∧ Forall (λ tn, last_timestamp_ w < tn) (run_synthetic refresh clock w).
Proof.
  induction clock as [|vsync rest IH]; intros w Hen HT Hok; simpl.
  - repeat constructor.
  - destruct Hok as (Hsec & Hnsec & Hle & Hmax & Hok).
    pose proof (SyntheticWaitVBlank_window w refresh vsync HT Hsec Hnsec Hle Hmax)
      as Hwin.
    unfold Routine_synthetic in *. rewrite Hen in *. simpl in *.
    destruct (IH (mk true (SyntheticWaitVBlank w refresh vsync)) eq_refl HT Hok)
      as (Hall & Hsorted & Hafter). simpl in Hafter.
    split; [by constructor|]. split.
    + constructor; [done|].
      destruct (run_synthetic refresh rest _) as [|t1 ts]; constructor.
      by apply Forall_cons in Hafter as [? _].
    + constructor; [lia|]. eapply Forall_impl; [exact Hafter|]. simpl. lia.
Qed.

Lemma run_synthetic_disabled refresh clock : ∀ w,
  enabled_ w = false → run_synthetic refresh clock w = [].
Proof.
  induction clock as [|vsync rest IH]; intros w Hen; simpl; [done|].
  unfold Routine_synthetic. rewrite Hen. by apply IH.
Qed.
End VSyncOrder.

(** X13. With a stored last timestamp, the wake time is the first instant
    after [now] that is in phase with it: it is at most one period after
    [now], and no instant in phase with the last timestamp lies between
    [now] and the wake time, so the worker never skips a slot and never
    reports one twice. *)
Theorem GetPhasedVSync_next_slot (frame_ns now : Z) (w : VSyncWorker.t) :
  0 < frame_ns → 0 ≤ VSyncWorker.last_timestamp_ w ≤ now →
  now + frame_ns ≤ INT64_MAX →
  let next := VSyncWorker.GetPhasedVSync w frame_ns now in
  now < next ≤ now + frame_ns
  ∧ ∀ t, now < t → (t - VSyncWorker.last_timestamp_ w) `mod` frame_ns = 0 →
         next ≤ t.
Proof.
  intros HT Hlast Hmax next.
  destruct (GetPhasedVSync_known w frame_ns now HT Hlast Hmax) as (Hnext & Hwin & _).
  fold next in Hnext, Hwin. split; [done|].
  intros t Hnow Hphase. apply Z.mod_divide in Hphase as [m Hm]; [|lia].
  set (l := VSyncWorker.last_timestamp_ w) in *.
  assert (Hq : frame_ns * ((now - l) / frame_ns) ≤ now - l
               < frame_ns * ((now - l) / frame_ns) + frame_ns).
  { pose proof (Z.mul_div_le (now - l) frame_ns HT).
    pose proof (Z.mul_succ_div_gt (now - l) frame_ns HT). lia. }
  assert ((now - l) / frame_ns < m) by nia.
  rewrite Hnext. nia.
Qed.

Lemma GetPhasedVSync_next_slot_witness :
  683 < VSyncWorker.GetPhasedVSync (VSyncWorker.mk true 137) 50 683 ≤ 733
  ∧ VSyncWorker.GetPhasedVSync (VSyncWorker.mk true 137) 50 683 ≤ 687.
Proof.
  destruct (GetPhasedVSync_next_slot 50 683 (VSyncWorker.mk true 137))
    as [Hwin Hfirst]; [lia | simpl; lia | unfold INT64_MAX; lia |].
  split; [exact Hwin|].
  apply Hfirst; [lia | reflexivity].
Defined.

(** X14. A run of synthetic passes of an enabled worker emits one
    timestamp per pass; each lies after the clock reading of its pass and
    at most one period later, and the timestamps increase strictly.  A
    disabled worker emits nothing, whatever the clock reads. *)
Theorem run_synthetic_one_per_pass (refresh : Z)
    (clock : list VSyncWorker.timespec) (w : VSyncWorker.t) :
  0 < refresh ≤ VSyncWorker.kOneSecondNs →
  (VSyncWorker.enabled_ w = true → VSyncWorker.clock_ok refresh clock w →
   Forall2 (λ vsync tn,
              VSyncWorker.timespec_ns vsync < tn
              ≤ VSyncWorker.timespec_ns vsync + VSyncWorker.kOneSecondNs ÷ refresh)
           clock (VSyncWorker.run_synthetic refresh clock w)
   ∧ Sorted Z.lt (VSyncWorker.run_synthetic refresh clock w))
  ∧ (VSyncWorker.enabled_ w = false →
     VSyncWorker.run_synthetic refresh clock w = []).
Proof.
  intros HT. split.
  - intros Hen Hok.
    destruct (run_synthetic_ordered refresh clock w Hen HT Hok) as (? & ? & _). done.
  - apply run_synthetic_disabled.
Qed.

Lemma run_synthetic_one_per_pass_witness :
  Sorted Z.lt
    (VSyncWorker.run_synthetic 50
       [VSyncWorker.mkTimespec 2 683; VSyncWorker.mkTimespec 2 20000700;
        VSyncWorker.mkTimespec 2 75000000]
       (VSyncWorker.VSyncControl true VSyncWorker.init))
  ∧ VSyncWorker.run_synthetic 50 [VSyncWorker.mkTimespec 2 683]
      (VSyncWorker.VSyncControl false VSyncWorker.init) = [].
Proof.
  destruct (run_synthetic_one_per_pass 50
              [VSyncWorker.mkTimespec 2 683; VSyncWorker.mkTimespec 2 20000700;
               VSyncWorker.mkTimespec 2 75000000]
              (VSyncWorker.VSyncControl true VSyncWorker.init)) as [Hon _];
    [unfold VSyncWorker.kOneSecondNs; lia|].
  destruct (run_synthetic_one_per_pass 50 [VSyncWorker.mkTimespec 2 683]
              (VSyncWorker.VSyncControl false VSyncWorker.init)) as [_ Hoff];
    [unfold VSyncWorker.kOneSecondNs; lia|].
  split; [|apply Hoff; reflexivity].
  apply Hon; [reflexivity|].
  vm_compute. repeat split; congruence.
Defined.

(** ** Display pipes: what a bind does *)

Section PipeBinds.
Import DrmDevice DeviceSpec PipeSpec.

Lemma first_possible_crtc_Some crtcs display current possible crtc :
  first_possible_crtc crtcs display current possible = Some (Some crtc) →
  ∃ c, crtcs !! crtc = Some c ∧ DrmCrtc.can_bind c display = true.
Proof.
  induction possible as [|x rest IH]; simpl; [done|].
  destruct (decide (Some x = current)); [done|].
  destruct (crtcs !! x) as [c|] eqn:Hx; simpl; [|done].
  destruct (DrmCrtc.can_bind c display) eqn:Hcan; [|done].
  intros H. injection H as <-. eauto.
Qed.

(** [TryEncoderForDisplay] either fails with [-EAGAIN] and changes
    nothing, or binds a CRTC that can bind the display. *)
Lemma TryEncoderForDisplay_inv display enc d ret d' :
  TryEncoderForDisplay display enc d = Some (ret, d') →
  (ret = - EAGAIN ∧ d' = d)
  ∨ (ret = 0
     ∧ ∃ e crtc c,
         encoders_ d !! enc = Some e ∧ crtcs_ d !! crtc = Some c
         ∧ DrmCrtc.can_bind c display = true
         ∧ d' = bind_crtc display enc crtc d).
Proof.
  unfold TryEncoderForDisplay. intros H.
  destruct (encoders_ d !! enc) as [e|] eqn:He; simpl in H; [|done].
  assert (Hsearch :
    (found ← first_possible_crtc (crtcs_ d) display (DrmEncoder.crtc e)
               (DrmEncoder.possible_crtcs e);
     match found with
     | Some crtc => Some (0, bind_crtc display enc crtc d)
     | None => Some (- EAGAIN, d)
     end) = Some (ret, d') →
    (ret = - EAGAIN ∧ d' = d)
    ∨ (ret = 0
       ∧ ∃ e0 crtc c,
           Some e = Some e0 ∧ crtcs_ d !! crtc = Some c
           ∧ DrmCrtc.can_bind c display = true
           ∧ d' = bind_crtc display enc crtc d)).
  { destruct (first_possible_crtc _ _ _ _) as [[crtc|]|] eqn:Hfind; simpl; [| |done].
    - intros Heq. injection Heq as <- <-. right. split; [done|].
      apply first_possible_crtc_Some in Hfind as (c & Hc & Hcan).
      by exists e, crtc, c.
    - intros Heq. injection Heq as <- <-. by left. }
  destruct (DrmEncoder.crtc e) as [crtc|]; simpl in H; [|by apply Hsearch].
  destruct (crtcs_ d !! crtc) as [c|] eqn:Hc; simpl in H; [|done].
  destruct (DrmCrtc.can_bind c display) eqn:Hcan; [|by apply Hsearch].
  injection H as <- <-. right. split; [done|]. by exists e, crtc, c.
Qed.

Lemma try_possible_encoders_inv display connector possible : ∀ d ret d',
  try_possible_encoders display connector possible d = Some (ret, d') →
  (ret = - ENODEV ∧ d' = d)
  ∨ (ret = 0
     ∧ ∃ enc e crtc c,
         enc ∈ possible
         ∧ encoders_ d !! enc = Some e ∧ crtcs_ d !! crtc = Some c
         ∧ DrmCrtc.can_bind c display = true
         ∧ d' = with_connectors
                  (alter (DrmConnector.set_encoder enc) connector (connectors_ d))
                  (bind_crtc display enc crtc d)).
Proof.
  induction possible as [|enc rest IH]; intros d ret d' H; simpl in H.
  - injection H as <- <-. by left.
  - destruct (TryEncoderForDisplay display enc d) as [[r d1]|] eqn:Htry;
      simpl in H; [|done].
    apply TryEncoderForDisplay_inv in Htry as [[-> ->]|(-> & e & crtc & c & He & Hc & Hcan & ->)].
    + replace (- EAGAIN =? 0) with false in H by reflexivity.
      rewrite Z.eqb_refl in H. simpl in H.
      apply IH in H as [?|(-> & enc' & e & crtc & c & Hin & ?)]; [by left|].
      right. split; [done|]. exists enc', e, crtc, c.
      split; [by apply list_elem_of_further|done].
    + simpl in H. injection H as <- <-. right. split; [done|].
      exists enc, e, crtc, c. split; [apply list_elem_of_here|done].
Qed.

Lemma CreateDisplayPipe_inv connector conn d ret d' :
  connectors_ d !! connector = Some conn →
  CreateDisplayPipe connector d = Some (ret, d') →
  (ret = - ENODEV ∧ d' = d)
  ∨ (ret = 0
     ∧ ∃ enc e crtc c,
         encoders_ d !! enc = Some e ∧ crtcs_ d !! crtc = Some c
         ∧ DrmCrtc.can_bind c (DrmConnector.display conn) = true
         ∧ ((DrmConnector.encoder conn = Some enc
             ∧ d' = bind_crtc (DrmConnector.display conn) enc crtc d)
            ∨ (enc ∈ DrmConnector.possible_encoders conn
               ∧ d' = with_connectors
                        (alter (DrmConnector.set_encoder enc) connector
                               (connectors_ d))
                        (bind_crtc (DrmConnector.display conn) enc crtc d)))).
Proof.
  intros Hconn. unfold CreateDisplayPipe. rewrite Hconn. simpl. intros H.
  assert (Hloop : ∀ ret d',
    try_possible_encoders (DrmConnector.display conn) connector
      (DrmConnector.possible_encoders conn) d = Some (ret, d') →
    (ret = - ENODEV ∧ d' = d)
    ∨ (ret = 0
       ∧ ∃ enc e crtc c,
           encoders_ d !! enc = Some e ∧ crtcs_ d !! crtc = Some c
           ∧ DrmCrtc.can_bind c (DrmConnector.display conn) = true
           ∧ ((DrmConnector.encoder conn = Some enc
               ∧ d' = bind_crtc (DrmConnector.display conn) enc crtc d)
              ∨ (enc ∈ DrmConnector.possible_encoders conn
                 ∧ d' = with_connectors
                          (alter (DrmConnector.set_encoder enc) connector
                                 (connectors_ d))
                          (bind_crtc (DrmConnector.display conn) enc crtc d))))).
  { intros r d1 Hl.
    apply try_possible_encoders_inv in Hl
      as [?|(-> & enc & e & crtc & c & ? & ? & ? & ? & ->)]; [by left|].
    right. split; [done|]. exists enc, e, crtc, c. eauto 10. }
  destruct (DrmConnector.encoder conn) as [enc|] eqn:Henc; [|by apply Hloop].
  destruct (TryEncoderForDisplay _ enc d) as [[r d1]|] eqn:Htry; simpl in H; [|done].
  apply TryEncoderForDisplay_inv in Htry
    as [[-> ->]|(-> & e & crtc & c & He & Hc & Hcan & ->)].
  - replace (- EAGAIN =? 0) with false in H by reflexivity.
    rewrite Z.eqb_refl in H. simpl in H. by apply Hloop.
  - simpl in H. injection H as <- <-. right. split; [done|].
    exists enc, e, crtc, c. eauto 10.
Qed.

(** After a bind, the encoder drives the CRTC and the CRTC shows the
    display. *)
Lemma bind_crtc_pipe d display enc crtc e c :
  encoders_ d !! enc = Some e → crtcs_ d !! crtc = Some c →
  let d' := bind_crtc display enc crtc d in
  encoders_ d' !! enc = Some (DrmEncoder.set_crtc crtc display e)
  ∧ crtcs_ d' !! crtc = Some (DrmCrtc.set_display display c)
  ∧ connectors_ d' = connectors_ d.
Proof.
  intros He Hc.
  destruct (bind_crtc_effect d display enc crtc e c He Hc) as (Hcs & Hes & Hco & _).
  cbv zeta. rewrite Hcs, Hes. split; [|split; [|done]];
    apply list_lookup_insert_eq; by eapply lookup_lt_Some.
Qed.

Lemma crtc_step_trans c1 c2 c3 :
  crtc_step c1 c2 → crtc_step c2 c3 → crtc_step c1 c3.
Proof.
  unfold crtc_step. intros [->|[H1 H2]] [->|[H3 H4]]; auto.
  right. split; [done|]. rewrite H4, H2. by destruct c1.
Qed.

Lemma crtcs_kept_refl d : crtcs_kept d d.
Proof. apply Forall_Forall2_diag, Forall_forall. intros c _. by left. Qed.

Lemma crtcs_kept_trans d1 d2 d3 :
  crtcs_kept d1 d2 → crtcs_kept d2 d3 → crtcs_kept d1 d3.
Proof.
  intros H1 H2. eapply Forall2_trans; [apply crtc_step_trans | exact H1 | exact H2].
Qed.

Lemma crtcs_kept_eq d d' : crtcs_ d' = crtcs_ d → crtcs_kept d d'.
Proof. unfold crtcs_kept. intros ->. apply (crtcs_kept_refl d). Qed.

Lemma crtcs_kept_bind d display enc crtc c :
  crtcs_ d !! crtc = Some c → DrmCrtc.can_bind c display = true →
  crtcs_kept d (bind_crtc display enc crtc d).
Proof.
  intros Hc Hcan. unfold crtcs_kept, bind_crtc. simpl.
  apply Forall2_alter_r; [apply (crtcs_kept_refl d)|].
  intros x y Hx Hy _. rewrite Hc in Hx, Hy. injection Hx as <-. injection Hy as <-.
  unfold DrmCrtc.can_bind in Hcan. apply orb_true_iff in Hcan as [H|H].
  - right. apply Z.eqb_eq in H. done.
  - left. apply Z.eqb_eq in H. destruct c. simpl in *. by subst.
Qed.

Lemma CreateDisplayPipe_crtcs connector d ret d' :
  CreateDisplayPipe connector d = Some (ret, d') → crtcs_kept d d'.
Proof.
  destruct (connectors_ d !! connector) as [conn|] eqn:Hconn.
  2:{ unfold CreateDisplayPipe. by rewrite Hconn. }
  intros H.
  destruct (CreateDisplayPipe_inv _ conn _ _ _ Hconn H)
    as [[_ ->]|(_ & enc & e & crtc & c & He & Hc & Hcan & [[_ ->]|[_ ->]])].
  - apply crtcs_kept_refl.
  - by eapply crtcs_kept_bind.
  - by eapply (crtcs_kept_bind d).
Qed.

Lemma AttachWriteback_crtcs drmModeGetConnector display_conn d ret d' :
  AttachWriteback drmModeGetConnector display_conn d = Some (ret, d') →
  crtcs_ d' = crtcs_ d.
Proof.
  unfold AttachWriteback. intros H.
  destruct (connectors_ d !! display_conn) as [conn|]; simpl in H; [|done].
  destruct (DrmConnector.encoder conn) as [enc|]; simpl in H; [|done].
  destruct (encoders_ d !! enc) as [e|]; simpl in H; [|done].
  destruct (DrmEncoder.crtc e) as [display_crtc|]; simpl in H; [|done].
  destruct (crtcs_ d !! display_crtc) as [c|]; simpl in H; [|done].
  destruct (GetWritebackConnectorForDisplay d _); [by injection H as <- <-|].
  destruct (writeback_conn_loop _ _ _ _ _) as [[[j wenc]|]|]; simpl in H;
    [| by injection H as <- <- | done].
  injection H as <- <-. unfold bind_writeback. simpl.
  destruct (writeback_connectors_ d !! j) as [wc|]; [|done].
  by destruct (DrmConnector.UpdateModes _ _ _) as [[r wc'] mid].
Qed.

Lemma create_pipes_crtcs drmModeGetConnector conns : ∀ d ret d',
  create_pipes drmModeGetConnector conns d = Some (ret, d') → crtcs_kept d d'.
Proof.
  induction conns as [|conn rest IH]; intros d ret d' H; simpl in H.
  - injection H as <- <-. apply crtcs_kept_refl.
  - destruct (CreateDisplayPipe conn d) as [[r d1]|] eqn:Hpipe; simpl in H; [|done].
    apply CreateDisplayPipe_crtcs in Hpipe.
    destruct (negb (r =? 0)); [by injection H as <- <-|].
    destruct (AttachWriteback _ conn d1) as [[r2 d2]|] eqn:Hwb; simpl in H; [|done].
    apply AttachWriteback_crtcs in Hwb.
    eapply crtcs_kept_trans; [done|].
    eapply crtcs_kept_trans; [by apply crtcs_kept_eq|]. by eapply IH.
Qed.
End PipeBinds.

(** X15. On a device whose pointers are valid, [CreateDisplayPipe]
    returns, with 0 or with [-ENODEV].  With [-ENODEV] the device is as it
    was.  With 0 the connector has an encoder that drives a CRTC, that
    CRTC shows the display of the connector, and [GetCrtcForDisplay]
    finds a CRTC for that display. *)
Theorem CreateDisplayPipe_binds_display (d : DrmDevice.t) (connector : nat)
    (conn : DrmConnector.t) :
  DeviceSpec.valid_pointers d →
  DrmDevice.connectors_ d !! connector = Some conn →
  ∃ ret d',
    DrmDevice.CreateDisplayPipe connector d = Some (ret, d')
    ∧ (ret = 0 ∨ ret = - ENODEV ∧ d' = d)
    ∧ (ret = 0 →
       ∃ crtc c,
         DeviceSpec.has_pipe d' connector crtc c
         ∧ DrmCrtc.display c = DrmConnector.display conn
         ∧ is_Some (DrmDevice.GetCrtcForDisplay d' (DrmConnector.display conn))).
Proof.
  intros Hvalid Hconn.
  destruct (CreateDisplayPipe_total connector d Hvalid)
    as (ret & d' & Hpipe & _); [by eapply lookup_lt_Some|].
  exists ret, d'. split; [done|].
  pose proof (CreateDisplayPipe_inv _ conn _ _ _ Hconn Hpipe) as Hinv.
  destruct Hinv as [[-> ->]|(-> & enc & e & crtc & c & He & Hc & Hcan & Hd')].
  { split; [by right|]. unfold ENODEV. lia. }
  split; [by left|]. intros _.
  destruct (bind_crtc_pipe d (DrmConnector.display conn) enc crtc e c He Hc)
    as (He' & Hc' & Hco').
  exists crtc, (DrmCrtc.set_display (DrmConnector.display conn) c).
  assert (Hfind : ∀ d0, DrmDevice.crtcs_ d0 !! crtc
                        = Some (DrmCrtc.set_display (DrmConnector.display conn) c) →
            is_Some (DrmDevice.GetCrtcForDisplay d0 (DrmConnector.display conn))).
  { intros d0 Hlk. unfold DrmDevice.GetCrtcForDisplay.
    apply fmap_is_Some.
    eapply list_find_elem_of; [by eapply list_elem_of_lookup_2|done]. }
  destruct Hd' as [[Henc ->]|[Hin ->]].
  - split; [|split; [done|by apply Hfind]].
    exists conn, enc, (DrmEncoder.set_crtc crtc (DrmConnector.display conn) e).
    rewrite Hco'. done.
  - split; [|split; [done|by apply Hfind]].
    exists (DrmConnector.set_encoder enc conn), enc,
      (DrmEncoder.set_crtc crtc (DrmConnector.display conn) e).
    split; [|split; [done|split; [exact He'|split; [done|exact Hc']]]].
    simpl. rewrite list_lookup_alter_eq, Hconn. done.
Qed.

Lemma CreateDisplayPipe_binds_display_witness :
  ∃ ret d',
    DrmDevice.CreateDisplayPipe 1%nat DeviceExamples.hdmi_then_edp = Some (ret, d')
    ∧ (ret = 0 ∨ ret = - ENODEV ∧ d' = DeviceExamples.hdmi_then_edp).
Proof.
  destruct (CreateDisplayPipe_binds_display DeviceExamples.hdmi_then_edp 1%nat
              DeviceExamples.edp_panel) as (ret & d' & H1 & H2 & _).
  - apply hdmi_then_edp_valid.
  - reflexivity.
  - exists ret, d'. split; [exact H1 | exact H2].
Defined.

(** X16. The loop of [Init] that creates a pipe and attaches a writeback
    connector per connector never takes a CRTC away from a display: every
    CRTC of the device keeps its id and its pipe; a CRTC bound to a
    display before the loop is unchanged after it; a CRTC that was
    unbound is unbound still or bound to one display. *)
Theorem pipes_never_rebind_crtc
    (drmModeGetConnector : N → option drmModeConnector)
    (conns : list nat) (d d' : DrmDevice.t) (ret : Z) :
  DrmDevice.create_pipes drmModeGetConnector conns d = Some (ret, d') →
  PipeSpec.crtcs_kept d d'
  ∧ DrmCrtc.id_ <$> DrmDevice.crtcs_ d' = DrmCrtc.id_ <$> DrmDevice.crtcs_ d
  ∧ DrmCrtc.pipe_ <$> DrmDevice.crtcs_ d' = DrmCrtc.pipe_ <$> DrmDevice.crtcs_ d
  ∧ ∀ crtc c, DrmDevice.crtcs_ d !! crtc = Some c → DrmCrtc.display c ≠ -1 →
              DrmDevice.crtcs_ d' !! crtc = Some c.
Proof.
  intros H. apply create_pipes_crtcs in H.
  split; [done|]. unfold PipeSpec.crtcs_kept in H.
  split; [|split].
  - symmetry. apply list_eq_Forall2, Forall2_fmap.
    eapply Forall2_impl; [exact H|].
    intros c c' [->|[_ ->]]; by destruct c.
  - symmetry. apply list_eq_Forall2, Forall2_fmap.
    eapply Forall2_impl; [exact H|].
    intros c c' [->|[_ ->]]; by destruct c.
  - intros crtc c Hc Hbound.
    destruct (Forall2_lookup_l _ _ _ _ _ H Hc) as (c' & Hc' & [->|[Hun _]]);
      [done|]. by destruct Hbound.
Qed.

Lemma pipes_never_rebind_crtc_witness :
  ∃ ret d',
    DrmDevice.create_pipes DeviceExamples.connection_unknown [0%nat]
      DeviceExamples.panel_piped = Some (ret, d')
    ∧ DrmDevice.crtcs_ d' !! 1%nat = Some (DrmCrtc.mk 42 1 0).
Proof.
  destruct (DrmDevice.create_pipes DeviceExamples.connection_unknown [0%nat]
              DeviceExamples.panel_piped) as [[ret d']|] eqn:H.
  - exists ret, d'. split; [reflexivity|].
    destruct (pipes_never_rebind_crtc _ _ _ _ _ H) as (_ & _ & _ & Hk).
    apply Hk; [reflexivity | simpl; lia].
  - vm_compute in H. discriminate H.
Defined.

(** ** The display ids [Init] hands out *)

Section DisplayIdsProofs.
Import DrmDevice DeviceSpec DisplayIds.

Lemma ids_cons conn rest :
  ids (conn :: rest)
  = if decide (0 ≤ DrmConnector.display conn)
    then DrmConnector.display conn :: ids rest else ids rest.
Proof.
  unfold ids. rewrite fmap_cons.
  destruct (decide (0 ≤ DrmConnector.display conn));
    [by rewrite filter_cons_True | by rewrite filter_cons_False].
Qed.

Lemma ids_fresh connectors :
  Forall (λ conn, DrmConnector.display conn < 0) connectors → ids connectors = [].
Proof.
  induction 1 as [|conn rest Hneg _ IH]; [done|].
  rewrite ids_cons, decide_False by lia. done.
Qed.

Lemma ids_alter_fresh connectors : ∀ i conn num,
  Forall (λ conn, DrmConnector.display conn < 0) connectors →
  connectors !! i = Some conn → 0 ≤ num →
  ids (alter (DrmConnector.set_display num) i connectors) = [num].
Proof.
  induction connectors as [|c rest IH]; intros i conn num Hfresh Hi Hnum; [done|].
  apply Forall_cons in Hfresh as [Hc Hrest].
  destruct i as [|i]; simpl.
  - rewrite ids_cons. simpl. rewrite decide_True by done.
    by rewrite ids_fresh.
  - rewrite ids_cons, decide_False by lia. by eapply IH.
Qed.

Lemma ids_elem_of connectors k :
  k ∈ ids connectors ↔ 0 ≤ k ∧ ∃ conn, conn ∈ connectors ∧ DrmConnector.display conn = k.
Proof.
  unfold ids. rewrite list_elem_of_filter, list_elem_of_fmap. split.
  - intros [Hk (conn & -> & Hin)]. eauto.
  - intros [Hk (conn & Hin & <-)]. eauto.
Qed.

Lemma GetConnectorForDisplay_is_Some d k :
  is_Some (GetConnectorForDisplay d k)
  ↔ ∃ conn, conn ∈ connectors_ d ∧ DrmConnector.display conn = k.
Proof.
  unfold GetConnectorForDisplay. rewrite fmap_is_Some. split.
  - intros [[i conn] Hfind]. apply list_find_Some in Hfind as (Hi & Hk & _).
    exists conn. split; [by eapply list_elem_of_lookup_2|done].
  - intros (conn & Hin & Hk). by eapply list_find_elem_of.
Qed.

Lemma add_displays_lookup n : ∀ next (displays : gmap Z Z) k,
  add_displays n next displays !! k
  = if decide (next ≤ k < next + Z.of_nat n) then Some k else displays !! k.
Proof.
  induction n as [|n IH]; intros next displays k; simpl.
  - rewrite decide_False by lia. done.
  - rewrite IH. destruct (decide (next + 1 ≤ k < next + 1 + Z.of_nat n)).
    + rewrite decide_True by lia. done.
    + destruct (decide (k = next)) as [->|Hne].
      * rewrite lookup_insert_eq, decide_True by lia. done.
      * rewrite lookup_insert_ne, decide_False by lia. done.
Qed.

(** The numbering loop, on connectors whose ids all lie below [next]:
    the ids afterwards are the old ones and [next, ..., n' - 1], where
    [n'] is the counter the loop ends on, and the table gains exactly
    these. *)
Lemma assign_displays_ids connectors : ∀ next found displays,
  0 ≤ next →
  (found = false → Forall (λ conn, DrmConnector.display conn < 0) connectors) →
  Forall (λ conn, DrmConnector.display conn < next) connectors →
  let res := assign_displays connectors next found displays in
  next ≤ res.1.1.2
  ∧ ids res.1.1.1 ≡ₚ ids connectors ++ seqZ next (res.1.1.2 - next)
  ∧ res.2 = add_displays (Z.to_nat (res.1.1.2 - next)) next displays.
Proof.
  induction connectors as [|conn rest IH]; intros next found displays Hnext Hfresh Hbelow.
  - simpl. rewrite Z.sub_diag. split; [lia|]. by split.
  - apply Forall_cons in Hbelow as [Hc Hrest].
    assert (Hassign :
      DrmConnector.display conn < 0 →
      let res := (let '(r, n, f, m) :=
                    assign_displays rest (next + 1) true (<[next:=next]> displays) in
                  (DrmConnector.set_display next conn :: r, n, f, m)) in
      next ≤ res.1.1.2
      ∧ ids res.1.1.1 ≡ₚ ids (conn :: rest) ++ seqZ next (res.1.1.2 - next)
      ∧ res.2 = add_displays (Z.to_nat (res.1.1.2 - next)) next displays).
    { intros Hneg.
      destruct (IH (next + 1) true (<[next:=next]> displays)) as (Hle & Hids & Hm);
        [lia | done | eapply Forall_impl; [exact Hrest|]; simpl; lia |].
      destruct (assign_displays rest (next + 1) true (<[next:=next]> displays))
        as [[[r n] f] m]. simpl in *.
      split; [lia|]. split.
      - rewrite ids_cons. simpl. rewrite decide_True by done.
        rewrite (ids_cons conn), decide_False by lia.
        rewrite (seqZ_cons next) by lia.
        replace (Z.succ next) with (next + 1) by lia.
        replace (Z.pred (n - next)) with (n - (next + 1)) by lia.
        rewrite Hids. apply Permutation_middle.
      - replace (Z.to_nat (n - next)) with (S (Z.to_nat (n - (next + 1)))) by lia.
        done. }
    assert (Hkeep : ∀ found',
      (found' = false → Forall (λ conn, DrmConnector.display conn < 0) rest) →
      let res := (let '(r, n, f, m) := assign_displays rest next found' displays in
                  (conn :: r, n, f, m)) in
      next ≤ res.1.1.2
      ∧ ids res.1.1.1 ≡ₚ ids (conn :: rest) ++ seqZ next (res.1.1.2 - next)
      ∧ res.2 = add_displays (Z.to_nat (res.1.1.2 - next)) next displays).
    { intros found' Hf.
      destruct (IH next found' displays Hnext Hf Hrest) as (Hle & Hids & Hm).
      destruct (assign_displays rest next found' displays) as [[[r n] f] m].
      simpl in *. split; [done|]. split; [|done].
      rewrite !ids_cons. destruct (decide (0 ≤ DrmConnector.display conn)); [|done].
      simpl. by rewrite Hids. }
    simpl.
    destruct (DrmConnector.external conn || DrmConnector.internal conn).
    + destruct found; simpl.
      * destruct (Z.ltb_spec (DrmConnector.display conn) 0); [by apply Hassign|].
        by apply Hkeep.
      * apply Hassign. specialize (Hfresh eq_refl).
        by apply Forall_cons in Hfresh as [? _].
    + apply Hkeep. intros ->. specialize (Hfresh eq_refl).
      by apply Forall_cons in Hfresh as [_ ?].
Qed.

(** The assignment pass of [Init] on a device that has no display yet. *)
Lemma Init_assign_dense std_partition display_order num_displays d :
  partition_contract std_partition →
  display_order ≠ [] → NoDup display_order → 0 ≤ num_displays →
  Forall (λ conn, DrmConnector.display conn < 0) (connectors_ d) →
  displays_ d = ∅ →
  ∃ d1 n,
    Init_assign std_partition display_order num_displays d = Some d1
    ∧ 0 ≤ n
    ∧ ids (connectors_ d1) ≡ₚ seqZ num_displays n
    ∧ table_is_range (displays_ d1) num_displays n.
Proof.
  intros Hpart Hne Hnd Hnum Hfresh Hempty. unfold Init_assign.
  destruct (make_primary_display_candidates_total std_partition (connectors_ d)
              display_order Hpart Hne Hnd) as (cands & -> & Hcands).
  simpl.
  assert (Hbelow : Forall (λ conn, DrmConnector.display conn < num_displays)
                          (connectors_ d)).
  { eapply Forall_impl; [exact Hfresh|]. simpl. lia. }
  assert (Hplain : ∀ found,
    (found = false → True) →
    ∃ d1 n,
      (let '(conns, _, _, displays) :=
         assign_displays (connectors_ d) num_displays found (displays_ d) in
       Some (with_displays displays (with_connectors conns d))) = Some d1
      ∧ 0 ≤ n
      ∧ ids (connectors_ d1) ≡ₚ seqZ num_displays n
      ∧ table_is_range (displays_ d1) num_displays n).
  { intros found _.
    destruct (assign_displays_ids (connectors_ d) num_displays found (displays_ d)
                Hnum (λ _, Hfresh) Hbelow) as (Hle & Hids & Hm).
    destruct (assign_displays (connectors_ d) num_displays found (displays_ d))
      as [[[r n] f] m]. simpl in *.
    eexists _, (n - num_displays). split; [reflexivity|]. split; [lia|]. simpl.
    split; [by rewrite Hids, ids_fresh|].
    intros k. rewrite Hm, add_displays_lookup, Hempty, lookup_empty.
    rewrite Z2Nat.id by lia. done. }
  unfold assign_primary. destruct cands as [|[p c] rest]; [by apply Hplain|].
  destruct (Z.eqb_spec num_displays 0) as [->|Hnz]; simpl; [|by apply Hplain].
  apply Forall_cons in Hcands as [[Hp _] _]. simpl in Hp.
  destruct (assign_displays_ids
              (alter (DrmConnector.set_display 0) p (connectors_ d)) (0 + 1) true
              (<[0:=0]> (displays_ d))) as (Hle & Hids & Hm); [lia | done | |].
  { apply Forall_alter; [eapply Forall_impl; [exact Hfresh|]; simpl; lia|].
    simpl. intros; lia. }
  destruct (assign_displays _ (0 + 1) true _) as [[[r n] f] m]. simpl in *.
  eexists _, n. split; [reflexivity|]. split; [lia|]. simpl. split.
  - rewrite Hids, (ids_alter_fresh _ _ c) by done.
    rewrite (seqZ_cons 0) by lia. simpl.
    replace (Z.pred n) with (n - 1) by lia. done.
  - intros k. rewrite Hm, add_displays_lookup, Hempty.
    rewrite Z2Nat.id by lia.
    destruct (decide (k = 0)) as [->|Hk].
    + rewrite lookup_insert_eq. repeat case_decide; try done; lia.
    + rewrite lookup_insert_ne, lookup_empty by done.
      repeat case_decide; try done; lia.
Qed.

Lemma table_is_range_size displays first n :
  0 ≤ n → table_is_range displays first n → size displays = Z.to_nat n.
Proof.
  intros Hn Htable.
  assert (Heq : displays = add_displays (Z.to_nat n) first ∅).
  { apply map_eq. intros k. rewrite Htable, add_displays_lookup, lookup_empty.
    by rewrite Z2Nat.id by lia. }
  rewrite Heq, size_add_displays; [by rewrite map_size_empty|].
  intros k [v Hk]. by rewrite lookup_empty in Hk.
Qed.

Lemma table_is_range_handles d first n k :
  table_is_range (displays_ d) first n →
  HandlesDisplay d k = true ↔ first ≤ k < first + n.
Proof.
  intros Htable. unfold HandlesDisplay. rewrite bool_decide_eq_true, Htable.
  destruct (decide (first ≤ k < first + n)); split; done.
Qed.

Lemma keeps_ids d d' : keeps d d' → ids (connectors_ d') = ids (connectors_ d).
Proof.
  intros [_ Hid]. unfold ids. f_equal.
  assert (Hfst : ∀ l : list DrmConnector.t,
            DrmConnector.display <$> l = (λ x, x.1.1.1) <$> (identity_of <$> l)).
  { intros l. rewrite <- list_fmap_compose. done. }
  by rewrite !Hfst, Hid.
Qed.
End DisplayIdsProofs.

(** X17. The assignment pass of [Init] on a freshly enumerated device:
    with [n] the number of ids it hands out, the ids held by connectors
    are exactly [num_displays, ..., num_displays + n - 1], each held by
    one connector; the display table lists exactly these ids, each mapped
    to itself; so the device handles a display exactly when a connector
    holds its id. *)
Theorem Init_assign_numbers_densely
    (std_partition : (nat * DrmConnector.t → bool) →
                     list (nat * DrmConnector.t) → list (nat * DrmConnector.t))
    (display_order : list string) (num_displays : Z) (d : DrmDevice.t) :
  DeviceSpec.partition_contract std_partition →
  display_order ≠ [] → NoDup display_order → 0 ≤ num_displays →
  Forall (λ conn, DrmConnector.display conn < 0) (DrmDevice.connectors_ d) →
  DrmDevice.displays_ d = ∅ →
  ∃ d1,
    DrmDevice.Init_assign std_partition display_order num_displays d = Some d1
    ∧ NoDup (DisplayIds.ids (DrmDevice.connectors_ d1))
    ∧ (∀ k, DrmDevice.HandlesDisplay d1 k = true
            ↔ num_displays ≤ k
              < num_displays + Z.of_nat (size (DrmDevice.displays_ d1)))
    ∧ (∀ k, DrmDevice.HandlesDisplay d1 k = true
            ↔ 0 ≤ k ∧ is_Some (DrmDevice.GetConnectorForDisplay d1 k))
    ∧ (∀ k, DrmDevice.HandlesDisplay d1 k = true →
            DrmDevice.displays_ d1 !! k = Some k).
Proof.
  intros Hpart Hne Hnd Hnum Hfresh Hempty.
  destruct (Init_assign_dense std_partition display_order num_displays d
              Hpart Hne Hnd Hnum Hfresh Hempty) as (d1 & n & Hd1 & Hn & Hids & Htable).
  exists d1. split; [done|].
  pose proof (table_is_range_size _ _ _ Hn Htable) as Hsize.
  split; [rewrite Hids; apply NoDup_seqZ|]. split; [|split].
  - intros k. rewrite (table_is_range_handles d1 num_displays n) by done.
    rewrite Hsize, Z2Nat.id by lia. done.
  - intros k. rewrite (table_is_range_handles d1 num_displays n) by done.
    rewrite GetConnectorForDisplay_is_Some.
    rewrite <- (elem_of_seqZ num_displays n k), <- Hids, ids_elem_of. done.
  - intros k Hk. apply (table_is_range_handles d1 num_displays n) in Hk; [|done].
    rewrite Htable, decide_True by done. done.
Qed.

Lemma Init_assign_numbers_densely_witness :
  ∃ d1,
    DrmDevice.Init_assign DeviceSpec.stable_partition ["..."%string] 0
      DeviceExamples.edp_then_hdmi = Some d1
    ∧ NoDup (DisplayIds.ids (DrmDevice.connectors_ d1)).
Proof.
  destruct (Init_assign_numbers_densely DeviceSpec.stable_partition ["..."%string] 0
              DeviceExamples.edp_then_hdmi) as (d1 & H1 & H2 & _).
  - apply stable_partition_contract.
  - discriminate.
  - apply NoDup_singleton.
  - lia.
  - repeat constructor.
  - reflexivity.
  - exists d1. split; [exact H1 | exact H2].
Defined.

(** X18. What [Init] reports against what the device handles, on a
    freshly enumerated device: when [Init] returns, the device handles
    exactly the displays [num_displays, ..., num_displays + n - 1] for the
    number [n] of ids handed out, each of them has a connector, and the
    number of displays reported is [n] with status 0 and 0 with any other
    status, although the device handles them all the same. *)
Theorem Init_reports_what_it_handles
    (drmModeGetConnector : N → option drmModeConnector)
    (std_partition : (nat * DrmConnector.t → bool) →
                     list (nat * DrmConnector.t) → list (nat * DrmConnector.t))
    (k : DrmDevice.KernelReplies) (display_order : list string)
    (num_displays : Z) (d d' : DrmDevice.t) (ret reported : Z) :
  DeviceSpec.partition_contract std_partition →
  display_order ≠ [] → NoDup display_order → 0 ≤ num_displays →
  Forall (λ conn, DrmConnector.display conn < 0) (DrmDevice.connectors_ d) →
  DrmDevice.displays_ d = ∅ →
  DrmDevice.Init drmModeGetConnector std_partition k display_order num_displays d
  = Some (ret, reported, d') →
  ∃ n, 0 ≤ n
       ∧ (∀ display, DrmDevice.HandlesDisplay d' display = true
                     ↔ num_displays ≤ display < num_displays + n)
       ∧ (∀ display, num_displays ≤ display < num_displays + n →
                     is_Some (DrmDevice.GetConnectorForDisplay d' display))
       ∧ NoDup (DisplayIds.ids (DrmDevice.connectors_ d'))
       ∧ (ret = 0 → reported = n)
       ∧ (ret ≠ 0 → reported = 0).
Proof.
  intros Hpart Hne Hnd Hnum Hfresh Hempty Hinit.
  destruct (Init_after_assign drmModeGetConnector std_partition k display_order
              num_displays d ret reported d' Hinit)
    as (d1 & Hassign & Hkeeps & Hok & Hfail).
  destruct (Init_assign_dense std_partition display_order num_displays d
              Hpart Hne Hnd Hnum Hfresh Hempty) as (d1' & n & Hd1 & Hn & Hids & Htable).
  rewrite Hassign in Hd1. injection Hd1 as <-.
  pose proof (keeps_ids _ _ Hkeeps) as Hsame. destruct Hkeeps as [Hdisp _].
  exists n. split; [done|]. split; [|split; [|split; [|split]]].
  - intros display. apply table_is_range_handles. by rewrite Hdisp.
  - intros display Hrange. apply GetConnectorForDisplay_is_Some.
    apply (elem_of_seqZ num_displays n display) in Hrange.
    rewrite <- Hids, <- Hsame, ids_elem_of in Hrange. tauto.
  - rewrite Hsame, Hids. apply NoDup_seqZ.
  - intros Hret. rewrite (Hok Hret), (table_is_range_size _ _ _ Hn Htable). lia.
  - exact Hfail.
Qed.

Lemma Init_reports_what_it_handles_witness :
  ∃ d', DrmDevice.Init DeviceExamples.connection_unknown DeviceSpec.stable_partition
          DeviceExamples.kernel_ok ["..."%string] 0 DeviceExamples.edp_then_hdmi
        = Some (0, 2, d')
        ∧ NoDup (DisplayIds.ids (DrmDevice.connectors_ d')).
Proof.
  pose proof Init_edp_then_hdmi as Hrun.
  destruct (DrmDevice.Init _ _ _ _ _ _) as [[[ret n] d']|] eqn:Hinit; [|discriminate Hrun].
  simpl in Hrun. injection Hrun as -> -> _.
  exists d'. split; [reflexivity|].
  destruct (Init_reports_what_it_handles DeviceExamples.connection_unknown
              DeviceSpec.stable_partition DeviceExamples.kernel_ok ["..."%string] 0
              DeviceExamples.edp_then_hdmi d' 0 2) as (m & _ & _ & _ & Hnd & _).
  - apply stable_partition_contract.
  - discriminate.
  - apply NoDup_singleton.
  - lia.
  - repeat constructor.
  - reflexivity.
  - exact Hinit.
  - exact Hnd.
Defined.

(** ** The order of the primary display candidates *)

Section CandidateOrder.
Import DrmDevice DeviceSpec CandidateSpec.

Lemma iter_swap_Permutation {A} it curr (l l' : list A) :
  iter_swap it curr l = Some l' → l' ≡ₚ l.
Proof.
  unfold iter_swap. intros H.
  destruct (l !! it) as [x|] eqn:Hit; simpl in H; [|done].
  destruct (l !! curr) as [y|] eqn:Hcurr; simpl in H; [|done].
  injection H as <-.
  pose proof (lookup_lt_Some _ _ _ Hit) as Hlit.
  pose proof (lookup_lt_Some _ _ _ Hcurr) as Hlcurr.
  apply Permutation_inj. split; [by rewrite !length_insert|].
  exists (λ i, if decide (i = it) then curr
               else if decide (i = curr) then it else i).
  split.
  - intros i j Hij. repeat case_decide; subst; congruence.
  - intros i. destruct (decide (i = it)) as [->|Hne].
    + rewrite list_lookup_insert_eq by (rewrite length_insert; lia). done.
    + rewrite list_lookup_insert_ne by done.
      destruct (decide (i = curr)) as [->|Hne'].
      * rewrite list_lookup_insert_eq by lia. done.
      * rewrite list_lookup_insert_ne by done. done.
Qed.

Lemma names_Permutation (l k : list Candidate) name :
  l ≡ₚ k → name ∈ names l ↔ name ∈ names k.
Proof. intros H. unfold names. by rewrite H. Qed.

(** The placing loop: the connectors it has placed so far stay where
    they are, none is added or lost, and the ones it places are, in the
    order of the list, the first candidate of each name the list has. *)
Lemma place_ordered_spec display_order : ∀ (cands : list Candidate) curr,
  NoDup display_order → (curr ≤ length cands)%nat →
  (∀ i conn, (i < curr)%nat → cands !! i = Some conn →
     DrmConnector.name conn.2 ∉ display_order) →
  ∃ cands' curr',
    place_ordered display_order cands curr = Some (cands', curr')
    ∧ cands' ≡ₚ cands
    ∧ take curr cands' = take curr cands
    ∧ (curr ≤ curr' ≤ length cands')%nat
    ∧ names (drop curr (take curr' cands'))
      = filter (λ name, name ∈ names cands) display_order.
Proof.
  induction display_order as [|dn rest IH]; intros cands curr Hnd Hcurr Hprefix; simpl.
  { exists cands, curr. repeat split; try done; try lia.
    rewrite drop_ge by (rewrite length_take; lia). done. }
  apply NoDup_cons in Hnd as [Hdn Hnd].
  destruct (list_find _ cands) as [[it x]|] eqn:Hfind.
  2:{ apply list_find_None in Hfind.
      destruct (IH cands curr Hnd Hcurr) as (cands' & curr' & -> & ? & ? & ? & Hn).
      { intros i conn Hi Hlk Hin. apply (Hprefix i conn Hi Hlk).
        by apply list_elem_of_further. }
      exists cands', curr'. repeat split; try done; try lia.
      rewrite filter_cons_False; [done|].
      unfold names. rewrite list_elem_of_fmap. intros (cand & Hname & Hin).
      by apply (proj1 (Forall_forall _ _) Hfind cand Hin). }
  apply list_find_Some in Hfind as (Hit & Hx & _).
  assert (Hge : (curr ≤ it)%nat).
  { destruct (decide (curr ≤ it)%nat) as [|Hlt]; [done|]. exfalso.
    apply (Hprefix it x); [lia | done |]. rewrite Hx. apply list_elem_of_here. }
  pose proof (lookup_lt_Some _ _ _ Hit) as Hlen.
  destruct (lookup_lt_is_Some_2 cands curr ltac:(lia)) as [y Hy].
  assert (Hswap : iter_swap it curr cands = Some (<[it:=y]> (<[curr:=x]> cands))).
  { unfold iter_swap. rewrite Hit. simpl. by rewrite Hy. }
  rewrite Hswap. simpl.
  pose proof (iter_swap_Permutation _ _ _ _ Hswap) as Hperm.
  set (swapped := <[it:=y]> (<[curr:=x]> cands)) in *.
  assert (Hat : swapped !! curr = Some x).
  { unfold swapped. destruct (decide (it = curr)) as [->|Hitc].
    - rewrite list_lookup_insert_eq by (rewrite length_insert; lia). congruence.
    - rewrite list_lookup_insert_ne by done.
      by rewrite list_lookup_insert_eq by lia. }
  destruct (IH swapped (S curr) Hnd) as (cands' & curr' & -> & Hp & Htake & Hc & Hn).
  { unfold swapped. rewrite !length_insert. lia. }
  { intros i conn Hi Hlk.
    destruct (decide (i = curr)) as [->|Hne].
    - rewrite Hat in Hlk. injection Hlk as <-. by rewrite Hx.
    - unfold swapped in Hlk.
      rewrite list_lookup_insert_ne in Hlk by lia.
      rewrite list_lookup_insert_ne in Hlk by lia.
      intros Hin. apply (Hprefix i conn); [lia | done |].
      by apply list_elem_of_further. }
  exists cands', curr'. split; [done|]. split; [by etrans|].
  assert (Hcurr' : cands' !! curr = Some x).
  { rewrite <- (lookup_take_lt cands' (S curr)) by lia.
    rewrite Htake, lookup_take_lt by lia. done. }
  split; [|split; [lia|]].
  - assert (Hmin : ∀ l : list Candidate, take curr l = take curr (take (S curr) l)).
    { intros l. rewrite take_take. f_equal. lia. }
    rewrite (Hmin cands'), Htake, <- Hmin. unfold swapped.
    rewrite take_insert_ge by done. by rewrite take_insert_ge by done.
  - rewrite (drop_S _ x) by (by rewrite lookup_take_lt by lia).
    unfold names in *. rewrite fmap_cons, Hn, Hx.
    rewrite filter_cons_True.
    2:{ rewrite list_elem_of_fmap. exists x. split; [done|].
        by eapply list_elem_of_lookup_2. }
    f_equal. apply list_filter_iff. intros name.
    apply (names_Permutation swapped cands name Hperm).
Qed.

Lemma snd_filter_imap (P : DrmConnector.t → Prop) `{∀ x, Decision (P x)}
    (l : list DrmConnector.t) : ∀ g : nat → nat,
  snd <$> filter (λ cand : Candidate, P cand.2) (imap (λ i x, (g i, x)) l)
  = filter P l.
Proof.
  induction l as [|x l IH]; intros g; [done|].
  rewrite imap_cons. destruct (decide (P x)) as [Hx|Hx].
  - rewrite !filter_cons_True by done. rewrite fmap_cons. simpl. f_equal.
    apply (IH (g ∘ S)).
  - rewrite !filter_cons_False by done. apply (IH (g ∘ S)).
Qed.

Lemma names_initial connectors :
  names (filter (λ conn : Candidate, DrmConnector.state conn.2 = DRM_MODE_CONNECTED)
                (imap pair connectors))
  = connected_names connectors.
Proof.
  unfold names, connected_names.
  rewrite <- (snd_filter_imap _ connectors id).
  rewrite <- list_fmap_compose. done.
Qed.

Lemma stable_partition_partitions : partitions stable_partition.
Proof.
  intros P l. unfold stable_partition.
  exists (filter (λ x, Is_true (P x)) l), (filter (λ x, ¬ Is_true (P x)) l).
  split; [done|]. split; [|split].
  - apply Forall_forall. intros x Hx. apply list_elem_of_filter in Hx as [Hx _].
    by apply Is_true_true.
  - apply Forall_forall. intros x Hx. apply list_elem_of_filter in Hx as [Hx _].
    by apply Is_true_false.
  - apply filter_app_complement.
Qed.
End CandidateOrder.

(** X19. A preference list, without repetition, that does not end in the
    wildcard: the candidates are one connector for each entry of the list
    that names a connected connector, in the order of the list, and
    nothing else; each of them is a connected connector of the device. *)
Theorem candidates_are_the_named
    (std_partition : (nat * DrmConnector.t → bool) →
                     list (nat * DrmConnector.t) → list (nat * DrmConnector.t))
    (connectors : list DrmConnector.t) (display_order : list string) (back : string) :
  NoDup display_order →
  last display_order = Some back → back ≠ "..."%string →
  ∃ cands,
    DrmDevice.make_primary_display_candidates std_partition connectors display_order
    = Some cands
    ∧ CandidateSpec.names cands = CandidateSpec.named display_order connectors
    ∧ Forall (DeviceSpec.connected_candidate connectors) cands.
Proof.
  intros Hnd Hlast Hback. unfold DrmDevice.make_primary_display_candidates.
  rewrite Hlast. simpl.
  destruct (place_ordered_spec display_order
              (filter (λ conn : nat * DrmConnector.t,
                         DrmConnector.state conn.2 = DRM_MODE_CONNECTED)
                      (imap pair connectors)) 0 Hnd ltac:(lia))
    as (cands' & curr' & -> & Hperm & _ & Hcurr & Hnames); [intros; lia|].
  simpl. exists (take curr' cands').
  rewrite bool_decide_eq_false_2 by done. split; [done|]. split.
  - rewrite drop_0 in Hnames. rewrite Hnames. unfold CandidateSpec.named.
    apply list_filter_iff. intros name. by rewrite names_initial.
  - apply Forall_take. rewrite Hperm. apply initial_candidates.
Qed.

Lemma candidates_are_the_named_witness :
  CandidateSpec.names
    <$> DrmDevice.make_primary_display_candidates DeviceSpec.stable_partition
          [DeviceExamples.hdmi_unplugged; DeviceExamples.edp_panel]
          ["HDMI-A-1"; "eDP-1"]%string
  = Some ["eDP-1"%string].
Proof.
  destruct (candidates_are_the_named DeviceSpec.stable_partition
              [DeviceExamples.hdmi_unplugged; DeviceExamples.edp_panel]
              ["HDMI-A-1"; "eDP-1"]%string "eDP-1"%string)
    as (cands & -> & Hnames & _).
  - compute_done.
  - reflexivity.
  - discriminate.
  - simpl. rewrite Hnames. reflexivity.
Defined.

(** X20. A preference list, without repetition, that ends in the
    wildcard: the candidates are all the connected connectors of the
    device, each once; first, in the order of the list, one for each
    entry that names a connected connector, then the internal ones among
    the rest, then the others. *)
Theorem candidates_with_wildcard
    (std_partition : (nat * DrmConnector.t → bool) →
                     list (nat * DrmConnector.t) → list (nat * DrmConnector.t))
    (connectors : list DrmConnector.t) (display_order : list string) :
  NoDup display_order →
  last display_order = Some "..."%string →
  CandidateSpec.partitions std_partition →
  ∃ placed inner outer,
    DrmDevice.make_primary_display_candidates std_partition connectors display_order
    = Some (placed ++ inner ++ outer)
    ∧ CandidateSpec.names placed = CandidateSpec.named display_order connectors
    ∧ Forall (λ cand, DrmConnector.internal cand.2 = true) inner
    ∧ Forall (λ cand, DrmConnector.internal cand.2 = false) outer
    ∧ placed ++ inner ++ outer
      ≡ₚ filter (λ cand : nat * DrmConnector.t,
                   DrmConnector.state cand.2 = DRM_MODE_CONNECTED)
                (imap pair connectors).
Proof.
  intros Hnd Hlast Hpart. unfold DrmDevice.make_primary_display_candidates.
  rewrite Hlast. simpl.
  destruct (place_ordered_spec display_order
              (filter (λ conn : nat * DrmConnector.t,
                         DrmConnector.state conn.2 = DRM_MODE_CONNECTED)
                      (imap pair connectors)) 0 Hnd ltac:(lia))
    as (cands' & curr' & -> & Hperm & _ & Hcurr & Hnames); [intros; lia|].
  simpl.
  destruct (Hpart (λ conn, DrmConnector.internal conn.2) (drop curr' cands'))
    as (inner & outer & -> & Hin & Hout & Hp).
  exists (take curr' cands'), inner, outer.
  split; [done|]. split; [|split; [done|]].
  - rewrite drop_0 in Hnames. rewrite Hnames. unfold CandidateSpec.named.
    apply list_filter_iff. intros name. by rewrite names_initial.
  - split; [done|]. by rewrite Hp, take_drop.
Qed.

Lemma candidates_with_wildcard_witness :
  ∃ placed inner outer,
    DrmDevice.make_primary_display_candidates DeviceSpec.stable_partition
      [DeviceExamples.hdmi_unplugged; DeviceExamples.edp_panel] ["..."%string]
    = Some (placed ++ inner ++ outer)
    ∧ CandidateSpec.names placed = []
    ∧ Forall (λ cand, DrmConnector.internal cand.2 = true) inner.
Proof.
  destruct (candidates_with_wildcard DeviceSpec.stable_partition
              [DeviceExamples.hdmi_unplugged; DeviceExamples.edp_panel]
              ["..."%string])
    as (placed & inner & outer & H1 & H2 & H3 & _).
  - apply NoDup_singleton.
  - reflexivity.
  - apply stable_partition_partitions.
  - exists placed, inner, outer.
    split; [exact H1|]. split; [rewrite H2; reflexivity | exact H3].
Defined.

(** ** Reading the primary display order *)

Section DisplayOrderProofs.
Import Stdlib.Strings.Ascii.
Import DisplayOrderProp.

Lemma trim_left_head str :
  trim_left str = []
  ∨ ∃ ch rest, trim_left str = ch :: rest ∧ isspace ch = false.
Proof.
  induction str as [|ch rest IH]; simpl; [by left|].
  destruct (isspace ch) eqn:Hch; [done|]. right. by exists ch, rest.
Qed.

Lemma trim_left_idemp str : trim_left (trim_left str) = trim_left str.
Proof.
  destruct (trim_left_head str) as [->|(ch & rest & -> & Hch)]; [done|].
  simpl. by rewrite Hch.
Qed.

Lemma trim_left_spaces pre str :
  Forall (λ ch, isspace ch = true) pre → trim_left (pre ++ str) = trim_left str.
Proof. induction 1 as [|ch pre Hch _ IH]; simpl; [done|]. by rewrite Hch. Qed.

Lemma trim_left_elem x str : x ∈ trim_left str → x ∈ str.
Proof.
  induction str as [|ch rest IH]; simpl; [done|].
  destruct (isspace ch); [|done]. intros Hx. apply list_elem_of_further. by apply IH.
Qed.

Lemma trim_left_snoc str ch :
  isspace ch = false → ∃ v, trim_left (str ++ [ch]) = v ++ [ch].
Proof.
  intros Hch. induction str as [|c rest [v IH]]; simpl.
  - rewrite Hch. by exists [].
  - destruct (isspace c); [by exists v|]. by exists (c :: rest).
Qed.

(** Trimming a trimmed string changes nothing. *)
Lemma trim_idemp str : trim (trim str) = trim str.
Proof.
  unfold trim.
  assert (Hleft : trim_left (trim_right (trim_left str)) = trim_right (trim_left str)).
  { destruct (trim_left_head str) as [->|(ch & rest & -> & Hch)]; [done|].
    unfold trim_right. rewrite reverse_cons.
    destruct (trim_left_snoc (reverse rest) ch Hch) as [v ->].
    rewrite reverse_snoc. simpl. by rewrite Hch. }
  rewrite Hleft. unfold trim_right. by rewrite reverse_involutive, trim_left_idemp.
Qed.

Lemma trim_elem x str : x ∈ trim str → x ∈ str.
Proof.
  unfold trim, trim_right. rewrite elem_of_reverse. intros Hx.
  apply trim_left_elem in Hx. rewrite elem_of_reverse in Hx.
  by apply trim_left_elem.
Qed.

Lemma entry_trimmed raw :
  ","%char ∉ raw → entry (String.string_of_list_ascii (trim raw)).
Proof.
  intros Hraw. unfold entry. rewrite String.list_ascii_of_string_of_list_ascii.
  split; [apply trim_idemp|]. intros Hin. by apply Hraw, trim_elem.
Qed.

Lemma getline_loop_entries str : ∀ conn_name extracted,
  ","%char ∉ conn_name →
  Forall entry (getline_loop conn_name extracted str).
Proof.
  induction str as [|ch rest IH]; intros conn_name extracted Hname; simpl.
  - destruct extracted; [|constructor]. constructor; [|constructor].
    by apply entry_trimmed.
  - destruct (decide (ch = ","%char)) as [->|Hch].
    + constructor; [by apply entry_trimmed|]. apply IH. by intros ?%elem_of_nil.
    + apply IH. rewrite elem_of_app, list_elem_of_singleton. intros [?|?]; done.
Qed.

Lemma getline_loop_nonempty str : ∀ conn_name extracted,
  str ≠ [] ∨ extracted = true → getline_loop conn_name extracted str ≠ [].
Proof.
  induction str as [|ch rest IH]; intros conn_name extracted Hne; simpl.
  - destruct Hne as [? | ->]; done.
  - destruct (decide (ch = ","%char)); [done|]. apply IH. by right.
Qed.

(** Characters without a comma are taken up by the current call. *)
Lemma getline_loop_app s : ∀ conn_name extracted rest,
  ","%char ∉ s →
  getline_loop conn_name extracted (s ++ rest)
  = getline_loop (conn_name ++ s) (extracted || bool_decide (s ≠ [])) rest.
Proof.
  induction s as [|ch s IH]; intros conn_name extracted rest Hs.
  - rewrite app_nil_r, bool_decide_eq_false_2 by (by intros ?).
    by rewrite orb_false_r.
  - apply not_elem_of_cons in Hs as [Hch Hs].
    rewrite (bool_decide_eq_true_2 (ch :: s ≠ [])) by done.
    rewrite orb_true_r.
    change (getline_loop conn_name extracted ((ch :: s) ++ rest))
      with (if decide (ch = ","%char)
            then String.string_of_list_ascii (trim conn_name)
                 :: getline_loop [] false (s ++ rest)
            else getline_loop (conn_name ++ [ch]) true (s ++ rest)).
    rewrite decide_False by done. rewrite IH by done.
    by rewrite <- (assoc_L (++)).
Qed.

Lemma list_ascii_of_string_app s1 s2 :
  String.list_ascii_of_string (s1 +:+ s2)
  = String.list_ascii_of_string s1 ++ String.list_ascii_of_string s2.
Proof. induction s1 as [|ch s1 IH]; simpl; [done|]. by rewrite <- IH. Qed.

Lemma list_ascii_of_string_nil s : String.list_ascii_of_string s = [] ↔ s = ""%string.
Proof. destruct s; split; done. Qed.

Lemma getline_loop_concat names : ∀ pre extracted,
  names ≠ [] → Forall entry names →
  Forall (λ ch, isspace ch = true) pre →
  extracted = true ∨ String.concat ", " names ≠ ""%string →
  getline_loop pre extracted (String.list_ascii_of_string (String.concat ", " names))
  = names.
Proof.
  induction names as [|name rest IH]; intros pre extracted Hne Hall Hpre Hsome; [done|].
  apply Forall_cons in Hall as [[Htrim Hcomma] Hrest].
  assert (Hname : String.string_of_list_ascii (trim (pre ++ String.list_ascii_of_string name)) = name).
  { unfold trim. rewrite trim_left_spaces by done. fold (trim (String.list_ascii_of_string name)).
    by rewrite Htrim, String.string_of_list_ascii_of_string. }
  destruct rest as [|name' rest].
  - simpl. rewrite <- (app_nil_r (String.list_ascii_of_string name)).
    rewrite getline_loop_app by done. simpl.
    assert (Hex : extracted || bool_decide (String.list_ascii_of_string name ≠ []) = true).
    { destruct Hsome as [-> | Hs]; [done|]. simpl in Hs.
      rewrite bool_decide_eq_true_2; [by rewrite orb_true_r|].
      by rewrite list_ascii_of_string_nil. }
    by rewrite Hex, Hname.
  - change (String.concat ", " (name :: name' :: rest))
      with (name +:+ ", " +:+ String.concat ", " (name' :: rest))%string.
    rewrite !list_ascii_of_string_app.
    rewrite getline_loop_app by done.
    change (String.list_ascii_of_string ", ") with [","%char; " "%char].
    simpl. rewrite Hname. f_equal.
    apply (IH [" "%char] true); [done | done | by repeat constructor | by left].
Qed.
End DisplayOrderProofs.

(** X21. Whatever the property holds, the preference list read from it
    is never empty, so its last entry, which [make_primary_display_candidates]
    compares with the wildcard, exists; an unset or empty property gives
    the list with the wildcard alone; and every entry is stored trimmed
    (trimming it again changes nothing) and holds no comma. *)
Theorem display_order_never_empty (value : option string) :
  let display_order := DisplayOrderProp.read_primary_display_order_prop value in
  is_Some (last display_order)
  ∧ Forall DisplayOrderProp.entry display_order
  ∧ ((value = None ∨ value = Some ""%string) → display_order = ["..."%string]).
Proof.
  unfold DisplayOrderProp.read_primary_display_order_prop.
  set (buf := DisplayOrderProp.property_get value "...").
  assert (Hbuf : buf ≠ ""%string).
  { unfold buf, DisplayOrderProp.property_get.
    destruct value as [v|]; [|done]. by destruct (decide (v = ""%string)). }
  split; [|split].
  - pose proof (getline_loop_nonempty (String.list_ascii_of_string buf) [] false) as Hne.
    destruct (DisplayOrderProp.getline_loop [] false (String.list_ascii_of_string buf))
      as [|x l] eqn:Hloop.
    + exfalso. apply Hne; [|done]. left. by rewrite list_ascii_of_string_nil.
    + rewrite last_cons. by destruct (last l).
  - apply getline_loop_entries. by intros ?%elem_of_nil.
  - intros [->| ->]; reflexivity.
Qed.

Lemma display_order_never_empty_witness :
  DisplayOrderProp.read_primary_display_order_prop None = ["..."%string]
  ∧ DisplayOrderProp.read_primary_display_order_prop (Some " HDMI-A-1 ,eDP-1,"%string)
    = ["HDMI-A-1"; "eDP-1"]%string.
Proof.
  split; [|reflexivity].
  apply (display_order_never_empty None). by left.
Defined.

(** X22. Writing a list and reading it back: for a non-empty list of
    entries (trimmed, without comma) joined by a comma and a space, the
    preference list read from the property is that list, provided the
    joined value is not the empty string. *)
Theorem display_order_round_trip (names : list string) :
  names ≠ [] → Forall DisplayOrderProp.entry names →
  String.concat ", " names ≠ ""%string →
  DisplayOrderProp.read_primary_display_order_prop (Some (String.concat ", " names))
  = names.
Proof.
  intros Hne Hall Hsome.
  unfold DisplayOrderProp.read_primary_display_order_prop,
    DisplayOrderProp.property_get.
  rewrite decide_False by done.
  apply getline_loop_concat; [done | done | constructor | by right].
Qed.

Lemma display_order_round_trip_witness :
  DisplayOrderProp.read_primary_display_order_prop (Some "HDMI-A-1, eDP-1, ..."%string)
  = ["HDMI-A-1"; "eDP-1"; "..."]%string.
Proof.
  apply (display_order_round_trip ["HDMI-A-1"; "eDP-1"; "..."]%string).
  - discriminate.
  - repeat constructor; try reflexivity; compute_done.
  - discriminate.
Defined.

(** X23. A preference list can ask for more connectors than there are
    candidates: when every candidate has been placed and the next entry
    names one of them again, the loop swaps with the end of the vector,
    which has no element, and the selection has no defined result.  So it
    is for a device with one connected connector whose name stands twice
    at the head of the list. *)
Theorem duplicate_entry_swaps_past_the_end
    (std_partition : (nat * DrmConnector.t → bool) →
                     list (nat * DrmConnector.t) → list (nat * DrmConnector.t))
    (display_name : string) (rest : list string)
    (cands : list (nat * DrmConnector.t)) (cand : nat * DrmConnector.t)
    (conn : DrmConnector.t) :
  (cand ∈ cands → DrmConnector.name cand.2 = display_name →
   DrmDevice.place_ordered (display_name :: rest) cands (length cands) = None)
  ∧ (DrmConnector.state conn = DRM_MODE_CONNECTED →
     DrmDevice.make_primary_display_candidates std_partition [conn]
       (DrmConnector.name conn :: DrmConnector.name conn :: rest) = None).
Proof.
  assert (Hend : ∀ (l : list (nat * DrmConnector.t)) c name others,
            c ∈ l → DrmConnector.name c.2 = name →
            DrmDevice.place_ordered (name :: others) l (length l) = None).
  { intros l c name others Hin Hname. simpl.
    destruct (list_find _ l) as [[it x]|] eqn:Hfind.
    - unfold DrmDevice.iter_swap.
      apply list_find_Some in Hfind as (Hit & _ & _). rewrite Hit. simpl.
      by rewrite (lookup_ge_None_2 l (length l)) by lia.
    - apply list_find_None in Hfind.
      by destruct (proj1 (Forall_forall _ _) Hfind c Hin). }
  split; [by apply Hend|].
  intros Hstate. unfold DrmDevice.make_primary_display_candidates.
  assert (Hlast : is_Some (last (DrmConnector.name conn :: DrmConnector.name conn :: rest))).
  { rewrite !last_cons. destruct (last rest); eauto. }
  destruct Hlast as [back ->].
  change (imap pair [conn]) with [(0%nat, conn)].
  rewrite filter_cons_True by done. rewrite filter_nil.
  assert (Hfirst :
    DrmDevice.place_ordered (DrmConnector.name conn :: DrmConnector.name conn :: rest)
      [(0%nat, conn)] 0
    = DrmDevice.place_ordered (DrmConnector.name conn :: rest) [(0%nat, conn)]
        (length [(0%nat, conn)])).
  { simpl. rewrite decide_True by done. simpl. rewrite decide_True by done. done. }
  rewrite Hfirst.
  rewrite (Hend [(0%nat, conn)] (0%nat, conn) (DrmConnector.name conn) rest);
    [done | apply list_elem_of_here | done].
Qed.

Lemma duplicate_entry_swaps_past_the_end_witness :
  DrmDevice.make_primary_display_candidates DeviceSpec.stable_partition
    [DeviceExamples.edp_panel] ["eDP-1"; "eDP-1"; "..."]%string = None.
Proof.
  apply (duplicate_entry_swaps_past_the_end DeviceSpec.stable_partition
           "eDP-1"%string ["..."%string] [] (0%nat, DeviceExamples.edp_panel)
           DeviceExamples.edp_panel).
  reflexivity.
Defined.

(** ** The enumeration: every pointer it stores is valid *)

Section ResourcesProofs.
Import DrmDevice DeviceSpec DrmResources ResourcesSpec.
Variable MakeDrmModeCrtcUnique : N → option drmModeCrtc.
Variable DrmCrtc_Init : N → Z.
Variable MakeDrmModeEncoderUnique : N → option drmModeEncoder.
Variable MakeDrmModeConnectorUnique : N → option drmModeConnectorObject.
Variable GetConnectorProperty : N → string → Z.

Lemma crtc_loop_unbound crtc_ids : ∀ i crtcs_,
  Forall (λ c, DrmCrtc.display c = -1) crtcs_ →
  Forall (λ c, DrmCrtc.display c = -1)
         (crtc_loop MakeDrmModeCrtcUnique DrmCrtc_Init crtc_ids i crtcs_).2.
Proof.
  induction crtc_ids as [|id rest IH]; intros i crtcs_ H; simpl; [done|].
  destruct (MakeDrmModeCrtcUnique id) as [c|]; [|done].
  destruct (negb (_ =? 0)); [done|].
  apply IH. apply Forall_app. split; [done|]. by repeat constructor.
Qed.

Lemma crtcs_for_encoder_within e crtcs : ∀ crtc possible current n,
  (crtc + length crtcs ≤ n)%nat →
  Forall (λ x, (x < n)%nat) possible →
  (∀ x, current = Some x → (x < n)%nat) →
  Forall (λ x, (x < n)%nat) (crtcs_for_encoder e crtcs crtc possible current).1
  ∧ ∀ x, (crtcs_for_encoder e crtcs crtc possible current).2 = Some x → (x < n)%nat.
Proof.
  induction crtcs as [|c rest IH]; intros crtc possible current n Hn Hp Hc; simpl;
    [done|].
  simpl in Hn. apply IH; [lia | |].
  - destruct (negb _); [|done]. apply Forall_app. split; [done|].
    repeat constructor. lia.
  - intros x. destruct (_ =? _)%N; [|by apply Hc]. intros [= <-]. lia.
Qed.

Lemma encoder_loop_within encoder_ids crtcs_ : ∀ encoders_ possible_clones,
  Forall (encoder_within (length crtcs_)) encoders_ →
  Forall (λ e, DrmEncoder.display_ e = -1) encoders_ →
  Forall (encoder_within (length crtcs_))
         (encoder_loop MakeDrmModeEncoderUnique encoder_ids crtcs_ encoders_
                       possible_clones).1.2
  ∧ Forall (λ e, DrmEncoder.display_ e = -1)
           (encoder_loop MakeDrmModeEncoderUnique encoder_ids crtcs_ encoders_
                         possible_clones).1.2.
Proof.
  induction encoder_ids as [|id rest IH]; intros encoders_ possible_clones Hw Hd;
    simpl; [done|].
  destruct (MakeDrmModeEncoderUnique id) as [e|]; [|done].
  destruct (crtcs_for_encoder_within e crtcs_ 0 [] None (length crtcs_))
    as [Hp Hc]; [lia | constructor | done |].
  destruct (crtcs_for_encoder e crtcs_ 0 [] None) as [possible current].
  apply IH.
  - apply Forall_app. split; [done|]. repeat constructor; done.
  - apply Forall_app. split; [done|]. by repeat constructor.
Qed.

Lemma clone_loop_within n encoders_ possible_clones :
  Forall (encoder_within n) encoders_ →
  Forall (λ e, DrmEncoder.display_ e = -1) encoders_ →
  length (clone_loop encoders_ possible_clones) = length encoders_
  ∧ Forall (encoder_within n) (clone_loop encoders_ possible_clones)
  ∧ Forall (λ e, DrmEncoder.display_ e = -1) (clone_loop encoders_ possible_clones).
Proof.
  intros Hw Hd. unfold clone_loop. split; [by rewrite length_imap|].
  assert (Hkeep : ∀ (js : list nat) (mask : N) (enc : DrmEncoder.t),
    let enc' := foldl (λ enc j,
                         if negb (N.land mask (N.shiftl 1 (N.of_nat j)) =? 0)%N
                         then AddPossibleClone j enc else enc) enc js in
    DrmEncoder.crtc enc' = DrmEncoder.crtc enc
    ∧ DrmEncoder.possible_crtcs enc' = DrmEncoder.possible_crtcs enc
    ∧ DrmEncoder.display_ enc' = DrmEncoder.display_ enc).
  { induction js as [|j js IH]; intros mask enc; simpl; [done|].
    destruct (IH mask (if negb (N.land mask (N.shiftl 1 (N.of_nat j)) =? 0)%N
                       then AddPossibleClone j enc else enc)) as (H1 & H2 & H3).
    simpl in *. rewrite H1, H2, H3. by destruct (negb _). }
  split; apply Forall_lookup; intros i e' Hi;
    rewrite list_lookup_imap in Hi;
    destruct (encoders_ !! i) as [e|] eqn:He; simpl in Hi; try done;
    injection Hi as <-;
    destruct (Hkeep (seq 0 (length encoders_)) (default 0%N (possible_clones !! i)) e)
      as (H1 & H2 & H3).
  - pose proof (Forall_lookup_1 _ _ _ _ Hw He) as [Hc Hp].
    split; [by rewrite H1 | by rewrite H2].
  - rewrite H3. by apply (Forall_lookup_1 _ _ _ _ Hd He).
Qed.

Lemma encoders_for_entry_within c entry encoders :
  ∀ encoder possible current m,
    (encoder + length encoders ≤ m)%nat →
    Forall (λ x, (x < m)%nat) possible →
    (∀ x, current = Some x → (x < m)%nat) →
    Forall (λ x, (x < m)%nat)
           (encoders_for_entry c entry encoders encoder possible current).1
    ∧ ∀ x, (encoders_for_entry c entry encoders encoder possible current).2 = Some x →
           (x < m)%nat.
Proof.
  induction encoders as [|e rest IH]; intros encoder possible current m Hm Hp Hc;
    simpl; [done|].
  simpl in Hm. apply IH; [lia | |].
  - destruct (_ =? entry)%N; [|done]. apply Forall_app. split; [done|].
    repeat constructor. lia.
  - intros x. destruct (_ =? connector_encoder_id c)%N; [|by apply Hc].
    intros [= <-]. lia.
Qed.

Lemma encoders_for_connector_within c entries encoders_ : ∀ possible current,
  Forall (λ x, (x < length encoders_)%nat) possible →
  (∀ x, current = Some x → (x < length encoders_)%nat) →
  Forall (λ x, (x < length encoders_)%nat)
         (encoders_for_connector c entries encoders_ possible current).1
  ∧ ∀ x, (encoders_for_connector c entries encoders_ possible current).2 = Some x →
         (x < length encoders_)%nat.
Proof.
  induction entries as [|entry rest IH]; intros possible current Hp Hc; simpl; [done|].
  destruct (encoders_for_entry_within c entry encoders_ 0 possible current
              (length encoders_)) as [Hp' Hc']; [lia | done | done |].
  destruct (encoders_for_entry c entry encoders_ 0 possible current) as [p' c'].
  by apply IH.
Qed.

Lemma connector_loop_within connector_ids encoders_ : ∀ connectors_ writebacks_,
  let good conn := connector_within (length encoders_) conn
                   ∧ DrmConnector.display conn = -1 in
  Forall (λ conn, good conn ∧ DrmConnector.writeback conn = false) connectors_ →
  Forall (λ conn, good conn ∧ DrmConnector.writeback conn = true) writebacks_ →
  let r := connector_loop MakeDrmModeConnectorUnique GetConnectorProperty
             connector_ids encoders_ connectors_ writebacks_ in
  Forall (λ conn, good conn ∧ DrmConnector.writeback conn = false) r.1.2
  ∧ Forall (λ conn, good conn ∧ DrmConnector.writeback conn = true) r.2.
Proof.
  induction connector_ids as [|id rest IH]; intros connectors_ writebacks_ good Hc Hw;
    simpl; [done|].
  destruct (MakeDrmModeConnectorUnique id) as [c|]; [|done].
  destruct (encoders_for_connector_within c (connector_encoders c) encoders_ [] None)
    as [Hp Hcur]; [constructor | done |].
  destruct (encoders_for_connector c (connector_encoders c) encoders_ [] None)
    as [possible current].
  destruct (negb (_ =? 0)); [done|].
  destruct (DrmConnector.writeback _) eqn:Hwb.
  - apply IH; [done|]. apply Forall_app. split; [done|].
    repeat constructor; done.
  - apply IH; [|done]. apply Forall_app. split; [done|].
    repeat constructor; done.
Qed.

(** The device the enumeration leaves. *)
Lemma Init_resources_device res :
  let r := Init_resources MakeDrmModeCrtcUnique DrmCrtc_Init MakeDrmModeEncoderUnique
             MakeDrmModeConnectorUnique GetConnectorProperty res in
  valid_pointers r.2 ∧ unbound r.2
  ∧ Forall (λ conn, DrmConnector.writeback conn = false) (connectors_ r.2)
  ∧ Forall (λ conn, DrmConnector.writeback conn = true) (writeback_connectors_ r.2).
Proof.
  unfold Init_resources.
  pose proof (crtc_loop_unbound (res_crtcs res) 0 [] ltac:(constructor)) as Hcrtcs.
  destruct (crtc_loop _ _ (res_crtcs res) 0 []) as [ret1 crtcs_]. simpl in Hcrtcs.
  assert (Henc :
    let r := (if ret1 =? 0
              then encoder_loop MakeDrmModeEncoderUnique (res_encoders res) crtcs_ [] []
              else (ret1, [], [])) in
    Forall (encoder_within (length crtcs_)) r.1.2
    ∧ Forall (λ e, DrmEncoder.display_ e = -1) r.1.2).
  { destruct (ret1 =? 0); [|by split].
    apply encoder_loop_within; constructor. }
  destruct (if ret1 =? 0 then _ else _) as [[ret2 encoders0] clones].
  simpl in Henc. destruct Henc as [Hw Hd].
  destruct (clone_loop_within (length crtcs_) encoders0 clones Hw Hd)
    as (Hlen & Hw' & Hd').
  set (encoders_ := clone_loop encoders0 clones) in *.
  assert (Hconn :
    let r := (if ret2 =? 0
              then connector_loop MakeDrmModeConnectorUnique GetConnectorProperty
                     (res_connectors res) encoders_ [] []
              else (ret2, [], [])) in
    Forall (λ conn, (connector_within (length encoders_) conn
                     ∧ DrmConnector.display conn = -1)
                    ∧ DrmConnector.writeback conn = false) r.1.2
    ∧ Forall (λ conn, (connector_within (length encoders_) conn
                       ∧ DrmConnector.display conn = -1)
                      ∧ DrmConnector.writeback conn = true) r.2).
  { destruct (ret2 =? 0); [|by split].
    apply connector_loop_within; constructor. }
  destruct (if ret2 =? 0 then _ else _) as [[ret3 connectors_] writebacks_].
  simpl in Hconn. destruct Hconn as [Hc Hwb]. simpl.
  assert (Hok : ∀ conn, connector_within (length encoders_) conn →
            connector_ok (mk connectors_ writebacks_ encoders_ crtcs_ [] ∅ 0) conn).
  { assert (Henc_ok : ∀ enc, (enc < length encoders_)%nat →
              encoder_ok (mk connectors_ writebacks_ encoders_ crtcs_ [] ∅ 0) enc).
    { intros enc Hlt. destruct (lookup_lt_is_Some_2 _ _ Hlt) as [e He].
      exists e. simpl. split; [done|].
      pose proof (Forall_lookup_1 _ _ _ _ Hw' He) as [Hcur Hposs].
      split.
      - intros crtc Hcrtc. apply lookup_lt_is_Some_2. by apply Hcur.
      - eapply Forall_impl; [exact Hposs|]. simpl. intros crtc Hlt'.
        by apply lookup_lt_is_Some_2. }
    intros conn [Hcur Hposs]. split.
    - intros enc Henc. by apply Henc_ok, Hcur.
    - eapply Forall_impl; [exact Hposs|]. simpl. intros enc. apply Henc_ok. }
  split; [|split; [|split]].
  - split; simpl.
    + eapply Forall_impl; [exact Hc|]. simpl. intros conn [[? _] _]. by apply Hok.
    + eapply Forall_impl; [exact Hwb|]. simpl. intros conn [[? _] _]. by apply Hok.
  - unfold unbound. simpl. repeat split; try done.
    + eapply Forall_impl; [exact Hc|]. simpl. tauto.
    + eapply Forall_impl; [exact Hwb|]. simpl. tauto.
  - eapply Forall_impl; [exact Hc|]. simpl. tauto.
  - eapply Forall_impl; [exact Hwb|]. simpl. tauto.
Qed.
End ResourcesProofs.

(** X24. Whatever the kernel reports, and wherever the enumeration
    stops, the device it leaves is sound: every encoder pointer of a
    connector leads to an encoder of the device and every CRTC pointer of
    such an encoder to a CRTC of the device; no connector, encoder or CRTC
    has a display, and the display table is empty; the writeback
    connectors, and only they, are in the writeback list. *)
Theorem Init_resources_valid_pointers
    (MakeDrmModeCrtcUnique : N → option drmModeCrtc) (DrmCrtc_Init : N → Z)
    (MakeDrmModeEncoderUnique : N → option drmModeEncoder)
    (MakeDrmModeConnectorUnique : N → option drmModeConnectorObject)
    (GetConnectorProperty : N → string → Z) (res : drmModeRes) :
  let r := DrmResources.Init_resources MakeDrmModeCrtcUnique DrmCrtc_Init
             MakeDrmModeEncoderUnique MakeDrmModeConnectorUnique
             GetConnectorProperty res in
  DeviceSpec.valid_pointers r.2
  ∧ ResourcesSpec.unbound r.2
  ∧ Forall (λ conn, DrmConnector.writeback conn = false) (DrmDevice.connectors_ r.2)
  ∧ Forall (λ conn, DrmConnector.writeback conn = true)
           (DrmDevice.writeback_connectors_ r.2).
Proof.
  apply Init_resources_device.
Qed.

Lemma Init_resources_valid_pointers_witness :
  let r := DrmResources.Init_resources ResourceExamples.get_crtc
             ResourceExamples.status_ok ResourceExamples.get_encoder
             ResourceExamples.get_connector ResourceExamples.property_ok
             ResourceExamples.resources in
  r.1 = 0
  ∧ DrmConnector.possible_encoders <$> DrmDevice.connectors_ r.2 = [[0%nat]; [1%nat]]
  ∧ DrmEncoder.possible_crtcs <$> DrmDevice.encoders_ r.2
    = [[0%nat; 1%nat]; [0%nat; 1%nat]]
  ∧ DeviceSpec.valid_pointers r.2.
Proof.
  split; [reflexivity|]. split; [reflexivity|]. split; [reflexivity|].
  apply (Init_resources_valid_pointers ResourceExamples.get_crtc
           ResourceExamples.status_ok ResourceExamples.get_encoder
           ResourceExamples.get_connector ResourceExamples.property_ok
           ResourceExamples.resources).
Defined.

(** X25. Take as given what the calls of [Init] into other code return:
    the status of [DrmCrtc::Init], of each property lookup of a connector
    and of the event listener, and the outcome of the plane loop (so the
    lookups of [DrmDevice::GetProperty], which reads the kernel's answer
    without a null check, are runs that return).  Then, for a preference
    list without repetition and whatever those calls and the kernel
    report, the steps of [Init] itself from the enumeration of the
    kernel's resources to its end are all defined: every pointer it
    follows into its own lists of connectors, encoders and CRTCs is
    valid, and it returns.  The device then handles exactly the displays
    [num_displays, ..., num_displays + m - 1] for the number [m] of ids
    handed out; [Init] reports [m] displays with status 0 and none with
    any other status; and a failure of the enumeration is the status
    [Init] returns, though the displays have been numbered by then. *)
Theorem Init_from_resources_returns
    (MakeDrmModeCrtcUnique : N → option drmModeCrtc) (DrmCrtc_Init : N → Z)
    (MakeDrmModeEncoderUnique : N → option drmModeEncoder)
    (MakeDrmModeConnectorUnique : N → option drmModeConnectorObject)
    (GetConnectorProperty : N → string → Z)
    (drmModeGetConnector : N → option drmModeConnector)
    (std_partition : (nat * DrmConnector.t → bool) →
                     list (nat * DrmConnector.t) → list (nat * DrmConnector.t))
    (res : drmModeRes) (planes : option (Z * list DrmPlane.t)) (event_listener : Z)
    (display_order : list string) (num_displays : Z) :
  DeviceSpec.partition_contract std_partition →
  display_order ≠ [] → NoDup display_order → 0 ≤ num_displays →
  let enumerated := DrmResources.Init_resources MakeDrmModeCrtcUnique DrmCrtc_Init
                      MakeDrmModeEncoderUnique MakeDrmModeConnectorUnique
                      GetConnectorProperty res in
  ∃ ret reported d' m,
    DrmResources.Init_from_resources MakeDrmModeCrtcUnique DrmCrtc_Init
      MakeDrmModeEncoderUnique MakeDrmModeConnectorUnique GetConnectorProperty
      drmModeGetConnector std_partition res planes event_listener
      display_order num_displays
    = Some (ret, reported, d')
    ∧ 0 ≤ m
    ∧ (∀ display, DrmDevice.HandlesDisplay d' display = true
                  ↔ num_displays ≤ display < num_displays + m)
    ∧ (ret = 0 → reported = m)
    ∧ (ret ≠ 0 → reported = 0)
    ∧ (enumerated.1 ≠ 0 → ret = enumerated.1).
Proof.
  intros Hpart Hne Hnd Hnum enumerated.
  destruct (Init_resources_device MakeDrmModeCrtcUnique DrmCrtc_Init
              MakeDrmModeEncoderUnique MakeDrmModeConnectorUnique
              GetConnectorProperty res) as (Hvalid & Hunbound & _ & _).
  fold enumerated in Hvalid, Hunbound.
  unfold DrmResources.Init_from_resources. fold enumerated.
  destruct enumerated as [eret d]. simpl in *.
  destruct Hunbound as (Hc & _ & _ & _ & Hempty).
  assert (Hfresh : Forall (λ conn, DrmConnector.display conn < 0)
                          (DrmDevice.connectors_ d)).
  { eapply Forall_impl; [exact Hc|]. simpl. lia. }
  destruct (Init_assign_dense std_partition display_order num_displays d
              Hpart Hne Hnd Hnum Hfresh Hempty) as (d1 & m & Hd1 & Hm & Hids & Htable).
  destruct (Init_total drmModeGetConnector std_partition
              (DrmDevice.mkReplies eret planes event_listener)
              display_order num_displays d d1 Hd1 Hvalid)
    as (ret & reported & d' & Hinit).
  exists ret, reported, d', m. split; [done|]. split; [done|].
  destruct (Init_after_assign drmModeGetConnector std_partition _ display_order
              num_displays d ret reported d' Hinit)
    as (d1' & Hassign & [Hdisp _] & Hok & Hfail).
  rewrite Hd1 in Hassign. injection Hassign as <-.
  split; [|split; [|split; [done|]]].
  - intros display. apply table_is_range_handles. by rewrite Hdisp.
  - intros Hret. rewrite (Hok Hret), (table_is_range_size _ _ _ Hm Htable). lia.
  - intros Heret. unfold DrmDevice.Init in Hinit. rewrite Hd1 in Hinit.
    simpl in Hinit. apply Z.eqb_neq in Heret. rewrite Heret in Hinit.
    simpl in Hinit. by injection Hinit as <- _ _.
Qed.

Lemma Init_from_resources_returns_witness :
  ∃ ret reported d' m,
    DrmResources.Init_from_resources ResourceExamples.get_crtc
      ResourceExamples.status_ok ResourceExamples.get_encoder_fails
      ResourceExamples.get_connector ResourceExamples.property_ok
      DeviceExamples.connection_unknown DeviceSpec.stable_partition
      ResourceExamples.resources (Some (0, [])) 0 ["..."%string] 0
    = Some (ret, reported, d')
    ∧ 0 ≤ m
    ∧ (ret = 0 → reported = m)
    ∧ ret = - ENODEV.
Proof.
  destruct (Init_from_resources_returns ResourceExamples.get_crtc
              ResourceExamples.status_ok ResourceExamples.get_encoder_fails
              ResourceExamples.get_connector ResourceExamples.property_ok
              DeviceExamples.connection_unknown DeviceSpec.stable_partition
              ResourceExamples.resources (Some (0, [])) 0 ["..."%string] 0)
    as (ret & reported & d' & m & H1 & H2 & _ & H3 & _ & H4).
  - apply stable_partition_contract.
  - discriminate.
  - apply NoDup_singleton.
  - lia.
  - exists ret, reported, d', m.
    split; [exact H1|]. split; [exact H2|]. split; [exact H3|].
    apply H4. discriminate.
Defined.

(** ** ResourceManager: the devices and the displays they serve *)

Section ManagerProofs.
Import ResourceManager ResourceManagerSpec.
Variable DrmDevice_Init : string → Z → Z * Z * DrmDevice.t.
Variable stat : string → bool.
Variable IsKMSDev : string → bool.
Variable BufferInfoGetter_GetInstance : bool.

Lemma GetDrmDevice_is_Some rm display :
  is_Some (GetDrmDevice rm display)
  ↔ Exists (λ drm, DrmDevice.HandlesDisplay drm display = true) (drms_ rm).
Proof.
  unfold GetDrmDevice. rewrite fmap_is_Some, Exists_exists. split.
  - intros [[i drm] Hfind]. apply list_find_Some in Hfind as (Hi & Hd & _).
    exists drm. split; [by eapply list_elem_of_lookup_2|done].
  - intros (drm & Hin & Hd). by eapply list_find_elem_of.
Qed.

Lemma AddDrmDevice_devices path rm :
  drms_ (AddDrmDevice DrmDevice_Init path rm).2
  = drms_ rm ++ [(DrmDevice_Init path (num_displays_ rm)).2]
  ∧ num_displays_ (AddDrmDevice DrmDevice_Init path rm).2
    = num_displays_ rm + (DrmDevice_Init path (num_displays_ rm)).1.2
  ∧ (AddDrmDevice DrmDevice_Init path rm).1
    = (DrmDevice_Init path (num_displays_ rm)).1.1.
Proof.
  unfold AddDrmDevice.
  by destruct (DrmDevice_Init path (num_displays_ rm)) as [[ret added] drm].
Qed.

Lemma device_loop_devices fuel path_pattern : ∀ idx rm ret rm',
  device_loop DrmDevice_Init stat IsKMSDev fuel path_pattern idx rm = Some (ret, rm') →
  drms_ rm `prefix_of` drms_ rm'.
Proof.
  induction fuel as [|fuel IH]; intros idx rm ret rm' H; simpl in H; [done|].
  destruct (negb (stat _)); [by injection H as <- <-|].
  destruct (IsKMSDev _); [|by eapply IH].
  destruct (AddDrmDevice_devices (path_pattern +:+ pretty idx) rm) as (Hd & _ & _).
  destruct (AddDrmDevice _ _ rm) as [r rm1]. simpl in Hd.
  assert (Hpre : drms_ rm `prefix_of` drms_ rm1)
    by (rewrite Hd; by apply prefix_app_r).
  destruct (negb (r =? 0)); [by injection H as <- <-|].
  etrans; [exact Hpre|]. by eapply IH.
Qed.

(** Enough fuel: the loop returns once a device node is missing. *)
Lemma device_loop_returns path_pattern n : ∀ fuel idx rm,
  stat (path_pattern +:+ pretty n)%string = false →
  (idx ≤ n)%nat → (n - idx < fuel)%nat →
  is_Some (device_loop DrmDevice_Init stat IsKMSDev fuel path_pattern idx rm).
Proof.
  induction fuel as [|fuel IH]; intros idx rm Hn Hidx Hfuel; [lia|]. simpl.
  destruct (decide (idx = n)) as [->|Hne]; [by rewrite Hn|].
  destruct (negb (stat _)); [done|].
  destruct (IsKMSDev _); [|apply IH; [done|lia..]].
  destruct (AddDrmDevice _ _ rm) as [r rm1].
  destruct (negb (r =? 0)); [done|]. apply IH; [done|lia..].
Qed.
End ManagerProofs.

(** X26. [ResourceManager::Init] returns 0 or [-EINVAL], never the status
    of a device; it only adds devices; once a display is counted it
    returns 0 exactly when a buffer info getter is there, even if a device
    failed; and without any display it returns 0 when no device failed:
    with the default pattern and no device node at all, [Init] on a new
    manager returns 0 with no device and no display.  With the default
    pattern the loop over the device nodes returns as soon as a node is
    missing. *)
Theorem ResourceManager_Init_status
    (DrmDevice_Init : string → Z → Z * Z * DrmDevice.t)
    (stat IsKMSDev : string → bool) (BufferInfoGetter_GetInstance : bool)
    (fuel : nat) (value : option string) (rm : ResourceManager.t) :
  (∀ ret rm',
     ResourceManager.Init DrmDevice_Init stat IsKMSDev BufferInfoGetter_GetInstance
       fuel value rm = Some (ret, rm') →
     (ret = 0 ∨ ret = - EINVAL)
     ∧ ResourceManager.drms_ rm `prefix_of` ResourceManager.drms_ rm'
     ∧ (ResourceManager.num_displays_ rm' ≠ 0 →
        (ret = 0 ↔ BufferInfoGetter_GetInstance = true)))
  ∧ ((∀ path, stat path = false) →
     ResourceManager.Init DrmDevice_Init stat IsKMSDev BufferInfoGetter_GetInstance
       (S fuel) None ResourceManager.new = Some (0, ResourceManager.new))
  ∧ (∀ n, stat ("/dev/dri/card" +:+ pretty n)%string = false → (n < fuel)%nat →
          is_Some (ResourceManager.Init DrmDevice_Init stat IsKMSDev
                     BufferInfoGetter_GetInstance fuel None rm)).
Proof.
  split; [|split].
  - intros ret rm'. unfold ResourceManager.Init.
    set (path_pattern := String.list_ascii_of_string _).
    set (step := if negb _ then _ else _).
    assert (Hstep : ∀ r rm1, step = Some (r, rm1) →
              ResourceManager.drms_ rm `prefix_of` ResourceManager.drms_ rm1).
    { intros r rm1. unfold step. destruct (negb _).
      - intros [= Hadd].
        destruct (AddDrmDevice_devices DrmDevice_Init
                    (String.string_of_list_ascii path_pattern) rm) as (Hd & _ & _).
        rewrite Hadd in Hd. simpl in Hd. rewrite Hd. by apply prefix_app_r.
      - apply device_loop_devices. }
    destruct step as [[r rm1]|]; simpl; [|done].
    specialize (Hstep r rm1 eq_refl).
    destruct (Z.eqb_spec (ResourceManager.num_displays_ rm1) 0) as [Hz|Hnz].
    + intros [= <- <-]. split; [|split; [done|by intros ?]].
      destruct (r =? 0) eqn:Hr; simpl; [|by right].
      left. by apply Z.eqb_eq.
    + destruct BufferInfoGetter_GetInstance; simpl; intros [= <- <-].
      * split; [by left|]. split; [done|]. done.
      * split; [by right|]. split; [done|]. intros _. split; [|done].
        unfold EINVAL. lia.
  - intros Hstat. unfold ResourceManager.Init. simpl. by rewrite Hstat.
  - intros n Hn Hfuel. unfold ResourceManager.Init.
    change (String.list_ascii_of_string
              (DisplayOrderProp.property_get None "/dev/dri/card%"))
      with (String.list_ascii_of_string "/dev/dri/card%").
    change (bool_decide (last (String.list_ascii_of_string "/dev/dri/card%")
                         = Some (Ascii.Ascii true false true false false true false false)))
      with true.
    change (String.string_of_list_ascii
              (take (length (String.list_ascii_of_string "/dev/dri/card%") - 1)
                    (String.list_ascii_of_string "/dev/dri/card%")))
      with "/dev/dri/card"%string.
    change (negb true) with false. cbv iota.
    destruct (device_loop_returns DrmDevice_Init stat IsKMSDev "/dev/dri/card" n
                fuel 0 rm Hn ltac:(lia) ltac:(lia)) as [[r rm1] ->].
    simpl. destruct (_ =? 0); [done|]. by destruct (negb _).
Qed.

Lemma ResourceManager_Init_status_witness :
  ResourceManager.Init ManagerExamples.one_display ManagerExamples.no_node
    ManagerExamples.every_node_is_kms true 1 None ResourceManager.new
  = Some (0, ResourceManager.new)
  ∧ (ResourceManager.num_displays_
       <$> (snd <$> ResourceManager.Init ManagerExamples.fails_late
                      ManagerExamples.two_nodes ManagerExamples.every_node_is_kms
                      true 3 None ResourceManager.new))
    = Some 0.
Proof.
  split; [|reflexivity].
  apply (ResourceManager_Init_status ManagerExamples.one_display
           ManagerExamples.no_node ManagerExamples.every_node_is_kms true 0 None
           ResourceManager.new).
  reflexivity.
Defined.

(** X27. A new manager serves no display.  Adding a device whose
    initialisation hands back exactly the displays it handles keeps the
    manager dense: afterwards [GetDrmDevice] finds a device exactly for
    the displays from 0 up to the display count, the displays served
    before are served by the same device, and the count has grown by the
    number of displays added. *)
Theorem AddDrmDevice_serves_displays
    (DrmDevice_Init : string → Z → Z * Z * DrmDevice.t)
    (path : string) (rm : ResourceManager.t) :
  ResourceManagerSpec.serves_its_displays ResourceManager.new
  ∧ (ResourceManagerSpec.serves_its_displays rm →
     ResourceManagerSpec.handles_what_it_added (ResourceManager.num_displays_ rm)
       (DrmDevice_Init path (ResourceManager.num_displays_ rm)) →
     let rm' := (ResourceManager.AddDrmDevice DrmDevice_Init path rm).2 in
     ResourceManagerSpec.serves_its_displays rm'
     ∧ (∀ display i, ResourceManager.GetDrmDevice rm display = Some i →
                     ResourceManager.GetDrmDevice rm' display = Some i)
     ∧ ResourceManager.getDisplayCount rm'
       = ResourceManager.getDisplayCount rm
         + (DrmDevice_Init path (ResourceManager.num_displays_ rm)).1.2).
Proof.
  split.
  - split; [done|]. intros display. simpl. split; [by intros [? ?]|lia].
  - intros [Hnum Hserves] [Hadded Hhandles] rm'.
    destruct (AddDrmDevice_devices DrmDevice_Init path rm) as (Hd & Hn & _).
    fold rm' in Hd, Hn. split; [|split; [|done]].
    + split; [lia|]. intros display.
      rewrite GetDrmDevice_is_Some, Hd, Exists_app, <- GetDrmDevice_is_Some.
      rewrite Hserves, Exists_cons, Exists_nil, Hhandles, Hn. lia.
    + intros display i. unfold ResourceManager.GetDrmDevice. rewrite Hd.
      intros Hfind. apply fmap_Some in Hfind as ([j drm] & Hfind & ->).
      by rewrite (list_find_app_l _ _ _ _ _ Hfind).
Qed.

Lemma AddDrmDevice_serves_displays_witness :
  let rm1 := (ResourceManager.AddDrmDevice ManagerExamples.one_display
                "/dev/dri/card0" ResourceManager.new).2 in
  let rm2 := (ResourceManager.AddDrmDevice ManagerExamples.one_display
                "/dev/dri/card1" rm1).2 in
  ResourceManagerSpec.serves_its_displays rm2
  ∧ ResourceManager.GetDrmDevice rm2 1 = Some 1%nat.
Proof.
  intros rm1 rm2.
  assert (Hone : ∀ path num,
            ResourceManagerSpec.handles_what_it_added num
              (ManagerExamples.one_display path num)).
  { intros path num. split; [simpl; lia|]. intros display.
    unfold DrmDevice.HandlesDisplay. simpl.
    rewrite bool_decide_eq_true, lookup_singleton_is_Some. lia. }
  destruct (AddDrmDevice_serves_displays ManagerExamples.one_display
              "/dev/dri/card0" ResourceManager.new) as [Hnew Hstep1].
  destruct (Hstep1 Hnew (Hone _ _)) as (Hs1 & _ & _).
  destruct (AddDrmDevice_serves_displays ManagerExamples.one_display
              "/dev/dri/card1" rm1) as [_ Hstep2].
  destruct (Hstep2 Hs1 (Hone _ _)) as (Hs2 & _ & _).
  split; [exact Hs2 | reflexivity].
Defined.



(** ** DrmPlane::Init *)

Section PlaneInitProofs.
Variable drmModeObjectGetProperties : N → option (list (string * DrmProperty)).
Variable DrmProperty_value : DrmProperty → Z * N.
Variable GetEnumValueWithName : DrmProperty → string → option N.

Lemma AddEnumToMap_keys `{Countable K} (property : DrmProperty) (name : string)
    (key : K) (map : gmap K N) (k : K) :
  is_Some (DrmPlaneInit.AddEnumToMap GetEnumValueWithName property name key map !! k) →
  k = key ∨ is_Some (map !! k).
Proof.
  unfold DrmPlaneInit.AddEnumToMap.
  destruct (GetEnumValueWithName property name); [|by right].
  destruct (decide (k = key)) as [-> | Hne]; [by left|].
  rewrite lookup_insert_ne by done. by right.
Qed.

Lemma AddEnumToMap_key `{Countable K} (property : DrmProperty) (name : string)
    (key : K) (map : gmap K N) (enum_value : N) :
  GetEnumValueWithName property name = Some enum_value →
  DrmPlaneInit.AddEnumToMap GetEnumValueWithName property name key map !! key
  = Some enum_value.
Proof.
  intros Hv. unfold DrmPlaneInit.AddEnumToMap. rewrite Hv.
  by rewrite lookup_insert_eq.
Qed.

Lemma GetProperty_status (obj_id : N) (prop_name : string) :
  match DrmPlaneInit.GetProperty drmModeObjectGetProperties obj_id prop_name with
  | (err, Some property) =>
      err = 0 ∧ ∃ props, drmModeObjectGetProperties obj_id = Some props
                         ∧ (prop_name, property) ∈ props
  | (err, None) =>
      (err = - ENODEV ∧ drmModeObjectGetProperties obj_id = None)
      ∨ (err = - ENOENT ∧ ∃ props, drmModeObjectGetProperties obj_id = Some props
                                   ∧ prop_name ∉ props.*1)
  end.
Proof.
  unfold DrmPlaneInit.GetProperty.
  destruct (drmModeObjectGetProperties obj_id) as [props|]; [|by left].
  destruct (list_find _ props) as [[i [name property]]|] eqn:Hfind.
  - apply list_find_Some in Hfind as (Hi & Hname & _). simpl in Hname. subst name.
    split; [done|]. exists props. split; [done|].
    by eapply list_elem_of_lookup_2.
  - right. split; [done|]. exists props. split; [done|].
    apply list_find_None in Hfind. intros Hin.
    apply list_elem_of_fmap in Hin as ([name property] & -> & Hin).
    rewrite Forall_forall in Hfind. by apply (Hfind _ Hin).
Qed.

Lemma GetPlaneProperty_Some (p : DrmPlane.t) (prop_name : string)
    (property : DrmProperty) :
  DrmPlaneInit.GetPlaneProperty drmModeObjectGetProperties p prop_name = Some property →
  ∃ props, drmModeObjectGetProperties (DrmPlane.id_ p) = Some props
           ∧ (prop_name, property) ∈ props.
Proof.
  unfold DrmPlaneInit.GetPlaneProperty.
  pose proof (GetProperty_status (DrmPlane.id_ p) prop_name) as Hs.
  destruct (DrmPlaneInit.GetProperty _ _ _) as [err [q|]].
  - destruct Hs as [-> Hs]. simpl. by intros [= ->].
  - by destruct (negb _).
Qed.

Lemma GetPlaneProperty_None (p : DrmPlane.t) (prop_name : string) :
  DrmPlaneInit.GetPlaneProperty drmModeObjectGetProperties p prop_name = None →
  ∀ props, drmModeObjectGetProperties (DrmPlane.id_ p) = Some props →
           prop_name ∉ props.*1.
Proof.
  unfold DrmPlaneInit.GetPlaneProperty.
  pose proof (GetProperty_status (DrmPlane.id_ p) prop_name) as Hs.
  destruct (DrmPlaneInit.GetProperty _ _ _) as [err [q|]].
  - destruct Hs as [-> Hs]. simpl. done.
  - intros _ props Hprops.
    destruct Hs as [[_ Hn] | [_ (props' & Hp & Hnot)]]; [congruence|].
    congruence.
Qed.

(** What [Init] leaves in a plane when it returns 0. *)
Lemma Init_success (kp : drmModePlane) (p : DrmPlane.t) :
  DrmPlaneInit.Init drmModeObjectGetProperties DrmProperty_value GetEnumValueWithName
    (DrmPlaneInit.new kp) = (0, p) →
  PlaneInitSpec.initialised p
  ∧ DrmPlane.id_ p = plane_id kp
  ∧ DrmPlane.possible_crtc_mask_ p = plane_possible_crtcs kp
  ∧ DrmPlane.formats_ p = plane_formats kp
  ∧ (∃ type_property,
       DrmPlaneInit.GetPlaneProperty drmModeObjectGetProperties (DrmPlaneInit.new kp)
         "type" = Some type_property
       ∧ DrmProperty_value type_property = (0, DrmPlane.type_ p))
  ∧ Forall (λ name, is_Some (DrmPlaneInit.GetPlaneProperty drmModeObjectGetProperties
                               (DrmPlaneInit.new kp) name))
           DrmPlaneInit.mandatory
  ∧ DrmPlane.alpha_property_ p
    = default (mkProperty 0)
        (DrmPlaneInit.GetPlaneProperty drmModeObjectGetProperties (DrmPlaneInit.new kp)
           "alpha")
  ∧ DrmPlane.rotation_property_ p
    = default (mkProperty 0)
        (DrmPlaneInit.GetPlaneProperty drmModeObjectGetProperties (DrmPlaneInit.new kp)
           "rotation").
Proof.
  unfold DrmPlaneInit.Init.
  destruct (DrmPlaneInit.GetPlaneProperty _ (DrmPlaneInit.new kp) "type")
    as [type_property|] eqn:Htype; [|intros [= H]; unfold ENOTSUP in H; lia].
  destruct (DrmProperty_value type_property) as [ret type] eqn:Hvalue.
  destruct (Z.eqb_spec ret 0) as [-> | Hret]; cbn [negb]; [|intros [= H _]; lia].
  destruct ((type =? DRM_PLANE_TYPE_OVERLAY)%N || (type =? DRM_PLANE_TYPE_PRIMARY)%N
            || (type =? DRM_PLANE_TYPE_CURSOR)%N) eqn:Hvalid; cbn [negb];
    [|intros [= H]; unfold EINVAL in H; lia].
  assert (Hsame : ∀ name,
            DrmPlaneInit.GetPlaneProperty drmModeObjectGetProperties
              (DrmPlaneInit.with_type type (DrmPlaneInit.new kp)) name
            = DrmPlaneInit.GetPlaneProperty drmModeObjectGetProperties
                (DrmPlaneInit.new kp) name) by done.
  destruct (forallb _ DrmPlaneInit.mandatory) eqn:Hmandatory; cbn [negb];
    [|intros [= H]; unfold ENOTSUP in H; lia].
  rewrite !Hsame.
  assert (Hall : Forall (λ name, is_Some (DrmPlaneInit.GetPlaneProperty
                                            drmModeObjectGetProperties
                                            (DrmPlaneInit.new kp) name))
                        DrmPlaneInit.mandatory).
  { apply Forall_forall. intros name Hin.
    rewrite forallb_forall in Hmandatory.
    specialize (Hmandatory name). rewrite <- list_elem_of_In in Hmandatory.
    specialize (Hmandatory Hin). apply bool_decide_eq_true in Hmandatory.
    by rewrite Hsame in Hmandatory. }
  assert (Htype_in : type ∈ [DRM_PLANE_TYPE_OVERLAY; DRM_PLANE_TYPE_PRIMARY;
                             DRM_PLANE_TYPE_CURSOR]).
  { apply orb_true_iff in Hvalid as [Hvalid | Hc].
    - apply orb_true_iff in Hvalid as [Ho | Hp].
      + apply N.eqb_eq in Ho as ->. apply list_elem_of_here.
      + apply N.eqb_eq in Hp as ->. apply list_elem_of_further, list_elem_of_here.
    - apply N.eqb_eq in Hc as ->.
      do 2 apply list_elem_of_further. apply list_elem_of_here. }
  set (p0 := DrmPlaneInit.with_type type (DrmPlaneInit.new kp)).
  intros [= <-].
  assert (Hkeys : ∀ p1 : DrmPlane.t,
            DrmPlane.transform_enum_map_
              (match DrmPlaneInit.GetPlaneProperty drmModeObjectGetProperties
                       (DrmPlaneInit.new kp) "rotation" with
               | Some rotation_property =>
                   DrmPlaneInit.with_rotation rotation_property
                     (DrmPlaneInit.AddEnumToMap GetEnumValueWithName rotation_property
                        "reflect-y" Transform.kFlipV
                     (DrmPlaneInit.AddEnumToMap GetEnumValueWithName rotation_property
                        "reflect-x" Transform.kFlipH
                     (DrmPlaneInit.AddEnumToMap GetEnumValueWithName rotation_property
                        "rotate-270" Transform.kRotate270
                     (DrmPlaneInit.AddEnumToMap GetEnumValueWithName rotation_property
                        "rotate-180" Transform.kRotate180
                     (DrmPlaneInit.AddEnumToMap GetEnumValueWithName rotation_property
                        "rotate-90" Transform.kRotate90
                     (DrmPlaneInit.AddEnumToMap GetEnumValueWithName rotation_property
                        "rotate-0" Transform.kIdentity
                        (DrmPlane.transform_enum_map_ p0))))))) p0
               | None => p0
               end) = DrmPlane.transform_enum_map_ p1 →
            ∀ transform, is_Some (DrmPlane.transform_enum_map_ p1 !! transform) →
                         transform ∈ PlaneInitSpec.single_transforms).
  { intros p1 <- transform.
    destruct (DrmPlaneInit.GetPlaneProperty _ _ "rotation") as [rotation_property|];
      simpl; [|by rewrite lookup_empty; intros [? ?]].
    unfold PlaneInitSpec.single_transforms.
    intros Hin.
    repeat (apply AddEnumToMap_keys in Hin as [-> | Hin];
      [repeat first [apply list_elem_of_here | apply list_elem_of_further]|]).
    rewrite lookup_empty in Hin. by destruct Hin. }
  destruct (DrmPlaneInit.GetPlaneProperty _ _ "rotation") as [rotation_property|];
    destruct (DrmPlaneInit.GetPlaneProperty _ _ "alpha") as [alpha_property|];
    destruct (DrmPlaneInit.GetPlaneProperty _ _ "pixel blend mode") as [blend_property|];
    simpl; (split; [split; [exact Htype_in | by apply Hkeys] |]);
    (split; [done|]); (split; [done|]); (split; [done|]);
    (split; [by exists type_property |]); (split; [exact Hall |]); done.
Qed.

(** The statuses [Init] can return. *)
Lemma Init_statuses (kp : drmModePlane) :
  let r := DrmPlaneInit.Init drmModeObjectGetProperties DrmProperty_value
             GetEnumValueWithName (DrmPlaneInit.new kp) in
  r.1 = 0 ∨ r.1 = - ENOTSUP ∨ r.1 = - EINVAL
  ∨ ∃ type_property,
      (∃ props, drmModeObjectGetProperties (plane_id kp) = Some props
                ∧ ("type"%string, type_property) ∈ props)
      ∧ r.1 = (DrmProperty_value type_property).1 ∧ r.1 ≠ 0.
Proof.
  cbv zeta. unfold DrmPlaneInit.Init.
  destruct (DrmPlaneInit.GetPlaneProperty _ (DrmPlaneInit.new kp) "type")
    as [type_property|] eqn:Htype; [|by right; left].
  destruct (DrmProperty_value type_property) as [ret type] eqn:Hvalue.
  destruct (Z.eqb_spec ret 0) as [-> | Hret]; simpl.
  - destruct (negb _); [by right; right; left|].
    destruct (negb _); [by right; left|]. by left.
  - right; right; right. exists type_property.
    split; [exact (GetPlaneProperty_Some _ _ _ Htype)|].
    by rewrite Hvalue.
Qed.

Variable MakeDrmModePlaneUnique : N → option drmModePlane.

Lemma plane_loop_spec (plane_ids : list N) :
  ∀ (planes_ : list DrmPlane.t) ret planes',
  DrmPlaneInit.plane_loop drmModeObjectGetProperties DrmProperty_value
    GetEnumValueWithName MakeDrmModePlaneUnique plane_ids planes_ = (ret, planes') →
  ∃ added,
    planes' = planes_ ++ added
    ∧ Forall PlaneInitSpec.initialised added
    ∧ Forall2 (λ id (p : DrmPlane.t),
                 ∃ kp, MakeDrmModePlaneUnique id = Some kp
                       ∧ DrmPlane.id_ p = plane_id kp
                       ∧ DrmPlane.formats_ p = plane_formats kp)
              (take (length added) plane_ids) added
    ∧ (length added ≤ length plane_ids)%nat
    ∧ (ret = 0 ↔ length added = length plane_ids).
Proof.
  induction plane_ids as [|id rest IH]; intros planes_ ret planes'; simpl.
  - intros [= <- <-]. exists []. rewrite app_nil_r. repeat split; auto.
  - destruct (MakeDrmModePlaneUnique id) as [kp|] eqn:Hkp.
    + destruct (DrmPlaneInit.Init _ _ _ (DrmPlaneInit.new kp)) as [r plane] eqn:Hinit.
      destruct (Z.eqb_spec r 0) as [-> | Hr]; simpl.
      * intros Hloop. apply IH in Hloop as (added & -> & Hall & Hids & Hlen & Hret).
        apply Init_success in Hinit as (Hp & Hid & _ & Hformats & _).
        exists (plane :: added). rewrite <- app_assoc. simpl.
        split; [done|]. split; [by constructor|].
        split; [constructor; [by exists kp | done]|].
        split; [lia|]. rewrite Hret. lia.
      * intros [= <- <-]. exists []. rewrite app_nil_r. simpl.
        repeat split; auto; try lia; try done.
    + intros [= <- <-]. exists []. rewrite app_nil_r. simpl.
      repeat split; auto; try lia; try done.
Qed.
End PlaneInitProofs.

Lemma initialised_single (p : DrmPlane.t) (layer : DrmHwcLayer) :
  (∀ transform, is_Some (DrmPlane.transform_enum_map_ p !! transform) →
                transform ∈ PlaneInitSpec.single_transforms) →
  DrmPlane.IsValidForLayer p layer = true →
  transform layer ∈ PlaneInitSpec.single_transforms
  ∧ (transform layer ≠ Transform.kIdentity →
     prop_id (DrmPlane.rotation_property_ p) ≠ 0%N)
  ∧ (alpha layer ≠ 0xffff%N → prop_id (DrmPlane.alpha_property_ p) ≠ 0%N)
  ∧ buffer_format layer ∈ DrmPlane.formats_ p.
Proof.
  intros Hkeys. unfold DrmPlane.IsValidForLayer, prop_present, DrmPlane.count,
    DrmPlane.IsFormatSupported.
  destruct (N.eqb_spec (prop_id (DrmPlane.rotation_property_ p)) 0) as [Hrot | Hrot];
    cbn [negb].
  - destruct (N.eqb_spec (transform layer) Transform.kIdentity) as [Hid | Hid];
      cbn [negb]; [|done].
    destruct (N.eqb_spec (prop_id (DrmPlane.alpha_property_ p)) 0) as [Ha | Ha];
      destruct (N.eqb_spec (alpha layer) 0xffff) as [Hl | Hl]; cbn [negb andb];
      try done;
      (destruct (_ && _ && _); [done|]);
      (destruct (bool_decide_reflect (buffer_format layer ∈ DrmPlane.formats_ p));
         cbn [negb]; [|done]);
      intros _; (split; [rewrite Hid; apply list_elem_of_here|]);
      (split; [done|]); (split; [done|]); done.
  - destruct (DrmPlane.transform_enum_map_ p !! transform layer) as [hw|] eqn:Hmap;
      cbn [Nat.eqb]; [|done].
    specialize (Hkeys (transform layer) (ltac:(by rewrite Hmap))).
    destruct (N.eqb_spec (prop_id (DrmPlane.alpha_property_ p)) 0) as [Ha | Ha];
      destruct (N.eqb_spec (alpha layer) 0xffff) as [Hl | Hl]; cbn [negb andb];
      try done;
      (destruct (_ && _ && _); [done|]);
      (destruct (bool_decide_reflect (buffer_format layer ∈ DrmPlane.formats_ p));
         cbn [negb]; [|done]);
      intros _; (split; [done|]); (split; [done|]); (split; [done|]); done.
Qed.

(** X28. [DrmPlane::Init] returns 0, [-ENOTSUP], [-EINVAL] or the
    non-zero status of reading the type property.  When it returns 0 the
    plane has the kernel's id, CRTC mask and formats, its type is the value
    of the type property and one of overlay, primary and cursor, and the
    kernel lists the type property and the ten mandatory ones for it. *)
Theorem DrmPlane_Init_result
    (drmModeObjectGetProperties : N → option (list (string * DrmProperty)))
    (DrmProperty_value : DrmProperty → Z * N)
    (GetEnumValueWithName : DrmProperty → string → option N)
    (kp : drmModePlane) :
  let r := DrmPlaneInit.Init drmModeObjectGetProperties DrmProperty_value
             GetEnumValueWithName (DrmPlaneInit.new kp) in
  (r.1 = 0 ∨ r.1 = - ENOTSUP ∨ r.1 = - EINVAL
   ∨ ∃ type_property,
       (∃ props, drmModeObjectGetProperties (plane_id kp) = Some props
                 ∧ ("type"%string, type_property) ∈ props)
       ∧ r.1 = (DrmProperty_value type_property).1 ∧ r.1 ≠ 0)
  ∧ (r.1 = 0 →
     DrmPlane.id_ r.2 = plane_id kp
     ∧ DrmPlane.possible_crtc_mask_ r.2 = plane_possible_crtcs kp
     ∧ DrmPlane.formats_ r.2 = plane_formats kp
     ∧ DrmPlane.type_ r.2 ∈ [DRM_PLANE_TYPE_OVERLAY; DRM_PLANE_TYPE_PRIMARY;
                             DRM_PLANE_TYPE_CURSOR]
     ∧ ∃ props, drmModeObjectGetProperties (plane_id kp) = Some props
                ∧ (∃ type_property, ("type"%string, type_property) ∈ props
                                    ∧ DrmProperty_value type_property
                                      = (0, DrmPlane.type_ r.2))
                ∧ ∀ name, name ∈ DrmPlaneInit.mandatory → name ∈ props.*1).
Proof.
  intros r. split; [apply Init_statuses|].
  subst r.
  destruct (DrmPlaneInit.Init _ _ _ _) as [ret p] eqn:Hinit. simpl.
  intros ->.
  apply Init_success in Hinit
    as ([Htype _] & Hid & Hmask & Hformats & (type_property & Hfound & Hvalue) & Hall & _).
  do 4 (split; [done|]).
  apply GetPlaneProperty_Some in Hfound as (props & Hprops & Hin).
  exists props. split; [done|]. split; [by exists type_property|].
  intros name Hname. rewrite Forall_forall in Hall.
  destruct (Hall name Hname) as [property Hp].
  apply GetPlaneProperty_Some in Hp as (props' & Hprops' & Hin').
  simpl in Hprops, Hprops'. rewrite Hprops in Hprops'. injection Hprops' as <-.
  apply list_elem_of_fmap. by exists (name, property).
Qed.

Lemma DrmPlane_Init_result_witness :
  DrmPlane.type_
    (DrmPlaneInit.Init PlaneExamples.properties PlaneExamples.value PlaneExamples.enums
       (DrmPlaneInit.new PlaneExamples.kernel_plane)).2
  ∈ [DRM_PLANE_TYPE_OVERLAY; DRM_PLANE_TYPE_PRIMARY; DRM_PLANE_TYPE_CURSOR].
Proof.
  destruct (DrmPlane_Init_result PlaneExamples.properties PlaneExamples.value
              PlaneExamples.enums PlaneExamples.kernel_plane) as [_ H].
  destruct (H eq_refl) as (_ & _ & _ & Htype & _). exact Htype.
Defined.

(** X29. A plane that [DrmPlane::Init] has set up accepts a layer only
    if the layer's transform is the identity, one flip or one rotation: a
    flip combined with a rotation has no entry in the plane's map, whatever
    the rotation property of the hardware offers.  Any other transform than
    the identity needs the rotation property, a plane alpha other than
    0xffff needs the alpha property, and the buffer format is one the
    kernel listed. *)
Theorem initialised_plane_accepts
    (drmModeObjectGetProperties : N → option (list (string * DrmProperty)))
    (DrmProperty_value : DrmProperty → Z * N)
    (GetEnumValueWithName : DrmProperty → string → option N)
    (kp : drmModePlane) (p : DrmPlane.t) (layer : DrmHwcLayer) :
  DrmPlaneInit.Init drmModeObjectGetProperties DrmProperty_value
    GetEnumValueWithName (DrmPlaneInit.new kp) = (0, p) →
  DrmPlane.IsValidForLayer p layer = true →
  transform layer ∈ PlaneInitSpec.single_transforms
  ∧ buffer_format layer ∈ plane_formats kp
  ∧ ∃ props, drmModeObjectGetProperties (plane_id kp) = Some props
             ∧ (transform layer ≠ Transform.kIdentity →
                "rotation"%string ∈ props.*1)
             ∧ (alpha layer ≠ 0xffff%N → "alpha"%string ∈ props.*1).
Proof.
  intros Hinit Hvalid.
  apply Init_success in Hinit
    as ([_ Hkeys] & _ & _ & Hformats & (type_property & Hfound & _) & _ & Halpha & Hrot).
  destruct (initialised_single p layer Hkeys Hvalid) as (Hsingle & Hr & Ha & Hf).
  split; [done|]. split; [by rewrite <- Hformats|].
  apply GetPlaneProperty_Some in Hfound as (props & Hprops & _).
  exists props. split; [done|]. split.
  - intros Hne. specialize (Hr Hne). rewrite Hrot in Hr.
    destruct (DrmPlaneInit.GetPlaneProperty _ _ "rotation") as [property|] eqn:Hget;
      [|done].
    apply GetPlaneProperty_Some in Hget as (props' & Hprops' & Hin).
    simpl in Hprops, Hprops'. rewrite Hprops in Hprops'. injection Hprops' as <-.
    apply list_elem_of_fmap. by exists ("rotation"%string, property).
  - intros Hne. specialize (Ha Hne). rewrite Halpha in Ha.
    destruct (DrmPlaneInit.GetPlaneProperty _ _ "alpha") as [property|] eqn:Hget;
      [|done].
    apply GetPlaneProperty_Some in Hget as (props' & Hprops' & Hin).
    simpl in Hprops, Hprops'. rewrite Hprops in Hprops'. injection Hprops' as <-.
    apply list_elem_of_fmap. by exists ("alpha"%string, property).
Qed.

Lemma initialised_plane_accepts_witness :
  transform PlaneExamples.layer_upside_down ∈ PlaneInitSpec.single_transforms
  ∧ DrmPlane.IsValidForLayer PlaneExamples.plane PlaneExamples.layer_flip_rotate
    = false.
Proof.
  split; [|reflexivity].
  apply (initialised_plane_accepts PlaneExamples.properties PlaneExamples.value
           PlaneExamples.enums PlaneExamples.kernel_plane PlaneExamples.plane
           PlaneExamples.layer_upside_down); reflexivity.
Defined.

(** X30. The plane loop of [DrmDevice::Init] only appends planes, one
    for each plane id up to the first that the kernel does not return or
    whose [Init] fails, and returns 0 exactly when no id was left out.
    Every plane it appends has one of the three plane types, carries the id
    and the formats the kernel gave for its plane id, and rejects every
    layer whose transform is not the identity, one flip or one rotation. *)
Theorem plane_loop_appends_initialised
    (drmModeObjectGetProperties : N → option (list (string * DrmProperty)))
    (DrmProperty_value : DrmProperty → Z * N)
    (GetEnumValueWithName : DrmProperty → string → option N)
    (MakeDrmModePlaneUnique : N → option drmModePlane)
    (plane_ids : list N) (planes_ : list DrmPlane.t) :
  let r := DrmPlaneInit.plane_loop drmModeObjectGetProperties DrmProperty_value
             GetEnumValueWithName MakeDrmModePlaneUnique plane_ids planes_ in
  ∃ added,
    r.2 = planes_ ++ added
    ∧ (length added ≤ length plane_ids)%nat
    ∧ (r.1 = 0 ↔ length added = length plane_ids)
    ∧ ∀ i p, added !! i = Some p →
        DrmPlane.type_ p ∈ [DRM_PLANE_TYPE_OVERLAY; DRM_PLANE_TYPE_PRIMARY;
                            DRM_PLANE_TYPE_CURSOR]
        ∧ (∃ id kp, plane_ids !! i = Some id ∧ MakeDrmModePlaneUnique id = Some kp
                    ∧ DrmPlane.id_ p = plane_id kp
                    ∧ DrmPlane.formats_ p = plane_formats kp)
        ∧ ∀ layer, transform layer ∉ PlaneInitSpec.single_transforms →
                   DrmPlane.IsValidForLayer p layer = false.
Proof.
  intros r. subst r.
  destruct (DrmPlaneInit.plane_loop _ _ _ _ _ _) as [ret planes'] eqn:Hloop.
  apply plane_loop_spec in Hloop as (added & -> & Hall & Hids & Hlen & Hret).
  exists added. simpl. do 3 (split; [done|]).
  intros i p Hi.
  rewrite Forall_forall in Hall.
  destruct (Hall p (list_elem_of_lookup_2 _ _ _ Hi)) as [Htype Hkeys].
  split; [done|]. split.
  - destruct (Forall2_lookup_r _ _ _ _ _ Hids Hi) as (id & Hid & kp & Hkp & Hpid & Hpf).
    exists id, kp. apply lookup_take_Some in Hid as [Hid _]. done.
  - intros layer Hnot.
    destruct (DrmPlane.IsValidForLayer p layer) eqn:Hvalid; [|done].
    by destruct (initialised_single p layer Hkeys Hvalid) as [Hsingle _].
Qed.

Lemma plane_loop_appends_initialised_witness :
  ∃ added,
    (DrmPlaneInit.plane_loop PlaneExamples.properties PlaneExamples.value
       PlaneExamples.enums PlaneExamples.get_plane [7%N; 8%N] []).2 = added
    ∧ (length added ≤ 2)%nat.
Proof.
  destruct (plane_loop_appends_initialised PlaneExamples.properties PlaneExamples.value
              PlaneExamples.enums PlaneExamples.get_plane [7%N; 8%N] [])
    as (added & Hadded & Hlen & _).
  exists added. split; [exact Hadded | exact Hlen].
Defined.
